(** * cursecord: envelope verification, handshake responses and the sync loop

    A shallow embedding of the client's core:
    - [schema_components/types.py]: the length-constrained text types
      [Base64Key] and [Base64Signature], and the key and signature types
      of the fetched elements;
    - [server/schemas/responses.py]: the fetch elements and [is_valid];
    - [app.py]: the handlers of the background worker
      ([_ping_server], [_fetch_handler], [_key_response_handler],
      [_new_contact_key_handler], [_run_server_operations]) and the
      foreground operations [_post_exchange_key] and [_post_message].

    Python exceptions are values of [exn]; a call that may raise returns a
    [result].  The [App] object is threaded explicitly; an exception leaves
    the mutations made before it in place.  The transport, the cryptographic
    primitives and the [database.operations] functions are collaborators that
    live outside these files: they are the fields of [Env]. *)

From Stdlib Require Import List String Ascii Strings.Byte ZArith NArith Arith Bool Lia.
From Stdlib Require Import Sorting.Sorted.
Import ListNotations.

Set Implicit Arguments.
Local Open Scope string_scope.
Local Open Scope list_scope.

(** ** Exceptions and results *)

(** The exception classes the handlers tell apart: [httpx.TimeoutException],
    [httpx.HTTPStatusError], and every other subclass of [Exception]
    (pydantic's [ValidationError], [cryptography]'s [InvalidSignature],
    SQLAlchemy errors, ...).  The payload is [str(e)]. *)
Inductive exn : Type :=
| TimeoutException (msg : string)
| HTTPStatusError (msg : string)
| OtherException (msg : string).

Definition exn_str (e : exn) : string :=
  match e with
  | TimeoutException m => m
  | HTTPStatusError m => m
  | OtherException m => m
  end.

Inductive result (A : Type) : Type :=
| Ok (a : A)
| Raise (e : exn).

Arguments Ok {A} a.
Arguments Raise {A} e.

Definition rbind {A B} (r : result A) (k : A -> result B) : result B :=
  match r with
  | Ok a => k a
  | Raise e => Raise e
  end.

(** [try: body / except Exception: handler] on results. *)
Definition try_except {A} (body : result A) (handler : exn -> result A)
  : result A :=
  match body with
  | Ok a => Ok a
  | Raise e => handler e
  end.

Definition bytes := list byte.

(** ** [base64.urlsafe_b64encode] *)

Module Base64.

Definition alphabet : string :=
  "ABCDEFGHIJKLMNOPQRSTUVWXYZabcdefghijklmnopqrstuvwxyz0123456789-_".

Definition digit (n : N) : ascii :=
  match String.get (N.to_nat n) alphabet with
  | Some c => c
  | None => "="%char
  end.

Definition pad : ascii := "="%char.

(** The 24-bit group of three input bytes. *)
Definition group (a b c : byte) : N :=
  N.lor (N.shiftl (Byte.to_N a) 16)
        (N.lor (N.shiftl (Byte.to_N b) 8) (Byte.to_N c)).

Definition sextet (g : N) (i : N) : ascii :=
  digit (N.land (N.shiftr g (18 - 6 * i)) 63).

Fixpoint urlsafe_b64encode (bs : bytes) : string :=
  match bs with
  | [] => EmptyString
  | [a] =>
      let g := group a x00 x00 in
      String (sextet g 0) (String (sextet g 1) (String pad (String pad EmptyString)))
  | [a; b] =>
      let g := group a b x00 in
      String (sextet g 0) (String (sextet g 1) (String (sextet g 2)
        (String pad EmptyString)))
  | a :: b :: c :: rest =>
      let g := group a b c in
      String (sextet g 0) (String (sextet g 1) (String (sextet g 2)
        (String (sextet g 3) (urlsafe_b64encode rest))))
  end.


End Base64.


(** ** [schema_components/types.py]: length-constrained text fields *)

(** Python text: a sequence of code points.  The [min_length] and
    [max_length] of a pydantic [str] field count code points, not bytes. *)
Definition pytext : Type := list N.

(** The text of an ASCII string, such as [b64encode(...).decode()]. *)
Definition text_of_string (s : string) : pytext :=
  map N_of_ascii (list_ascii_of_string s).

Module Types.

(** [Field(min_length=.., max_length=..)] on a [str]. *)
Record StrField : Type := {
  min_length : nat;
  max_length : nat
}.

(** pydantic's constrained-[str] check: the value is returned unchanged or
    the validation fails. *)
Definition check_str (f : StrField) (t : pytext) : result pytext :=
  if Nat.ltb (List.length t) (min_length f)
  then Raise (OtherException "string_too_short")
  else if Nat.ltb (max_length f) (List.length t)
  then Raise (OtherException "string_too_long")
  else Ok t.

Definition Base64Key_field : StrField :=
  {| min_length := 44; max_length := 44 |}.

Definition Base64Signature_field : StrField :=
  {| min_length := 88; max_length := 88 |}.

Section Annotated.

(** The raw input of a field, before any validation. *)
Variable pyvalue : Type.

(** pydantic's own [str] schema: whether a value is taken as text. *)
Variable str_schema : pyvalue -> result pytext.

(** [schema_components.validators] is not part of these files: the two
    [BeforeValidator] functions are parameters. *)
Variable validate_key_input : pyvalue -> result pyvalue.
Variable validate_signature_input : pyvalue -> result pyvalue.

(** [Annotated[str, Field(...), BeforeValidator(f)]]: [f] runs on the raw
    input, its output goes through the constrained [str] schema. *)
Definition annotated_str (f : StrField)
    (before : pyvalue -> result pyvalue) (v : pyvalue) : result pytext :=
  rbind (before v) (fun v' =>
  rbind (str_schema v') (check_str f)).

Definition Base64Key : pyvalue -> result pytext :=
  annotated_str Base64Key_field validate_key_input.

Definition Base64Signature : pyvalue -> result pytext :=
  annotated_str Base64Signature_field validate_signature_input.

End Annotated.


End Types.

(** ** Keys, wire elements and [is_valid] ([server/schemas/responses.py]) *)

(** Key objects of the [cryptography] package, identified by their raw
    bytes. *)
Record Ed25519PublicKey : Type := { ed_public_bytes_raw : bytes }.
Record X25519PublicKey : Type := { public_bytes_raw : bytes }.
Record X25519PrivateKey : Type := { private_bytes_raw : bytes }.
Record Fernet : Type := { fernet_key_bytes : string }.

(** A [datetime], as a count on some fixed time line. *)
Definition Timestamp := Z.

Record FetchResponseExchangeKey : Type := {
  ek_timestamp : Timestamp;
  ek_sender_key : Ed25519PublicKey;
  ek_signature : bytes;
  exchange_key : X25519PublicKey;
  initial_key : option X25519PublicKey
}.

Record FetchResponseMessage : Type := {
  msg_timestamp : Timestamp;
  msg_sender_key : Ed25519PublicKey;
  msg_signature : bytes;
  nonce : string;
  encrypted_text : string
}.

(** The two concrete subclasses of [_FetchResponseElement]. *)
Inductive FetchResponseElement : Type :=
| ExchangeKeyElement (k : FetchResponseExchangeKey)
| MessageElement (m : FetchResponseMessage).

Definition sender_key (el : FetchResponseElement) : Ed25519PublicKey :=
  match el with
  | ExchangeKeyElement k => ek_sender_key k
  | MessageElement m => msg_sender_key m
  end.

Definition signature (el : FetchResponseElement) : bytes :=
  match el with
  | ExchangeKeyElement k => ek_signature k
  | MessageElement m => msg_signature m
  end.

Record FetchResponseData : Type := {
  exchange_keys : list FetchResponseExchangeKey;
  messages : list FetchResponseMessage
}.

Record FetchResponseSchema : Type := {
  fetch_status : string;
  fetch_message : string;
  fetch_data_ : FetchResponseData
}.

Record PostKeyResponseSchema : Type := {
  pk_status : string;
  pk_message : string;
  pk_timestamp : Timestamp
}.

Record PostMessageResponseSchema : Type := {
  pm_status : string;
  pm_message : string;
  pm_nonce : string;
  pm_timestamp : Timestamp
}.

Module Responses.

Section Verify.

(** [Ed25519PublicKey.verify(signature, data)]: returns or raises
    [InvalidSignature]. *)
Variable ed25519_verify : Ed25519PublicKey -> bytes -> bytes -> result unit.

(** [str.encode()]: raises on text that has no UTF-8 form. *)
Variable str_encode : string -> result bytes.

Definition _get_data (el : FetchResponseElement) : result bytes :=
  match el with
  | ExchangeKeyElement k => Ok (public_bytes_raw (exchange_key k))
  | MessageElement m => str_encode (encrypted_text m)
  end.

(** The property reads the element and returns; nothing is assigned, so
    the element is not part of the result. *)
Definition is_valid (el : FetchResponseElement) : result bool :=
  try_except
    (rbind (_get_data el) (fun data =>
     rbind (ed25519_verify (sender_key el) (signature el) data) (fun _ =>
     Ok true)))
    (fun _ => Ok false).

End Verify.

End Responses.


(** ** The local database *)

(** A row of [Contact]; [BaseContactOutputSchema] carries the same three
    fields. *)
Record Contact : Type := {
  contact_id : Z;
  contact_name : string;
  verification_key : Ed25519PublicKey
}.

Definition BaseContactOutputSchema := Contact.

(** A row of [ReceivedExchangeKey], with the contact it belongs to. *)
Record ReceivedExchangeKey : Type := {
  rek_id : Z;
  public_key : X25519PublicKey;
  rek_contact : Contact;
  matched : bool
}.

(** A row of [FernetKey], as [_key_response_handler] builds it. *)
Record FernetKey : Type := {
  encoded_bytes : string;
  fk_contact_id : Z;
  fk_timestamp : Timestamp
}.

(** The tables the handlers touch directly.  [other_tables] stands for the
    rest of the database (messages, posted exchange keys), which only the
    [database.operations] functions read and write. *)
Record Store (Other : Type) : Type := {
  contacts : list Contact;
  received_exchange_keys : list ReceivedExchangeKey;
  fernet_keys : list FernetKey;
  other_tables : Other
}.

Arguments contacts {Other} s.
Arguments received_exchange_keys {Other} s.
Arguments fernet_keys {Other} s.
Arguments other_tables {Other} s.

(** [session.get(Contact, id)] *)
Definition session_get_contact {Other} (st : Store Other) (id : Z)
  : option Contact :=
  find (fun c => Z.eqb (contact_id c) id) (contacts st).

Definition set_matched (r : ReceivedExchangeKey) : ReceivedExchangeKey :=
  {| rek_id := rek_id r;
     public_key := public_key r;
     rek_contact := rek_contact r;
     matched := true |}.

(** The body of the [with Session(...)] block of [_key_response_handler]:
    [get_one] raises when the row is gone; otherwise the flag and the new
    [FernetKey] row are committed together. *)
Definition commit_matched_key {Other} (st : Store Other) (id : Z)
    (fk : FernetKey) : result (Store Other) :=
  match find (fun r => Z.eqb (rek_id r) id) (received_exchange_keys st) with
  | None => Raise (OtherException "No row was found when one was required")
  | Some _ =>
      Ok {| contacts := contacts st;
            received_exchange_keys :=
              map (fun r => if Z.eqb (rek_id r) id then set_matched r else r)
                  (received_exchange_keys st);
            fernet_keys := fernet_keys st ++ [fk];
            other_tables := other_tables st |}
  end.

(** An element of [ContactOutputSchema.fernet_keys]: the row and the
    [Fernet] object validated from it. *)
Record FernetKeyOutput : Type := {
  key : Fernet;
  fko_row : FernetKey
}.

Record ContactOutputSchema : Type := {
  cos_id : Z;
  cos_name : string;
  cos_verification_key : Ed25519PublicKey;
  cos_fernet_keys : list FernetKeyOutput
}.

(** ** Collaborators *)

(** Everything the three files call but do not define.  The [nat] argument
    of a field is the number of calls made to the outside world so far, so
    that two calls with equal arguments may answer differently. *)
Record Env (Other : Type) : Type := {
  (* cryptography *)
  ed25519_verify : Ed25519PublicKey -> bytes -> bytes -> result unit;
  str_encode : string -> result bytes;
  x25519_generate : nat -> X25519PrivateKey;
  x25519_public_key : X25519PrivateKey -> X25519PublicKey;
  x25519_exchange : X25519PrivateKey -> X25519PublicKey -> result bytes;
  fernet_encrypt : nat -> Fernet -> bytes -> result bytes;
  (* httpx and server.operations *)
  client_get_ping : nat -> result unit;
  fetch_data : nat -> list Ed25519PublicKey -> result FetchResponseSchema;
  post_exchange_key :
    nat -> Ed25519PublicKey -> X25519PublicKey -> option X25519PublicKey ->
    result PostKeyResponseSchema;
  post_message :
    nat -> Ed25519PublicKey -> bytes -> result PostMessageResponseSchema;
  (* database.operations *)
  get_contact_keys : Store Other -> result (list Ed25519PublicKey);
  get_contacts_without_keys : Store Other -> result (list BaseContactOutputSchema);
  get_unmatched_keys : Store Other -> result (list ReceivedExchangeKey);
  store_fetched_data : Store Other -> FetchResponseSchema -> result (Store Other);
  store_posted_exchange_key :
    Store Other -> Z -> X25519PrivateKey -> result (Store Other);
  store_posted_message :
    Store Other -> string -> Z -> PostMessageResponseSchema ->
    result (Store Other);
  (* database.models and database.schemas.outputs *)
  fernet_keys_order : list FernetKey -> list FernetKey;
  validate_key_output_Fernet : string -> result Fernet
}.

(** ** The application object *)

Record LogItem : Type := {
  title : string;
  text : string
}.

(** What the application does to the outside world, in order. *)
Inductive Event : Type :=
| EvPing
| EvFetchData (keys : list Ed25519PublicKey)
| EvStoreFetchedData
| EvMessageLogUpdate
| EvPostExchangeKey (recipient : Ed25519PublicKey) (k : X25519PublicKey)
    (initial : option X25519PublicKey)
| EvCommitMatchedKey (id : Z) (fk : FernetKey)
| EvStorePostedExchangeKey (contact : Z)
| EvFernetEncrypt (k : Fernet) (plaintext : bytes)
| EvPostMessage (recipient : Ed25519PublicKey) (ciphertext : bytes)
| EvStorePostedMessage (contact : Z) (plaintext : string)
| EvSleep.

(** The fields of [App] that the modelled methods read or assign, the trace
    of events and the count of outside calls.  Time stamps of log items
    (wall-clock readings) and the three locks are left out: the model runs
    one method at a time. *)
Record App (Other : Type) : Type := {
  connected : bool;
  engine : Store Other;
  output_log : list LogItem;
  selected_contact : option BaseContactOutputSchema;
  message_entry_input : string;
  events : list Event;
  calls : nat
}.

Arguments connected {Other} a.
Arguments engine {Other} a.
Arguments output_log {Other} a.
Arguments selected_contact {Other} a.
Arguments message_entry_input {Other} a.
Arguments events {Other} a.
Arguments calls {Other} a.

(** Assignments to one field of the application object. *)
Definition add_event {Other} (ev : Event) (s : App Other) : App Other :=
  {| connected := connected s; engine := engine s;
     output_log := output_log s; selected_contact := selected_contact s;
     message_entry_input := message_entry_input s;
     events := events s ++ [ev]; calls := calls s |}.

Definition count_call {Other} (s : App Other) : App Other :=
  {| connected := connected s; engine := engine s;
     output_log := output_log s; selected_contact := selected_contact s;
     message_entry_input := message_entry_input s;
     events := events s; calls := S (calls s) |}.

Definition log_item {Other} (i : LogItem) (s : App Other) : App Other :=
  {| connected := connected s; engine := engine s;
     output_log := output_log s ++ [i];
     selected_contact := selected_contact s;
     message_entry_input := message_entry_input s;
     events := events s; calls := calls s |}.

Definition with_connected {Other} (b : bool) (s : App Other) : App Other :=
  {| connected := b; engine := engine s;
     output_log := output_log s; selected_contact := selected_contact s;
     message_entry_input := message_entry_input s;
     events := events s; calls := calls s |}.

Definition with_input {Other} (i : string) (s : App Other) : App Other :=
  {| connected := connected s; engine := engine s;
     output_log := output_log s; selected_contact := selected_contact s;
     message_entry_input := i;
     events := events s; calls := calls s |}.

Definition with_engine {Other} (st : Store Other) (s : App Other) : App Other :=
  {| connected := connected s; engine := st;
     output_log := output_log s; selected_contact := selected_contact s;
     message_entry_input := message_entry_input s;
     events := events s; calls := calls s |}.

(** ** A state-and-exception monad over [App] *)

(** A method takes the application object and returns normally or raises;
    either way the object carries the assignments made so far. *)
Definition M (Other A : Type) : Type := App Other -> result A * App Other.

Section Monad.

Variable Other : Type.

Definition ret {A} (a : A) : M Other A := fun s => (Ok a, s).

Definition raise {A} (e : exn) : M Other A := fun s => (Raise e, s).

Definition bind {A B} (m : M Other A) (k : A -> M Other B) : M Other B :=
  fun s =>
    match m s with
    | (Ok a, s') => k a s'
    | (Raise e, s') => (Raise e, s')
    end.

(** [try: body / except ...: handler e]; a handler re-raises what its
    [except] clauses do not name. *)
Definition try_catch {A} (body : M Other A) (handler : exn -> M Other A)
  : M Other A :=
  fun s =>
    match body s with
    | (Ok a, s') => (Ok a, s')
    | (Raise e, s') => handler e s'
    end.

Definition get_app : M Other (App Other) := fun s => (Ok s, s).

Definition lift {A} (r : result A) : M Other A := fun s => (r, s).

Definition emit (ev : Event) : M Other unit :=
  fun s => (Ok tt, add_event ev s).

(** A call whose answer is the outside world's. *)
Definition world {A} (f : nat -> result A) : M Other A :=
  fun s => (f (calls s), count_call s).

(** [self.output_log.add_item(title=..., timestamp=datetime.now(), text=...)] *)
Definition add_item (ttl txt : string) : M Other unit :=
  fun s => (Ok tt, log_item {| title := ttl; text := txt |} s).

Definition set_connected (b : bool) : M Other unit :=
  fun s => (Ok tt, with_connected b s).

Definition set_message_entry_input (i : string) : M Other unit :=
  fun s => (Ok tt, with_input i s).

(** A write to the database: the new contents on success, the old ones and
    the exception otherwise. *)
Definition write_engine (f : Store Other -> result (Store Other))
  : M Other unit :=
  fun s =>
    match f (engine s) with
    | Ok st => (Ok tt, with_engine st s)
    | Raise e => (Raise e, s)
    end.

(** [for x in xs: body(x)]; an exception ends the loop. *)
Fixpoint for_each {A} (xs : list A) (body : A -> M Other unit) : M Other unit :=
  match xs with
  | [] => ret tt
  | x :: rest => bind (body x) (fun _ => for_each rest body)
  end.

End Monad.

Arguments ret {Other A} a.
Arguments raise {Other A} e.
Arguments get_app {Other}.
Arguments lift {Other A} r.
Arguments emit {Other} ev.
Arguments world {Other A} f.
Arguments add_item {Other} ttl txt.
Arguments set_connected {Other} b.
Arguments set_message_entry_input {Other} i.

Notation "x <- c1 ;; c2" := (bind c1 (fun x => c2))
  (at level 61, c1 at next level, right associativity).
Notation "c1 ;;; c2" := (bind c1 (fun _ => c2))
  (at level 61, right associativity).

(** ** [app.py] *)

Section Methods.

Variable Other : Type.
Variable E : Env Other.

Local Abbreviation Method := (M Other).

(** [App._ping_server]: any answer to the GET counts as a connection; any
    exception is a failed probe. *)
Definition _ping_server : Method bool :=
  try_catch
    (emit EvPing ;;;
     _ <- world (client_get_ping E) ;;
     add_item "Connection Established"
              "Successfully connected to the server." ;;;
     ret true)
    (fun _ => ret false).

(** [App._fetch_handler] *)
Definition _fetch_handler : Method unit :=
  s <- get_app ;;
  contact_keys <- lift (get_contact_keys E (engine s)) ;;
  match contact_keys with
  | [] => ret tt
  | _ :: _ =>
      try_catch
        (emit (EvFetchData contact_keys) ;;;
         response <- world (fun n => fetch_data E n contact_keys) ;;
         emit EvStoreFetchedData ;;;
         write_engine (fun st => store_fetched_data E st response) ;;;
         emit EvMessageLogUpdate)
        (fun e =>
           match e with
           | HTTPStatusError _ => add_item "Bad Response" (exn_str e)
           | _ => raise e
           end)
  end.

(** One pass of the [for key in unmatched_keys] loop of
    [App._key_response_handler]. *)
Definition _key_response_body (rk : ReceivedExchangeKey) : Method unit :=
  private_key <- world (fun n => Ok (x25519_generate E n)) ;;
  shared_secret <- lift (x25519_exchange E private_key (public_key rk)) ;;
  let encoded_shared_secret := Base64.urlsafe_b64encode shared_secret in
  posted <-
    try_catch
      (emit (EvPostExchangeKey (verification_key (rek_contact rk))
                               (x25519_public_key E private_key)
                               (Some (public_key rk))) ;;;
       response <- world (fun n =>
         post_exchange_key E n (verification_key (rek_contact rk))
                           (x25519_public_key E private_key)
                           (Some (public_key rk))) ;;
       ret (Some response))
      (fun e =>
         match e with
         | HTTPStatusError _ =>
             add_item "Bad Response" (exn_str e) ;;; ret None
         | _ => raise e
         end) ;;
  match posted with
  | None => ret tt
  | Some response =>
      let fk := {| encoded_bytes := encoded_shared_secret;
                   fk_contact_id := contact_id (rek_contact rk);
                   fk_timestamp := pk_timestamp response |} in
      emit (EvCommitMatchedKey (rek_id rk) fk) ;;;
      write_engine (fun st => commit_matched_key st (rek_id rk) fk)
  end.

(** [App._key_response_handler] *)
Definition _key_response_handler : Method unit :=
  s <- get_app ;;
  unmatched_keys <- lift (get_unmatched_keys E (engine s)) ;;
  for_each unmatched_keys _key_response_body.

(** [App._post_exchange_key] *)
Definition _post_exchange_key (contact : BaseContactOutputSchema)
  : Method unit :=
  s <- get_app ;;
  if negb (connected s) then
    add_item "Exchange Key Post Error - No Connection"
      "No exchange keys can be sent until a connection to the server is established."
  else
    private_exchange_key <- world (fun n => Ok (x25519_generate E n)) ;;
    try_catch
      (emit (EvPostExchangeKey (verification_key contact)
                               (x25519_public_key E private_exchange_key)
                               None) ;;;
       _ <- world (fun n =>
         post_exchange_key E n (verification_key contact)
                           (x25519_public_key E private_exchange_key) None) ;;
       emit (EvStorePostedExchangeKey (contact_id contact)) ;;;
       write_engine (fun st =>
         store_posted_exchange_key E st (contact_id contact)
                                   private_exchange_key) ;;;
       add_item "Exchange Key Post Success"
         ("Posted exchange key to " ++ contact_name contact ++ "."))
      (fun e =>
         match e with
         | TimeoutException _ =>
             add_item "Exchange Key Post Error"
                      "Exchange key post request timed out."
         | HTTPStatusError _ =>
             add_item "Exchange Key Post Error - Bad Response" (exn_str e)
         | OtherException _ =>
             add_item "Exchange Key Post Error - Unhandled Exception"
                      (exn_str e)
         end).

(** [App._new_contact_key_handler] *)
Definition _new_contact_key_handler : Method unit :=
  s <- get_app ;;
  new_contacts <- lift (get_contacts_without_keys E (engine s)) ;;
  for_each new_contacts _post_exchange_key.

(** The three steps inside the [try] of [App._run_server_operations]. *)
Definition sync_cycle : Method unit :=
  _fetch_handler ;;;
  _key_response_handler ;;;
  _new_contact_key_handler.

(** One pass of the [while True] loop of [App._run_server_operations].
    The [continue] of the disconnected branch skips the [time.sleep] at the
    end of the loop body. *)
Definition _run_server_operations_iteration : Method unit :=
  s <- get_app ;;
  if negb (connected s) then
    b <- _ping_server ;;
    set_connected b
  else
    try_catch sync_cycle
      (fun e =>
         match e with
         | TimeoutException _ =>
             add_item "Server Connection Error"
                      "Request timed out. Attempting to reconnect..." ;;;
             set_connected false
         | _ => add_item "Unhandled Server Error" (exn_str e)
         end) ;;;
    emit EvSleep.

(** The first [n] passes of the loop. *)
Fixpoint _run_server_operations (n : nat) : Method unit :=
  match n with
  | O => ret tt
  | S n' => _run_server_operations_iteration ;;; _run_server_operations n'
  end.

(** The rows behind [Contact.fernet_keys], in the order the relationship
    yields them. *)
Definition contact_fernet_rows (st : Store Other) (id : Z) : list FernetKey :=
  fernet_keys_order E
    (filter (fun fk => Z.eqb (fk_contact_id fk) id) (fernet_keys st)).

Fixpoint validate_fernet_keys (rows : list FernetKey)
  : result (list FernetKeyOutput) :=
  match rows with
  | [] => Ok []
  | row :: rest =>
      rbind (validate_key_output_Fernet E (encoded_bytes row)) (fun k =>
      rbind (validate_fernet_keys rest) (fun ks =>
      Ok ({| key := k; fko_row := row |} :: ks)))
  end.

(** [ContactOutputSchema.model_validate(obj)] *)
Definition ContactOutputSchema_model_validate (st : Store Other)
    (obj : Contact) : result ContactOutputSchema :=
  rbind (validate_fernet_keys (contact_fernet_rows st (contact_id obj)))
    (fun ks =>
       Ok {| cos_id := contact_id obj;
             cos_name := contact_name obj;
             cos_verification_key := verification_key obj;
             cos_fernet_keys := ks |}).

(** [App._post_message] *)
Definition _post_message : Method unit :=
  s <- get_app ;;
  match selected_contact s with
  | None => ret tt
  | Some sel =>
      if String.eqb (message_entry_input s) "" then ret tt
      else if negb (connected s) then
        add_item "Message Post Error - No Connection"
          "No messages can be sent until a connection to the server is established."
      else
        match session_get_contact (engine s) (contact_id sel) with
        | None => ret tt
        | Some obj =>
            selected <- lift (ContactOutputSchema_model_validate (engine s) obj) ;;
            match cos_fernet_keys selected with
            | first_key :: _ =>
                let fernet_key := key first_key in
                let plaintext := message_entry_input s in
                try_catch
                  (data <- lift (str_encode E plaintext) ;;
                   emit (EvFernetEncrypt fernet_key data) ;;;
                   ciphertext <- world (fun n => fernet_encrypt E n fernet_key data) ;;
                   emit (EvPostMessage (cos_verification_key selected) ciphertext) ;;;
                   response <- world (fun n =>
                     post_message E n (cos_verification_key selected) ciphertext) ;;
                   emit (EvStorePostedMessage (cos_id selected) plaintext) ;;;
                   write_engine (fun st =>
                     store_posted_message E st plaintext (cos_id selected) response) ;;;
                   set_message_entry_input "" ;;;
                   add_item "Message Post Success"
                     ("Message sent to " ++ contact_name sel ++ ".") ;;;
                   emit EvMessageLogUpdate)
                  (fun e =>
                     match e with
                     | TimeoutException _ =>
                         add_item "Message Post Error - Request Timed Out"
                                  "Message post request timed out."
                     | HTTPStatusError _ =>
                         add_item "Message Post Error - Bad Response" (exn_str e)
                     | OtherException _ =>
                         add_item "Message Post Error - Unhandled Exception"
                                  (exn_str e)
                     end)
            | [] =>
                add_item "Message Post Error - No Encryption Key"
                  ("No messages can be posted before a successful key exchange with "
                   ++ cos_name selected ++ ".")
            end
        end
  end.

End Methods.

(** ** Steps of a cycle, by the events they produce *)

Definition fetch_step_event (ev : Event) : bool :=
  match ev with
  | EvFetchData _ | EvStoreFetchedData | EvMessageLogUpdate => true
  | _ => false
  end.

Definition respond_step_event (ev : Event) : bool :=
  match ev with
  | EvPostExchangeKey _ _ (Some _) | EvCommitMatchedKey _ _ => true
  | _ => false
  end.

Definition auto_exchange_step_event (ev : Event) : bool :=
  match ev with
  | EvPostExchangeKey _ _ None | EvStorePostedExchangeKey _ => true
  | _ => false
  end.


(** Requests sent to the relay. *)
Definition network_event (ev : Event) : bool :=
  match ev with
  | EvPing | EvFetchData _ | EvPostExchangeKey _ _ _ | EvPostMessage _ _ => true
  | _ => false
  end.

(** Whether every probe but the first comes after a [time.sleep] that
    follows the probe before it. *)
Fixpoint probes_spaced_from (slept : bool) (evs : list Event) : bool :=
  match evs with
  | [] => true
  | EvPing :: rest => slept && probes_spaced_from false rest
  | EvSleep :: rest => probes_spaced_from true rest
  | _ :: rest => probes_spaced_from slept rest
  end.

Definition probes_spaced_by_sleep (evs : list Event) : bool :=
  probes_spaced_from true evs.

(** The state after the [except httpx.TimeoutException] clause and the
    [time.sleep] of [_run_server_operations]. *)
Definition after_cycle_timeout {Other} (s : App Other) : App Other :=
  add_event EvSleep
    (with_connected false
       (log_item {| title := "Server Connection Error";
                    text := "Request timed out. Attempting to reconnect..." |}
                 s)).

(** The state after the [except Exception] clause and the [time.sleep]. *)
Definition after_cycle_failure {Other} (e : exn) (s : App Other) : App Other :=
  add_event EvSleep
    (log_item {| title := "Unhandled Server Error"; text := exn_str e |} s).

Definition is_timeout (e : exn) : bool :=
  match e with
  | TimeoutException _ => true
  | _ => false
  end.

(** The request [_key_response_body] sends for a record, given the private
    key it generated. *)
Definition response_event (Other : Type) (E : Env Other)
    (rk : ReceivedExchangeKey) (private_key : X25519PrivateKey) : Event :=
  EvPostExchangeKey (verification_key (rek_contact rk))
                    (x25519_public_key E private_key)
                    (Some (public_key rk)).

(** The state in which the answer to that request arrives. *)
Definition response_posted (Other : Type) (E : Env Other)
    (rk : ReceivedExchangeKey) (s : App Other) : App Other :=
  count_call
    (add_event (response_event E rk (x25519_generate E (calls s)))
               (count_call s)).

(** The request [_post_exchange_key] sends for a contact, given the private
    key it generated. *)
Definition offer_event (Other : Type) (E : Env Other)
    (contact : BaseContactOutputSchema) (private_key : X25519PrivateKey)
  : Event :=
  EvPostExchangeKey (verification_key contact)
                    (x25519_public_key E private_key) None.

(** The state in which the answer to that request arrives. *)
Definition offer_posted (Other : Type) (E : Env Other)
    (contact : BaseContactOutputSchema) (s : App Other) : App Other :=
  count_call
    (add_event (offer_event E contact (x25519_generate E (calls s)))
               (count_call s)).

(** A method whose events all belong to the class [P] and which does not
    assign [connected], whether it returns or raises. *)
Definition confined {Other A} (P : Event -> bool) (m : M Other A) : Prop :=
  forall s r s',
    m s = (r, s') ->
    connected s' = connected s /\
    exists t, events s' = events s ++ t /\ forallb P t = true.


(** ** A concrete relay, database and key source

    Explicit inputs on which the methods are run. *)

Module Fixture.

Fixpoint insert_desc (fk : FernetKey) (rows : list FernetKey) : list FernetKey :=
  match rows with
  | [] => [fk]
  | r :: rest =>
      if Z.leb (fk_timestamp r) (fk_timestamp fk) then fk :: r :: rest
      else r :: insert_desc fk rest
  end.

Definition sort_desc (rows : list FernetKey) : list FernetKey :=
  fold_right insert_desc [] rows.

Definition key_of_nat (n : nat) : bytes :=
  match Byte.of_nat (n mod 256) with
  | Some b => [b]
  | None => []
  end.

(** Modelled from the spec: the functions of [database.operations] and the
    order of the [Contact.fernet_keys] relationship, none of which is among
    the three files.  They follow the store interface the spec lists:
    the verification keys of the known contacts, the contacts with no
    session key, the exchange-key records whose [matched] flag is off, and
    session keys with the most recently derived first; the three [store_]
    functions leave the tables the handlers read as they are.  The relay and
    the key source are arguments or toy functions on short byte strings. *)
Definition env
    (ping : nat -> result unit)
    (fetch : nat -> list Ed25519PublicKey -> result FetchResponseSchema)
    (post_key : nat -> Ed25519PublicKey -> X25519PublicKey ->
                option X25519PublicKey -> result PostKeyResponseSchema)
    (post_msg : nat -> Ed25519PublicKey -> bytes ->
                result PostMessageResponseSchema)
  : Env unit :=
  {| ed25519_verify := fun _ _ _ => Ok tt;
     str_encode := fun s => Ok (list_byte_of_string s);
     x25519_generate := fun n => {| private_bytes_raw := key_of_nat n |};
     x25519_public_key := fun k => {| public_bytes_raw := private_bytes_raw k |};
     x25519_exchange := fun k p => Ok (private_bytes_raw k ++ public_bytes_raw p);
     fernet_encrypt := fun _ k data =>
       Ok (list_byte_of_string (fernet_key_bytes k) ++ data);
     client_get_ping := ping;
     fetch_data := fetch;
     post_exchange_key := post_key;
     post_message := post_msg;
     get_contact_keys := fun st => Ok (map verification_key (contacts st));
     get_contacts_without_keys := fun st =>
       Ok (filter
             (fun c => negb (existsb
                (fun fk => Z.eqb (fk_contact_id fk) (contact_id c))
                (fernet_keys st)))
             (contacts st));
     get_unmatched_keys := fun st =>
       Ok (filter (fun r => negb (matched r)) (received_exchange_keys st));
     store_fetched_data := fun st _ => Ok st;
     store_posted_exchange_key := fun st _ _ => Ok st;
     store_posted_message := fun st _ _ _ => Ok st;
     fernet_keys_order := sort_desc;
     validate_key_output_Fernet := fun s => Ok {| fernet_key_bytes := s |} |}.

Definition empty_response : FetchResponseSchema :=
  {| fetch_status := "ok"; fetch_message := "";
     fetch_data_ := {| exchange_keys := []; messages := [] |} |}.

Definition key_response (t : Timestamp) : PostKeyResponseSchema :=
  {| pk_status := "ok"; pk_message := ""; pk_timestamp := t |}.

Definition message_response : PostMessageResponseSchema :=
  {| pm_status := "ok"; pm_message := ""; pm_nonce := "00"; pm_timestamp := 7%Z |}.

Definition alice : Contact :=
  {| contact_id := 1%Z; contact_name := "alice";
     verification_key := {| ed_public_bytes_raw := [x01] |} |}.

Definition bob : Contact :=
  {| contact_id := 2%Z; contact_name := "bob";
     verification_key := {| ed_public_bytes_raw := [x02] |} |}.

Definition app (c : bool) (st : Store unit) (sel : option Contact)
    (input : string) : App unit :=
  {| connected := c; engine := st; output_log := [];
     selected_contact := sel; message_entry_input := input;
     events := []; calls := 0 |}.

Definition store (cs : list Contact) (rks : list ReceivedExchangeKey)
    (fks : list FernetKey) : Store unit :=
  {| contacts := cs; received_exchange_keys := rks; fernet_keys := fks;
     other_tables := tt |}.

Definition offer_from_alice : ReceivedExchangeKey :=
  {| rek_id := 10%Z; public_key := {| public_bytes_raw := [x0a] |};
     rek_contact := alice; matched := false |}.

Definition offer_from_bob : ReceivedExchangeKey :=
  {| rek_id := 11%Z; public_key := {| public_bytes_raw := [x0b] |};
     rek_contact := bob; matched := false |}.

Definition old_key_for_alice : FernetKey :=
  {| encoded_bytes := "b2xk"; fk_contact_id := 1%Z; fk_timestamp := 3%Z |}.

Definition new_key_for_alice : FernetKey :=
  {| encoded_bytes := "bmV3"; fk_contact_id := 1%Z; fk_timestamp := 9%Z |}.

Definition key_for_bob : FernetKey :=
  {| encoded_bytes := "Ym9i"; fk_contact_id := 2%Z; fk_timestamp := 12%Z |}.

(** A relay that is down: nothing answers in time. *)
Definition relay_down : Env unit :=
  env (fun _ => Raise (TimeoutException "ConnectTimeout"))
      (fun _ _ => Raise (TimeoutException "ReadTimeout"))
      (fun _ _ _ _ => Raise (TimeoutException "ReadTimeout"))
      (fun _ _ _ => Raise (TimeoutException "ReadTimeout")).

(** A relay that answers fetches and times out on every posted key. *)
Definition relay_slow_posts : Env unit :=
  env (fun _ => Ok tt)
      (fun _ _ => Ok empty_response)
      (fun _ _ _ _ => Raise (TimeoutException "ReadTimeout"))
      (fun _ _ _ => Raise (TimeoutException "ReadTimeout")).

(** A relay that accepts everything. *)
Definition relay_up : Env unit :=
  env (fun _ => Ok tt)
      (fun _ _ => Ok empty_response)
      (fun _ _ _ _ => Ok (key_response 5%Z))
      (fun _ _ _ => Ok message_response).

(** A relay that rejects every posted key with a 4xx status. *)
Definition relay_rejects_keys : Env unit :=
  env (fun _ => Ok tt)
      (fun _ _ => Ok empty_response)
      (fun _ _ _ _ => Raise (HTTPStatusError "403 Forbidden"))
      (fun _ _ _ => Ok message_response).

End Fixture.


(** ** Outcomes and traces, for the properties of the handlers *)

Definition is_ok {A} (r : result A) : bool :=
  match r with
  | Ok _ => true
  | Raise _ => false
  end.

Definition raises_timeout {A} (r : result A) : bool :=
  match r with
  | Ok _ => false
  | Raise e => is_timeout e
  end.

(** The recipients of the key offers (requests without [initial_key]) of a
    trace, in order. *)
Fixpoint offer_recipients (evs : list Event) : list Ed25519PublicKey :=
  match evs with
  | [] => []
  | EvPostExchangeKey recipient _ None :: rest =>
      recipient :: offer_recipients rest
  | _ :: rest => offer_recipients rest
  end.

(** The log item [_post_exchange_key] writes for an exception. *)
Definition exchange_key_post_error (e : exn) : LogItem :=
  match e with
  | TimeoutException _ =>
      {| title := "Exchange Key Post Error";
         text := "Exchange key post request timed out." |}
  | HTTPStatusError _ =>
      {| title := "Exchange Key Post Error - Bad Response"; text := exn_str e |}
  | OtherException _ =>
      {| title := "Exchange Key Post Error - Unhandled Exception";
         text := exn_str e |}
  end.

(** The log item [_post_message] writes for an exception. *)
Definition message_post_error (e : exn) : LogItem :=
  match e with
  | TimeoutException _ =>
      {| title := "Message Post Error - Request Timed Out";
         text := "Message post request timed out." |}
  | HTTPStatusError _ =>
      {| title := "Message Post Error - Bad Response"; text := exn_str e |}
  | OtherException _ =>
      {| title := "Message Post Error - Unhandled Exception";
         text := exn_str e |}
  end.

(** Whether every record of the table with this primary key has its flag
    on, and whether the table holds such a record. *)
Definition matched_in {Other} (id : Z) (st : Store Other) : Prop :=
  forall r, In r (received_exchange_keys st) -> rek_id r = id ->
            matched r = true.

Definition present_in {Other} (id : Z) (st : Store Other) : Prop :=
  exists r, In r (received_exchange_keys st) /\ rek_id r = id.

(** An environment with another key agreement and another relay answer to
    fetches. *)
Definition with_exchange {Other} (E : Env Other)
    (f : X25519PrivateKey -> X25519PublicKey -> result bytes) : Env Other :=
  {| ed25519_verify := ed25519_verify E;
     str_encode := str_encode E;
     x25519_generate := x25519_generate E;
     x25519_public_key := x25519_public_key E;
     x25519_exchange := f;
     fernet_encrypt := fernet_encrypt E;
     client_get_ping := client_get_ping E;
     fetch_data := fetch_data E;
     post_exchange_key := post_exchange_key E;
     post_message := post_message E;
     get_contact_keys := get_contact_keys E;
     get_contacts_without_keys := get_contacts_without_keys E;
     get_unmatched_keys := get_unmatched_keys E;
     store_fetched_data := store_fetched_data E;
     store_posted_exchange_key := store_posted_exchange_key E;
     store_posted_message := store_posted_message E;
     fernet_keys_order := fernet_keys_order E;
     validate_key_output_Fernet := validate_key_output_Fernet E |}.

Module Fixture2.

(** A relay that rejects fetches with an error status. *)
Definition relay_rejects_fetch : Env unit :=
  Fixture.env (fun _ => Ok tt)
      (fun _ _ => Raise (HTTPStatusError "500 Internal Server Error"))
      (fun _ _ _ _ => Ok (Fixture.key_response 5%Z))
      (fun _ _ _ => Ok Fixture.message_response).

(** A relay that rejects posted messages with an error status. *)
Definition relay_rejects_messages : Env unit :=
  Fixture.env (fun _ => Ok tt)
      (fun _ _ => Ok Fixture.empty_response)
      (fun _ _ _ _ => Ok (Fixture.key_response 5%Z))
      (fun _ _ _ => Raise (HTTPStatusError "422 Unprocessable Entity")).

(** A key agreement that refuses the all-zero public key, as the
    [cryptography] package does for points of low order. *)
Definition strict_exchange (k : X25519PrivateKey) (p : X25519PublicKey)
  : result bytes :=
  if forallb (fun b => Byte.eqb b x00) (public_bytes_raw p)
  then Raise (OtherException "ValueError")
  else Ok (private_bytes_raw k ++ public_bytes_raw p).

Definition relay_up_strict : Env unit :=
  with_exchange Fixture.relay_up strict_exchange.

Definition zero_offer_from_bob : ReceivedExchangeKey :=
  {| rek_id := 12%Z; public_key := {| public_bytes_raw := [x00] |};
     rek_contact := Fixture.bob; matched := false |}.

End Fixture2.

(** ** Posting a message: the state at the request *)

(** Everything [_post_message] needs before it calls the relay: a selected
    contact that is in the database with at least one usable session key,
    some typed text, a connected engine, and an encryption that worked. *)
Definition ready_to_post {Other} (E : Env Other) (s : App Other)
    (sel obj : Contact) (selected : ContactOutputSchema)
    (first : FernetKeyOutput) (rest : list FernetKeyOutput)
    (data ciphertext : bytes) : Prop :=
  selected_contact s = Some sel /\
  message_entry_input s <> "" /\
  connected s = true /\
  session_get_contact (engine s) (contact_id sel) = Some obj /\
  ContactOutputSchema_model_validate E (engine s) obj = Ok selected /\
  cos_fernet_keys selected = first :: rest /\
  str_encode E (message_entry_input s) = Ok data /\
  fernet_encrypt E (calls s) (key first) data = Ok ciphertext.

(** The state in which the relay's answer to the posted message arrives. *)
Definition message_posted {Other} (s : App Other)
    (selected : ContactOutputSchema) (first : FernetKeyOutput)
    (data ciphertext : bytes) : App Other :=
  count_call
    (add_event (EvPostMessage (cos_verification_key selected) ciphertext)
       (count_call (add_event (EvFernetEncrypt (key first) data) s))).

Module Fixture3.

Definition alice_ready : App unit :=
  Fixture.app true
    (Fixture.store [Fixture.alice; Fixture.bob] []
       [Fixture.old_key_for_alice; Fixture.new_key_for_alice])
    (Some Fixture.alice) "hi".

Definition alice_output : ContactOutputSchema :=
  {| cos_id := 1%Z; cos_name := "alice";
     cos_verification_key := verification_key Fixture.alice;
     cos_fernet_keys :=
       [{| key := {| fernet_key_bytes := "bmV3" |};
           fko_row := Fixture.new_key_for_alice |};
        {| key := {| fernet_key_bytes := "b2xk" |};
           fko_row := Fixture.old_key_for_alice |}] |}.

Definition newest_output : FernetKeyOutput :=
  {| key := {| fernet_key_bytes := "bmV3" |};
     fko_row := Fixture.new_key_for_alice |}.

Definition older_outputs : list FernetKeyOutput :=
  [{| key := {| fernet_key_bytes := "b2xk" |};
      fko_row := Fixture.old_key_for_alice |}].

(** An environment whose stored key material does not validate. *)
Definition broken_keys : Env unit :=
  {| ed25519_verify := ed25519_verify Fixture.relay_up;
     str_encode := str_encode Fixture.relay_up;
     x25519_generate := x25519_generate Fixture.relay_up;
     x25519_public_key := x25519_public_key Fixture.relay_up;
     x25519_exchange := x25519_exchange Fixture.relay_up;
     fernet_encrypt := fernet_encrypt Fixture.relay_up;
     client_get_ping := client_get_ping Fixture.relay_up;
     fetch_data := fetch_data Fixture.relay_up;
     post_exchange_key := post_exchange_key Fixture.relay_up;
     post_message := post_message Fixture.relay_up;
     get_contact_keys := get_contact_keys Fixture.relay_up;
     get_contacts_without_keys := get_contacts_without_keys Fixture.relay_up;
     get_unmatched_keys := get_unmatched_keys Fixture.relay_up;
     store_fetched_data := store_fetched_data Fixture.relay_up;
     store_posted_exchange_key := store_posted_exchange_key Fixture.relay_up;
     store_posted_message := store_posted_message Fixture.relay_up;
     fernet_keys_order := fernet_keys_order Fixture.relay_up;
     validate_key_output_Fernet := fun _ =>
       Raise (OtherException "ValidationError") |}.

End Fixture3.

(** ** The windows of the foreground loop ([App._loop_iteration]) *)

(** What the loop reads and assigns of a window: whether it can take the
    focus and whether it has to be drawn again. *)
Record Window : Type := {
  focusable : bool;
  draw_required : bool
}.

(** Python's list subscript: a negative index counts from the end, an index
    outside the list raises [IndexError]. *)
Definition resolve_index (n : nat) (i : Z) : option nat :=
  if (0 <=? i)%Z && (i <? Z.of_nat n)%Z then Some (Z.to_nat i)
  else if (- Z.of_nat n <=? i)%Z && (i <? 0)%Z
       then Some (Z.to_nat (i + Z.of_nat n))
       else None.

Definition py_index {A} (l : list A) (i : Z) : result A :=
  match resolve_index (List.length l) i with
  | Some k =>
      match nth_error l k with
      | Some a => Ok a
      | None => Raise (OtherException "IndexError")
      end
  | None => Raise (OtherException "IndexError")
  end.

Fixpoint update_nth {A} (f : A -> A) (l : list A) (k : nat) : list A :=
  match l, k with
  | [], _ => []
  | a :: rest, O => f a :: rest
  | a :: rest, S k' => a :: update_nth f rest k'
  end.

Definition flag_draw (w : Window) : Window :=
  {| focusable := focusable w; draw_required := true |}.

(** [self.windows[i].draw_required = True] *)
Definition require_draw (ws : list Window) (i : Z) : result (list Window) :=
  match resolve_index (List.length ws) i with
  | Some k => Ok (update_nth flag_draw ws k)
  | None => Raise (OtherException "IndexError")
  end.

(** The [for _ in range(len(self.windows))] loop of the [NEXT_WINDOW]
    case: step forward, wrap at the end, stop at the first window that can
    take the focus. *)
Fixpoint next_window_loop (passes : nat) (ws : list Window) (focus_index : Z)
  : result (list Window * Z) :=
  match passes with
  | O => Ok (ws, focus_index)
  | S passes' =>
      let i1 := (focus_index + 1)%Z in
      let i2 := if (Z.of_nat (List.length ws) <=? i1)%Z then 0%Z else i1 in
      rbind (py_index ws i2) (fun w =>
        if focusable w
        then rbind (require_draw ws i2) (fun ws' => Ok (ws', i2))
        else next_window_loop passes' ws i2)
  end.

(** The [NEXT_WINDOW] case of [App._loop_iteration]. *)
Definition next_window (ws : list Window) (focus_index : Z)
  : result (list Window * Z) :=
  rbind (require_draw ws focus_index) (fun ws1 =>
    next_window_loop (List.length ws1) ws1 focus_index).

(** The loop of the [PREV_WINDOW] case: step back, wrap at the start. *)
Fixpoint prev_window_loop (passes : nat) (ws : list Window) (focus_index : Z)
  : result (list Window * Z) :=
  match passes with
  | O => Ok (ws, focus_index)
  | S passes' =>
      let i1 := (focus_index - 1)%Z in
      let i2 := if (i1 <? 0)%Z then (Z.of_nat (List.length ws) - 1)%Z else i1 in
      rbind (py_index ws i2) (fun w =>
        if focusable w
        then rbind (require_draw ws i2) (fun ws' => Ok (ws', i2))
        else prev_window_loop passes' ws i2)
  end.

(** The [PREV_WINDOW] case of [App._loop_iteration]. *)
Definition prev_window (ws : list Window) (focus_index : Z)
  : result (list Window * Z) :=
  rbind (require_draw ws focus_index) (fun ws1 =>
    prev_window_loop (List.length ws1) ws1 focus_index).

(** The [for index, window in enumerate(self.windows)] loop at the head of
    [App._loop_iteration]: the calls [window.draw(index == focus_index)] it
    makes, as pairs of index and argument, and the windows afterwards. *)
Fixpoint draw_windows_from (index : Z) (ws : list Window) (focus_index : Z)
  : list (Z * bool) * list Window :=
  match ws with
  | [] => ([], [])
  | w :: rest =>
      let (drawn, rest') := draw_windows_from (index + 1) rest focus_index in
      if draw_required w
      then ((index, Z.eqb index focus_index) :: drawn,
            {| focusable := focusable w; draw_required := false |} :: rest')
      else (drawn, w :: rest')
  end.

Definition draw_windows (ws : list Window) (focus_index : Z)
  : list (Z * bool) * list Window :=
  draw_windows_from 0 ws focus_index.

(** Whether the window at an index can take the focus. *)
Definition focusable_at (ws : list Window) (i : Z) : bool :=
  match py_index ws i with
  | Ok w => focusable w
  | Raise _ => false
  end.

Definition draw_required_at (ws : list Window) (i : Z) : bool :=
  match py_index ws i with
  | Ok w => draw_required w
  | Raise _ => false
  end.

Module Screen.

(** A row of windows, three of which cannot take the focus. *)
Definition panel : Window := {| focusable := true; draw_required := false |}.
Definition label : Window := {| focusable := false; draw_required := false |}.

Definition windows : list Window := [panel; panel; label; panel; label; label].

End Screen.

(** ** Text forms of keys ([server/schemas/responses.py]) *)

(** [_FetchResponseElement.sender_key_b64]; the value is computed from the
    key alone, so the cache of [cached_property] does not show. *)
Definition sender_key_b64 (el : FetchResponseElement) : string :=
  Base64.urlsafe_b64encode (ed_public_bytes_raw (sender_key el)).

(** [FetchResponseExchangeKey.exchange_key_b64] *)
Definition exchange_key_b64 (k : FetchResponseExchangeKey) : string :=
  Base64.urlsafe_b64encode (public_bytes_raw (exchange_key k)).

(** [FetchResponseExchangeKey.initial_key_b64] *)
Definition initial_key_b64 (k : FetchResponseExchangeKey) : option string :=
  match initial_key k with
  | Some ik => Some (Base64.urlsafe_b64encode (public_bytes_raw ik))
  | None => None
  end.

(** The value of the [i]-th group of six bits of a 24-bit group. *)
Definition sextet_value (g : N) (i : N) : N :=
  N.land (N.shiftr g (18 - 6 * i)) 63.

(** The numbers below 64. *)
Definition sextet_values : list N := map N.of_nat (seq 0 64).

(** ** The pattern of a nonce ([server/schemas/responses.py], [_NonceMixin]) *)

(** Regular expressions, as far as the pattern needs them: sets of
    characters given by ranges, sequence, alternative and repetition. *)
Inductive regex : Type :=
| Nothing
| Epsilon
| CharSet (ranges : list (ascii * ascii))
| Seq (r1 r2 : regex)
| Alt (r1 r2 : regex)
| Star (r : regex).

Definition in_range (c : ascii) (range : ascii * ascii) : bool :=
  Nat.leb (nat_of_ascii (fst range)) (nat_of_ascii c) &&
  Nat.leb (nat_of_ascii c) (nat_of_ascii (snd range)).

Definition in_ranges (ranges : list (ascii * ascii)) (c : ascii) : bool :=
  existsb (in_range c) ranges.

(** [r{n}] *)
Fixpoint times (n : nat) (r : regex) : regex :=
  match n with
  | O => Epsilon
  | S n' => Seq r (times n' r)
  end.

(** [r+] *)
Definition plus (r : regex) : regex := Seq r (Star r).

Fixpoint nullable (r : regex) : bool :=
  match r with
  | Nothing => false
  | Epsilon => true
  | CharSet _ => false
  | Seq r1 r2 => nullable r1 && nullable r2
  | Alt r1 r2 => nullable r1 || nullable r2
  | Star _ => true
  end.

(** What is left of [r] after the character [c]. *)
Fixpoint derive (c : ascii) (r : regex) : regex :=
  match r with
  | Nothing => Nothing
  | Epsilon => Nothing
  | CharSet ranges => if in_ranges ranges c then Epsilon else Nothing
  | Seq r1 r2 =>
      if nullable r1
      then Alt (Seq (derive c r1) r2) (derive c r2)
      else Seq (derive c r1) r2
  | Alt r1 r2 => Alt (derive c r1) (derive c r2)
  | Star r1 => Seq (derive c r1) (Star r1)
  end.

(** Whether the whole text matches: the pattern is anchored at both ends
    with [^] and [$], and the default regex engine of pydantic makes no
    exception for a final newline. *)
Fixpoint fullmatch (r : regex) (s : string) : bool :=
  match s with
  | EmptyString => nullable r
  | String c rest => fullmatch (derive c r) rest
  end.

(** [[0-9a-fA-F]] *)
Definition hex_digit : regex :=
  CharSet [("0", "9"); ("a", "f"); ("A", "F")]%char.

(** [Field(pattern='^(?:[0-9a-fA-F]{2})+$')] *)
Definition nonce_pattern : regex := plus (times 2 hex_digit).

Definition nonce_accepted (s : string) : bool := fullmatch nonce_pattern s.

(** The texts a regular expression stands for. *)
Inductive lang : regex -> string -> Prop :=
| lang_epsilon : lang Epsilon EmptyString
| lang_charset ranges c :
    in_ranges ranges c = true -> lang (CharSet ranges) (String c EmptyString)
| lang_seq r1 r2 s1 s2 :
    lang r1 s1 -> lang r2 s2 -> lang (Seq r1 r2) (s1 ++ s2)
| lang_alt_l r1 r2 s : lang r1 s -> lang (Alt r1 r2) s
| lang_alt_r r1 r2 s : lang r2 s -> lang (Alt r1 r2) s
| lang_star_nil r : lang (Star r) EmptyString
| lang_star_cons r s1 s2 :
    lang r s1 -> lang (Star r) s2 -> lang (Star r) (s1 ++ s2).

(** The twenty-two hexadecimal digits. *)
Definition hex_char (c : ascii) : bool :=
  existsb (Ascii.eqb c) (list_ascii_of_string "0123456789abcdefABCDEF").

(** Whether a text is made of pairs of hexadecimal digits. *)
Fixpoint hex_pairs (s : string) : bool :=
  match s with
  | EmptyString => true
  | String c1 (String c2 rest) => hex_char c1 && hex_char c2 && hex_pairs rest
  | String _ EmptyString => false
  end.

(** ** Text-encoded keys and signatures of the wire elements *)

Module Wire.

(** A field of a parsed JSON object, as it reaches the validators. *)
Inductive json : Type :=
| JString (t : pytext)
| JNumber (z : Z)
| JNull.

Definition pad_code : N := N_of_ascii Base64.pad.

(** The six-bit value a character of the alphabet stands for. *)
Definition decode_digit (c : N) : option N :=
  find (fun v => N.eqb (N_of_ascii (Base64.digit v)) c) sextet_values.

Definition is_nil {A} (l : list A) : bool :=
  match l with
  | [] => true
  | _ :: _ => false
  end.

(** Modelled from the spec: the decoding of a text-encoded binary field,
    which [schema_components/validators.py] (not among the files) performs.
    The spec fixes the encoding as URL-safe base64 with no padding
    ambiguity: the text is read in groups of four characters of the
    alphabet of [Base64.urlsafe_b64encode], each group giving three bytes;
    the last group alone may end in one or two padding characters and then
    gives two bytes or one.  Any other text does not decode. *)
Fixpoint urlsafe_b64decode (t : pytext) : option bytes :=
  match t with
  | [] => Some []
  | c0 :: c1 :: c2 :: c3 :: rest =>
      match decode_digit c0, decode_digit c1 with
      | Some v0, Some v1 =>
          if N.eqb c2 pad_code then
            if N.eqb c3 pad_code && is_nil rest then
              match Byte.of_N (v0 * 4 + v1 / 16) with
              | Some b0 => Some [b0]
              | None => None
              end
            else None
          else
            match decode_digit c2 with
            | Some v2 =>
                if N.eqb c3 pad_code then
                  if is_nil rest then
                    match Byte.of_N (v0 * 4 + v1 / 16),
                          Byte.of_N ((v1 mod 16) * 16 + v2 / 4) with
                    | Some b0, Some b1 => Some [b0; b1]
                    | _, _ => None
                    end
                  else None
                else
                  match decode_digit c3 with
                  | Some v3 =>
                      match Byte.of_N (v0 * 4 + v1 / 16),
                            Byte.of_N ((v1 mod 16) * 16 + v2 / 4),
                            Byte.of_N ((v2 mod 4) * 64 + v3),
                            urlsafe_b64decode rest with
                      | Some b0, Some b1, Some b2, Some bs =>
                          Some (b0 :: b1 :: b2 :: bs)
                      | _, _, _, _ => None
                      end
                  | None => None
                  end
            | None => None
            end
      | _, _ => None
      end
  | _ => None
  end.

(** The two kinds of text-encoded binary field of a wire element. *)
Inductive field_kind : Type :=
| KeyField
| SignatureField.

(** The size of the raw value and of its text. *)
Definition raw_length (k : field_kind) : nat :=
  match k with
  | KeyField => 32
  | SignatureField => 64
  end.

Definition text_length (k : field_kind) : nat :=
  match k with
  | KeyField => 44
  | SignatureField => 88
  end.

(** Whether a JSON value is the text of the raw value [bs] of a field of
    kind [k]: text of the length of the kind that decodes to [bs], itself
    of the length of the kind. *)
Definition text_of_raw (k : field_kind) (v : json) (bs : bytes) : Prop :=
  exists t, v = JString t /\
            List.length t = text_length k /\
            urlsafe_b64decode t = Some bs /\
            List.length bs = raw_length k.

(** Modelled from the spec: [validate_key_output] and
    [validate_signature_output] of [schema_components/validators.py], which
    is not among the files, on a value that comes from the wire.  By the
    spec the decoding of an element fails when a key field is not exactly
    32 raw bytes once decoded from its text encoding, or a signature field
    not exactly 64; otherwise the raw bytes are the value of the field. *)
Definition validate_output (k : field_kind) (v : json) : result bytes :=
  match v with
  | JString t =>
      match urlsafe_b64decode t with
      | Some bs =>
          if Nat.eqb (List.length bs) (raw_length k) then Ok bs
          else Raise (OtherException "MalformedElement")
      | None => Raise (OtherException "MalformedElement")
      end
  | _ => Raise (OtherException "MalformedElement")
  end.

(** [VerificationKey], [PublicExchangeKey] and [RawSignature] of
    [schema_components/types.py]: the [BeforeValidator] makes the value of
    the annotated type. *)
Definition VerificationKey (v : json) : result Ed25519PublicKey :=
  rbind (validate_output KeyField v) (fun bs =>
  Ok {| ed_public_bytes_raw := bs |}).

Definition PublicExchangeKey (v : json) : result X25519PublicKey :=
  rbind (validate_output KeyField v) (fun bs =>
  Ok {| public_bytes_raw := bs |}).

Definition RawSignature (v : json) : result bytes :=
  validate_output SignatureField v.

(** [PublicExchangeKey | None]: an absent field and a JSON null are
    [None]. *)
Definition optional_PublicExchangeKey (v : option json)
  : result (option X25519PublicKey) :=
  match v with
  | None => Ok None
  | Some JNull => Ok None
  | Some w => rbind (PublicExchangeKey w) (fun k => Ok (Some k))
  end.

(** The elements of a fetch response as the relay sends them: the
    text-encoded fields are JSON values still to be validated; the time
    stamp, the nonce and the encrypted text are taken as validated. *)
Record RawExchangeKey : Type := {
  raw_ek_timestamp : Timestamp;
  raw_ek_sender_key : json;
  raw_ek_signature : json;
  raw_exchange_key : json;
  raw_initial_key : option json
}.

Record RawMessage : Type := {
  raw_msg_timestamp : Timestamp;
  raw_msg_sender_key : json;
  raw_msg_signature : json;
  raw_nonce : string;
  raw_encrypted_text : string
}.

(** The validation of [FetchResponseExchangeKey] and of
    [FetchResponseMessage] ([server/schemas/responses.py]): every field
    goes through the validator of its type, and one field that is not
    accepted rejects the element. *)
Definition decode_exchange_key (raw : RawExchangeKey)
  : result FetchResponseExchangeKey :=
  rbind (VerificationKey (raw_ek_sender_key raw)) (fun sk =>
  rbind (RawSignature (raw_ek_signature raw)) (fun sg =>
  rbind (PublicExchangeKey (raw_exchange_key raw)) (fun xk =>
  rbind (optional_PublicExchangeKey (raw_initial_key raw)) (fun ik =>
  Ok {| ek_timestamp := raw_ek_timestamp raw;
        ek_sender_key := sk;
        ek_signature := sg;
        exchange_key := xk;
        initial_key := ik |})))).

Definition decode_message (raw : RawMessage) : result FetchResponseMessage :=
  rbind (VerificationKey (raw_msg_sender_key raw)) (fun sk =>
  rbind (RawSignature (raw_msg_signature raw)) (fun sg =>
  Ok {| msg_timestamp := raw_msg_timestamp raw;
        msg_sender_key := sk;
        msg_signature := sg;
        nonce := raw_nonce raw;
        encrypted_text := raw_encrypted_text raw |})).

(** The text-encoded fields of an element, each with its kind. *)
Definition exchange_key_fields (raw : RawExchangeKey)
  : list (field_kind * json) :=
  (KeyField, raw_ek_sender_key raw) ::
  (SignatureField, raw_ek_signature raw) ::
  (KeyField, raw_exchange_key raw) ::
  match raw_initial_key raw with
  | Some v => [(KeyField, v)]
  | None => []
  end.

Definition message_fields (raw : RawMessage) : list (field_kind * json) :=
  [(KeyField, raw_msg_sender_key raw);
   (SignatureField, raw_msg_signature raw)].

(** The text of a raw value, as a JSON field. *)
Definition encoded (bs : bytes) : json :=
  JString (text_of_string (Base64.urlsafe_b64encode bs)).

End Wire.

(** * Properties *)

(** ** Base64 *)

Lemma urlsafe_b64encode_length_aux (n : nat) :
  forall bs : bytes, (List.length bs <= n)%nat ->
    String.length (Base64.urlsafe_b64encode bs) = (4 * ((List.length bs + 2) / 3))%nat.
Proof.
  induction n as [|n IH]; intros bs Hle.
  - destruct bs; [reflexivity | simpl in Hle; lia].
  - destruct bs as [|a [|b [|c rest]]]; try reflexivity.
    cbn [Base64.urlsafe_b64encode String.length].
    rewrite IH by (simpl in Hle |- *; lia).
    cbn [List.length].
    replace (S (S (S (List.length rest))) + 2)%nat
      with ((List.length rest + 2) + 1 * 3)%nat by lia.
    rewrite Nat.div_add by lia. lia.
Qed.

Lemma urlsafe_b64encode_length (bs : bytes) :
  String.length (Base64.urlsafe_b64encode bs) = (4 * ((List.length bs + 2) / 3))%nat.
Proof. apply (urlsafe_b64encode_length_aux (n := List.length bs)); lia. Qed.

Example b64_Man : Base64.urlsafe_b64encode [x4d; x61; x6e] = "TWFu".
Proof. reflexivity. Qed.

Example b64_Ma : Base64.urlsafe_b64encode [x4d; x61] = "TWE=".
Proof. reflexivity. Qed.

Example b64_urlsafe : Base64.urlsafe_b64encode [xfb; xff] = "-_8=".
Proof. reflexivity. Qed.

(** ** Text fields *)

Lemma check_str_Ok (f : Types.StrField) (s t : pytext) :
  Types.check_str f s = Ok t <->
  t = s /\ (Types.min_length f <= List.length s <= Types.max_length f)%nat.
Proof.
  unfold Types.check_str.
  destruct (Nat.ltb (List.length s) (Types.min_length f)) eqn:Hmin;
    [apply Nat.ltb_lt in Hmin | apply Nat.ltb_ge in Hmin].
  - split; [discriminate | intros [_ H]; lia].
  - destruct (Nat.ltb (Types.max_length f) (List.length s)) eqn:Hmax;
      [apply Nat.ltb_lt in Hmax | apply Nat.ltb_ge in Hmax].
    + split; [discriminate | intros [_ H]; lia].
    + split.
      * intros H; injection H as <-. split; [reflexivity | lia].
      * intros [-> _]. reflexivity.
Qed.

Lemma annotated_str_Ok (pyvalue : Type) (str_schema : pyvalue -> result pytext)
    (f : Types.StrField) (before : pyvalue -> result pyvalue) (v : pyvalue) (s : pytext) :
  Types.annotated_str str_schema f before v = Ok s <->
  exists v', before v = Ok v' /\ str_schema v' = Ok s /\
             (Types.min_length f <= List.length s <= Types.max_length f)%nat.
Proof.
  unfold Types.annotated_str, rbind. split.
  - destruct (before v) as [v'|e]; [|discriminate].
    destruct (str_schema v') as [t|e] eqn:Hs; [|discriminate].
    intros H. apply check_str_Ok in H as [-> Hlen].
    exists v'. repeat split; try assumption; lia.
  - intros (v' & -> & -> & Hlen).
    apply check_str_Ok. split; [reflexivity | assumption].
Qed.

Lemma text_of_string_length (s : string) :
  List.length (text_of_string s) = String.length s.
Proof.
  unfold text_of_string. rewrite length_map.
  induction s as [|c s IH]; cbn; [reflexivity | now rewrite IH].
Qed.

Lemma urlsafe_b64encode_32 (bs : bytes) :
  List.length bs = 32%nat ->
  String.length (Base64.urlsafe_b64encode bs) = 44%nat.
Proof. intros H. rewrite urlsafe_b64encode_length, H. reflexivity. Qed.

Lemma urlsafe_b64encode_64 (bs : bytes) :
  List.length bs = 64%nat ->
  String.length (Base64.urlsafe_b64encode bs) = 88%nat.
Proof. intros H. rewrite urlsafe_b64encode_length, H. reflexivity. Qed.

Example b64decode_Man :
  Wire.urlsafe_b64decode (text_of_string "TWFu") = Some [x4d; x61; x6e].
Proof. reflexivity. Qed.

Example b64decode_Ma :
  Wire.urlsafe_b64decode (text_of_string "TWE=") = Some [x4d; x61].
Proof. reflexivity. Qed.

Example b64decode_urlsafe :
  Wire.urlsafe_b64decode (text_of_string "-_8=") = Some [xfb; xff].
Proof. reflexivity. Qed.

Example b64decode_stray_character :
  Wire.urlsafe_b64decode (text_of_string "TW Fu") = None.
Proof. reflexivity. Qed.

(** Text that decodes has four characters for every three bytes, rounded
    up. *)
Lemma urlsafe_b64decode_length_aux (n : nat) :
  forall (t : pytext) (bs : bytes),
    (List.length t <= n)%nat ->
    Wire.urlsafe_b64decode t = Some bs ->
    List.length t = (4 * ((List.length bs + 2) / 3))%nat.
Proof.
  induction n as [|n IH]; intros t bs Hle Hdec.
  - destruct t; [|simpl in Hle; lia].
    cbn in Hdec. injection Hdec as <-. reflexivity.
  - destruct t as [|c0 [|c1 [|c2 [|c3 rest]]]];
      try (cbn in Hdec; discriminate).
    + cbn in Hdec. injection Hdec as <-. reflexivity.
    + cbn [Wire.urlsafe_b64decode] in Hdec.
      destruct (Wire.decode_digit c0) as [v0|]; [|discriminate].
      destruct (Wire.decode_digit c1) as [v1|]; [|discriminate].
      destruct (N.eqb c2 Wire.pad_code).
      * destruct (N.eqb c3 Wire.pad_code); [|discriminate].
        destruct rest; [|discriminate]. cbn [andb Wire.is_nil] in Hdec.
        destruct (Byte.of_N (v0 * 4 + v1 / 16)); [|discriminate].
        injection Hdec as <-. reflexivity.
      * destruct (Wire.decode_digit c2) as [v2|]; [|discriminate].
        destruct (N.eqb c3 Wire.pad_code).
        -- destruct rest; [|discriminate]. cbn [Wire.is_nil] in Hdec.
           destruct (Byte.of_N (v0 * 4 + v1 / 16)); [|discriminate].
           destruct (Byte.of_N (v1 mod 16 * 16 + v2 / 4)); [|discriminate].
           injection Hdec as <-. reflexivity.
        -- destruct (Wire.decode_digit c3) as [v3|]; [|discriminate].
           destruct (Byte.of_N (v0 * 4 + v1 / 16)); [|discriminate].
           destruct (Byte.of_N (v1 mod 16 * 16 + v2 / 4)); [|discriminate].
           destruct (Byte.of_N (v2 mod 4 * 64 + v3)); [|discriminate].
           destruct (Wire.urlsafe_b64decode rest) as [bs'|] eqn:Hrest;
             [|discriminate].
           injection Hdec as <-.
           cbn [List.length] in Hle |- *.
           rewrite (IH rest bs') by (try lia; exact Hrest).
           replace (S (S (S (List.length bs'))) + 2)%nat
             with ((List.length bs' + 2) + 1 * 3)%nat by lia.
           rewrite Nat.div_add by lia. lia.
Qed.

Lemma urlsafe_b64decode_length (t : pytext) (bs : bytes) :
  Wire.urlsafe_b64decode t = Some bs ->
  List.length t = (4 * ((List.length bs + 2) / 3))%nat.
Proof. apply (@urlsafe_b64decode_length_aux (List.length t)); lia. Qed.

(** *** Decoding what the encoder wrote *)

Section RoundTrip.

Local Open Scope N_scope.

Lemma sextet_value_div (g i : N) :
  sextet_value g i = (g / 2 ^ (18 - 6 * i)) mod 64.
Proof.
  unfold sextet_value. rewrite N.shiftr_div_pow2.
  change 63 with (N.ones 6). now rewrite N.land_ones.
Qed.

Lemma sextet_value_bound (g i : N) : sextet_value g i < 64.
Proof. rewrite sextet_value_div. apply N.mod_lt. discriminate. Qed.

Lemma sextet_values_complete (v : N) : v < 64 -> In v sextet_values.
Proof.
  intros Hv. unfold sextet_values. apply in_map_iff.
  exists (N.to_nat v). split; [apply N2Nat.id|].
  apply in_seq. lia.
Qed.

Lemma sextet_is_digit (g i : N) :
  Base64.sextet g i = Base64.digit (sextet_value g i).
Proof. reflexivity. Qed.

Lemma text_of_string_cons (c : ascii) (s : string) :
  text_of_string (String c s) = N_of_ascii c :: text_of_string s.
Proof. reflexivity. Qed.

Lemma decode_digit_digit (v : N) :
  v < 64 -> Wire.decode_digit (N_of_ascii (Base64.digit v)) = Some v.
Proof.
  intros Hv.
  assert (Hall :
            forallb (fun x =>
              match Wire.decode_digit (N_of_ascii (Base64.digit x)) with
              | Some y => N.eqb x y
              | None => false
              end) sextet_values = true) by (vm_compute; reflexivity).
  rewrite forallb_forall in Hall.
  specialize (Hall v (sextet_values_complete Hv)).
  destruct (Wire.decode_digit (N_of_ascii (Base64.digit v))) as [y|];
    [|discriminate].
  apply N.eqb_eq in Hall. now subst y.
Qed.

Lemma digit_code_not_pad (v : N) :
  v < 64 -> N.eqb (N_of_ascii (Base64.digit v)) Wire.pad_code = false.
Proof.
  intros Hv.
  assert (Hall :
            forallb (fun x =>
              negb (N.eqb (N_of_ascii (Base64.digit x)) Wire.pad_code))
              sextet_values = true) by (vm_compute; reflexivity).
  rewrite forallb_forall in Hall.
  specialize (Hall v (sextet_values_complete Hv)).
  now apply negb_true_iff in Hall.
Qed.

Lemma lor_shiftl_add (x y k : N) :
  y < 2 ^ k -> N.lor (N.shiftl x k) y = x * 2 ^ k + y.
Proof.
  intros Hy.
  assert (Hland : N.land (N.shiftl x k) y = 0).
  { apply N.bits_inj. intros n. rewrite N.land_spec, N.bits_0.
    destruct (N.lt_ge_cases n k) as [Hlt|Hge].
    - now rewrite N.shiftl_spec_low.
    - rewrite <- (N.mod_small y (2 ^ k)) by exact Hy.
      rewrite N.mod_pow2_bits_high by exact Hge. apply andb_false_r. }
  rewrite <- N.lxor_lor by exact Hland.
  rewrite <- N.add_nocarry_lxor by exact Hland.
  now rewrite N.shiftl_mul_pow2.
Qed.

Lemma group_sum (a b c : byte) :
  Base64.group a b c =
  Byte.to_N a * 65536 + Byte.to_N b * 256 + Byte.to_N c.
Proof.
  pose proof (Byte.to_N_bounded a) as Ha.
  pose proof (Byte.to_N_bounded b) as Hb.
  pose proof (Byte.to_N_bounded c) as Hc.
  unfold Base64.group.
  rewrite (@lor_shiftl_add (Byte.to_N b) (Byte.to_N c) 8)
    by (change (2 ^ 8) with 256; lia).
  rewrite lor_shiftl_add
    by (change (2 ^ 8) with 256; change (2 ^ 16) with 65536; lia).
  change (2 ^ 8) with 256. change (2 ^ 16) with 65536. lia.
Qed.

Lemma sextets_of_sum (a b c : N) :
  a < 256 -> b < 256 -> c < 256 ->
  let g := a * 65536 + b * 256 + c in
  (g / 2 ^ 18) mod 64 = a / 4 /\
  (g / 2 ^ 12) mod 64 = (a mod 4) * 16 + b / 16 /\
  (g / 2 ^ 6) mod 64 = (b mod 16) * 4 + c / 64 /\
  (g / 2 ^ 0) mod 64 = c mod 64.
Proof.
  intros Ha Hb Hc g. subst g.
  pose proof (N.div_mod a 4 ltac:(discriminate)) as Ea.
  pose proof (N.mod_lt a 4 ltac:(discriminate)) as La.
  pose proof (N.div_mod b 16 ltac:(discriminate)) as Eb.
  pose proof (N.mod_lt b 16 ltac:(discriminate)) as Lb.
  pose proof (N.div_mod c 64 ltac:(discriminate)) as Ec.
  pose proof (N.mod_lt c 64 ltac:(discriminate)) as Lc.
  generalize dependent (a / 4). generalize dependent (a mod 4).
  generalize dependent (b / 16). generalize dependent (b mod 16).
  generalize dependent (c / 64). generalize dependent (c mod 64).
  intros rc Lc qc Ec rb Lb qb Eb ra La qa Ea.
  change (2 ^ 18) with 262144. change (2 ^ 12) with 4096.
  change (2 ^ 6) with 64. change (2 ^ 0) with 1.
  repeat split.
  - rewrite <- (N.div_unique (a * 65536 + b * 256 + c) 262144 qa
                  (ra * 65536 + b * 256 + c)) by lia.
    apply N.mod_small. lia.
  - rewrite <- (N.div_unique (a * 65536 + b * 256 + c) 4096 (a * 16 + qb)
                  (rb * 256 + c)) by lia.
    symmetry. apply (N.mod_unique _ 64 qa); lia.
  - rewrite <- (N.div_unique (a * 65536 + b * 256 + c) 64
                  (a * 1024 + b * 4 + qc) rc) by lia.
    symmetry. apply (N.mod_unique _ 64 (a * 16 + qb)); lia.
  - rewrite N.div_1_r.
    symmetry. apply (N.mod_unique _ 64 (a * 1024 + b * 4 + qc)); lia.
Qed.

(** The three bytes of a group, put together again from its four
    sextets. *)
Lemma bytes_of_sextets (a b c : byte) :
  let g := Base64.group a b c in
  Byte.of_N (sextet_value g 0 * 4 + sextet_value g 1 / 16) = Some a /\
  Byte.of_N (sextet_value g 1 mod 16 * 16 + sextet_value g 2 / 4) = Some b /\
  Byte.of_N (sextet_value g 2 mod 4 * 64 + sextet_value g 3) = Some c.
Proof.
  intros g. subst g.
  pose proof (Byte.to_N_bounded a) as Ha.
  pose proof (Byte.to_N_bounded b) as Hb.
  pose proof (Byte.to_N_bounded c) as Hc.
  rewrite !sextet_value_div, group_sum.
  change (18 - 6 * 0) with 18. change (18 - 6 * 1) with 12.
  change (18 - 6 * 2) with 6. change (18 - 6 * 3) with 0.
  destruct (@sextets_of_sum (Byte.to_N a) (Byte.to_N b) (Byte.to_N c))
    as (-> & -> & -> & ->); try lia.
  rewrite <- (Byte.of_to_N a).
  rewrite <- (Byte.of_to_N b).
  rewrite <- (Byte.of_to_N c).
  pose proof (N.div_mod (Byte.to_N a) 4 ltac:(discriminate)) as Ea.
  pose proof (N.mod_lt (Byte.to_N a) 4 ltac:(discriminate)) as La.
  pose proof (N.div_mod (Byte.to_N b) 16 ltac:(discriminate)) as Eb.
  pose proof (N.mod_lt (Byte.to_N b) 16 ltac:(discriminate)) as Lb.
  pose proof (N.div_mod (Byte.to_N c) 64 ltac:(discriminate)) as Ec.
  pose proof (N.mod_lt (Byte.to_N c) 64 ltac:(discriminate)) as Lc.
  generalize dependent (Byte.to_N a / 4).
  generalize dependent (Byte.to_N a mod 4).
  generalize dependent (Byte.to_N b / 16).
  generalize dependent (Byte.to_N b mod 16).
  generalize dependent (Byte.to_N c / 64).
  generalize dependent (Byte.to_N c mod 64).
  intros rc Lc qc Ec rb Lb qb Eb ra La qa Ea.
  assert (H1 : (ra * 16 + qb) / 16 = ra)
    by (symmetry; apply (N.div_unique _ 16 ra qb); lia).
  assert (H2 : (ra * 16 + qb) mod 16 = qb)
    by (symmetry; apply (N.mod_unique _ 16 ra); lia).
  assert (H3 : (rb * 4 + qc) / 4 = rb)
    by (symmetry; apply (N.div_unique _ 4 rb qc); lia).
  assert (H4 : (rb * 4 + qc) mod 4 = qc)
    by (symmetry; apply (N.mod_unique _ 4 rb); lia).
  rewrite H1, H2, H3, H4.
  repeat split; f_equal; lia.
Qed.

Lemma urlsafe_b64decode_encode_aux (n : nat) :
  forall bs : bytes, (List.length bs <= n)%nat ->
    Wire.urlsafe_b64decode (text_of_string (Base64.urlsafe_b64encode bs))
    = Some bs.
Proof.
  induction n as [|n IH]; intros bs Hle.
  - destruct bs; [reflexivity | simpl in Hle; lia].
  - destruct bs as [|a [|b [|c rest]]]; [reflexivity| | |].
    + cbn [Base64.urlsafe_b64encode]. cbv zeta.
      rewrite !text_of_string_cons, !sextet_is_digit.
      cbn [Wire.urlsafe_b64decode].
      rewrite !decode_digit_digit by apply sextet_value_bound.
      change (N_of_ascii Base64.pad) with Wire.pad_code.
      rewrite N.eqb_refl. cbn [andb Wire.is_nil text_of_string].
      change (text_of_string EmptyString) with (@nil N).
      cbn [Wire.is_nil].
      destruct (bytes_of_sextets a x00 x00) as (-> & _ & _). reflexivity.
    + cbn [Base64.urlsafe_b64encode]. cbv zeta.
      rewrite !text_of_string_cons, !sextet_is_digit.
      cbn [Wire.urlsafe_b64decode].
      rewrite !decode_digit_digit by apply sextet_value_bound.
      rewrite digit_code_not_pad by apply sextet_value_bound.
      change (N_of_ascii Base64.pad) with Wire.pad_code.
      rewrite N.eqb_refl.
      change (text_of_string EmptyString) with (@nil N).
      cbn [Wire.is_nil].
      destruct (bytes_of_sextets a b x00) as (-> & -> & _). reflexivity.
    + cbn [Base64.urlsafe_b64encode]. cbv zeta.
      rewrite !text_of_string_cons, !sextet_is_digit.
      cbn [Wire.urlsafe_b64decode].
      rewrite !decode_digit_digit by apply sextet_value_bound.
      rewrite !digit_code_not_pad by apply sextet_value_bound.
      destruct (bytes_of_sextets a b c) as (-> & -> & ->).
      rewrite IH by (simpl in Hle; lia). reflexivity.
Qed.

Lemma urlsafe_b64decode_encode (bs : bytes) :
  Wire.urlsafe_b64decode (text_of_string (Base64.urlsafe_b64encode bs))
  = Some bs.
Proof. apply (@urlsafe_b64decode_encode_aux (List.length bs)); lia. Qed.

Lemma validate_output_encoded (k : Wire.field_kind) (bs : bytes) :
  List.length bs = Wire.raw_length k ->
  Wire.validate_output k (Wire.encoded bs) = Ok bs.
Proof.
  intros Hlen. unfold Wire.validate_output, Wire.encoded.
  rewrite urlsafe_b64decode_encode, Hlen, Nat.eqb_refl. reflexivity.
Qed.

End RoundTrip.

Lemma raw_text_length (k : Wire.field_kind) (t : pytext) (bs : bytes) :
  Wire.urlsafe_b64decode t = Some bs ->
  List.length bs = Wire.raw_length k ->
  List.length t = Wire.text_length k.
Proof.
  intros Hdec Hbs. apply urlsafe_b64decode_length in Hdec.
  rewrite Hdec, Hbs. now destruct k.
Qed.

Lemma validate_output_Ok (k : Wire.field_kind) (v : Wire.json) (bs : bytes) :
  Wire.validate_output k v = Ok bs -> Wire.text_of_raw k v bs.
Proof.
  unfold Wire.validate_output, Wire.text_of_raw.
  destruct v as [t|z|]; try discriminate.
  destruct (Wire.urlsafe_b64decode t) as [bs'|] eqn:Hdec; [|discriminate].
  destruct (Nat.eqb (List.length bs') (Wire.raw_length k)) eqn:Hlen;
    [|discriminate].
  apply Nat.eqb_eq in Hlen.
  intros H; injection H as <-.
  exists t. repeat split; try assumption.
  exact (raw_text_length k t Hdec Hlen).
Qed.

Lemma validate_output_rejects (k : Wire.field_kind) (t : pytext) :
  List.length t <> Wire.text_length k ->
  exists e, Wire.validate_output k (Wire.JString t) = Raise e.
Proof.
  intros Hlen.
  destruct (Wire.validate_output k (Wire.JString t)) as [bs|e] eqn:Hv;
    [|now exists e].
  apply validate_output_Ok in Hv as (t' & Heq & Hl & _).
  injection Heq as ->. contradiction.
Qed.

Lemma VerificationKey_Ok (v : Wire.json) (key : Ed25519PublicKey) :
  Wire.VerificationKey v = Ok key ->
  Wire.text_of_raw Wire.KeyField v (ed_public_bytes_raw key).
Proof.
  unfold Wire.VerificationKey, rbind.
  destruct (Wire.validate_output Wire.KeyField v) as [bs|e] eqn:Hv;
    [|discriminate].
  intros H; injection H as <-. now apply validate_output_Ok.
Qed.

Lemma PublicExchangeKey_Ok (v : Wire.json) (key : X25519PublicKey) :
  Wire.PublicExchangeKey v = Ok key ->
  Wire.text_of_raw Wire.KeyField v (public_bytes_raw key).
Proof.
  unfold Wire.PublicExchangeKey, rbind.
  destruct (Wire.validate_output Wire.KeyField v) as [bs|e] eqn:Hv;
    [|discriminate].
  intros H; injection H as <-. now apply validate_output_Ok.
Qed.

Lemma optional_PublicExchangeKey_Ok (v : option Wire.json)
    (key : option X25519PublicKey) :
  Wire.optional_PublicExchangeKey v = Ok key ->
  match key with
  | Some ik =>
      exists w, v = Some w /\
                Wire.text_of_raw Wire.KeyField w (public_bytes_raw ik)
  | None => v = None \/ v = Some Wire.JNull
  end.
Proof.
  unfold Wire.optional_PublicExchangeKey.
  destruct v as [[t|z|]|].
  - unfold rbind.
    destruct (Wire.PublicExchangeKey (Wire.JString t)) as [k|e] eqn:Hk;
      [|discriminate].
    intros H; injection H as <-.
    exists (Wire.JString t). split; [reflexivity|].
    now apply PublicExchangeKey_Ok.
  - unfold rbind.
    destruct (Wire.PublicExchangeKey (Wire.JNumber z)) as [k|e] eqn:Hk;
      [|discriminate].
    cbn in Hk. discriminate.
  - intros H; injection H as <-. now right.
  - intros H; injection H as <-. now left.
Qed.

Lemma key_type_rejects (t : pytext) :
  List.length t <> 44%nat ->
  (exists e, Wire.VerificationKey (Wire.JString t) = Raise e) /\
  (exists e, Wire.PublicExchangeKey (Wire.JString t) = Raise e).
Proof.
  intros Hlen.
  destruct (@validate_output_rejects Wire.KeyField t Hlen) as [e He].
  unfold Wire.VerificationKey, Wire.PublicExchangeKey. rewrite He.
  split; now exists e.
Qed.

(** C9.  A text-encoded key field of a wire element is accepted only when
    it is text of exactly 44 characters that decodes to 32 bytes, and a
    signature field only when it is text of exactly 88 characters that
    decodes to 64 bytes; the value of an accepted field is what the text
    decodes to, and an element one of whose key or signature texts has
    another length is rejected.  This holds of the two fetched elements;
    a field annotated [Base64Key] or [Base64Signature] is accepted only
    with text of 44 or of 88 characters whatever the validator before the
    length check does, and these are the lengths of the texts of 32 and of
    64 bytes.  The text
    [urlsafe_b64encode] gives for a value of the right size is accepted,
    with that value. *)
Theorem base64_fields_exact_length :
  (forall raw el,
      Wire.decode_exchange_key raw = Ok el ->
      Wire.text_of_raw Wire.KeyField (Wire.raw_ek_sender_key raw)
        (ed_public_bytes_raw (ek_sender_key el)) /\
      Wire.text_of_raw Wire.SignatureField (Wire.raw_ek_signature raw)
        (ek_signature el) /\
      Wire.text_of_raw Wire.KeyField (Wire.raw_exchange_key raw)
        (public_bytes_raw (exchange_key el)) /\
      match initial_key el with
      | Some ik =>
          exists w, Wire.raw_initial_key raw = Some w /\
                    Wire.text_of_raw Wire.KeyField w (public_bytes_raw ik)
      | None =>
          Wire.raw_initial_key raw = None \/
          Wire.raw_initial_key raw = Some Wire.JNull
      end) /\
  (forall raw el,
      Wire.decode_message raw = Ok el ->
      Wire.text_of_raw Wire.KeyField (Wire.raw_msg_sender_key raw)
        (ed_public_bytes_raw (msg_sender_key el)) /\
      Wire.text_of_raw Wire.SignatureField (Wire.raw_msg_signature raw)
        (msg_signature el)) /\
  (forall raw k t,
      In (k, Wire.JString t) (Wire.exchange_key_fields raw) ->
      List.length t <> Wire.text_length k ->
      exists e, Wire.decode_exchange_key raw = Raise e) /\
  (forall raw k t,
      In (k, Wire.JString t) (Wire.message_fields raw) ->
      List.length t <> Wire.text_length k ->
      exists e, Wire.decode_message raw = Raise e) /\
  (forall (pyvalue : Type) (str_schema : pyvalue -> result pytext)
          (before : pyvalue -> result pyvalue) (v : pyvalue) (t : pytext),
      (Types.Base64Key str_schema before v = Ok t ->
       List.length t = 44%nat) /\
      (Types.Base64Signature str_schema before v = Ok t ->
       List.length t = 88%nat)) /\
  (forall bs : bytes,
      (List.length bs = 32%nat ->
       List.length (text_of_string (Base64.urlsafe_b64encode bs)) = 44%nat) /\
      (List.length bs = 64%nat ->
       List.length (text_of_string (Base64.urlsafe_b64encode bs)) = 88%nat)) /\
  (forall k bs,
      List.length bs = Wire.raw_length k ->
      Wire.validate_output k (Wire.encoded bs) = Ok bs).
Proof.
  split; [|split; [|split; [|split; [|split; [|split]]]]].
  - intros raw el. unfold Wire.decode_exchange_key, rbind.
    destruct (Wire.VerificationKey _) as [sk|e] eqn:Hsk; [|discriminate].
    destruct (Wire.RawSignature _) as [sg|e] eqn:Hsg; [|discriminate].
    destruct (Wire.PublicExchangeKey _) as [xk|e] eqn:Hxk; [|discriminate].
    destruct (Wire.optional_PublicExchangeKey _) as [ik|e] eqn:Hik;
      [|discriminate].
    intros H; injection H as <-.
    cbn [ek_sender_key ek_signature exchange_key initial_key].
    split; [now apply VerificationKey_Ok|].
    split; [now apply validate_output_Ok|].
    split; [now apply PublicExchangeKey_Ok|].
    now apply optional_PublicExchangeKey_Ok.
  - intros raw el. unfold Wire.decode_message, rbind.
    destruct (Wire.VerificationKey _) as [sk|e] eqn:Hsk; [|discriminate].
    destruct (Wire.RawSignature _) as [sg|e] eqn:Hsg; [|discriminate].
    intros H; injection H as <-.
    cbn [msg_sender_key msg_signature].
    split; [now apply VerificationKey_Ok | now apply validate_output_Ok].
  - intros raw k t Hin Hlen.
    unfold Wire.decode_exchange_key, rbind.
    unfold Wire.exchange_key_fields in Hin.
    destruct Hin as [Heq|[Heq|[Heq|Hin]]].
    + injection Heq as <- Hv. rewrite Hv.
      destruct (key_type_rejects t Hlen) as [[e ->] _]. now exists e.
    + injection Heq as <- Hv. rewrite Hv.
      destruct (Wire.VerificationKey _) as [sk|e]; [|now exists e].
      destruct (@validate_output_rejects Wire.SignatureField t Hlen)
        as [e He].
      unfold Wire.RawSignature. rewrite He. now exists e.
    + injection Heq as <- Hv. rewrite Hv.
      destruct (Wire.VerificationKey _) as [sk|e]; [|now exists e].
      destruct (Wire.RawSignature _) as [sg|e]; [|now exists e].
      destruct (key_type_rejects t Hlen) as [_ [e ->]]. now exists e.
    + destruct (Wire.raw_initial_key raw) as [w|] eqn:Hw; [|contradiction].
      destruct Hin as [Heq|[]]. injection Heq as <- ->.
      destruct (Wire.VerificationKey _) as [sk|e]; [|now exists e].
      destruct (Wire.RawSignature _) as [sg|e]; [|now exists e].
      destruct (Wire.PublicExchangeKey (Wire.raw_exchange_key raw))
        as [xk|e]; [|now exists e].
      cbn [Wire.optional_PublicExchangeKey]. unfold rbind.
      destruct (key_type_rejects t Hlen) as [_ [e ->]]. now exists e.
  - intros raw k t Hin Hlen.
    unfold Wire.decode_message, rbind.
    destruct Hin as [Heq|[Heq|[]]].
    + injection Heq as <- Hv. rewrite Hv.
      destruct (key_type_rejects t Hlen) as [[e ->] _]. now exists e.
    + injection Heq as <- Hv. rewrite Hv.
      destruct (Wire.VerificationKey _) as [sk|e]; [|now exists e].
      destruct (@validate_output_rejects Wire.SignatureField t Hlen)
        as [e He].
      unfold Wire.RawSignature. rewrite He. now exists e.
  - intros pyvalue str_schema before v t. split; intros H;
      apply annotated_str_Ok in H as (v' & _ & _ & Hl); cbn in Hl; lia.
  - intros bs. split; intros Hbs; rewrite text_of_string_length.
    + now apply urlsafe_b64encode_32.
    + now apply urlsafe_b64encode_64.
  - exact validate_output_encoded.
Qed.

(** A message element with the texts of a 32-byte key and of a 64-byte
    signature is accepted, with the bytes the two texts stand for; the key
    text is 44 characters long. *)
Lemma base64_fields_exact_length_witness :
  Wire.decode_message
    {| Wire.raw_msg_timestamp := 7%Z;
       Wire.raw_msg_sender_key := Wire.encoded (repeat x01 32);
       Wire.raw_msg_signature := Wire.encoded (repeat xfe 64);
       Wire.raw_nonce := "00ff";
       Wire.raw_encrypted_text := "gAAA" |}
  = Ok {| msg_timestamp := 7%Z;
          msg_sender_key := {| ed_public_bytes_raw := repeat x01 32 |};
          msg_signature := repeat xfe 64;
          nonce := "00ff";
          encrypted_text := "gAAA" |} /\
  Wire.text_of_raw Wire.KeyField (Wire.encoded (repeat x01 32))
    (repeat x01 32).
Proof.
  assert (Hrun :
    Wire.decode_message
      {| Wire.raw_msg_timestamp := 7%Z;
         Wire.raw_msg_sender_key := Wire.encoded (repeat x01 32);
         Wire.raw_msg_signature := Wire.encoded (repeat xfe 64);
         Wire.raw_nonce := "00ff";
         Wire.raw_encrypted_text := "gAAA" |}
    = Ok {| msg_timestamp := 7%Z;
            msg_sender_key := {| ed_public_bytes_raw := repeat x01 32 |};
            msg_signature := repeat xfe 64;
            nonce := "00ff";
            encrypted_text := "gAAA" |})
    by (vm_compute; reflexivity).
  split; [exact Hrun|].
  exact (proj1 (proj1 (proj2 base64_fields_exact_length) _ _ Hrun)).
Defined.

(** ** Signature verification *)

(** C1.  [is_valid] always returns a boolean and never raises; it returns
    [True] exactly when [sender_key.verify] accepts the element's signature
    over its signed bytes, which are the raw bytes of [exchange_key] for an
    exchange-key element and the encoded [encrypted_text] for a message
    element.  It is a function of the element alone: no state is read or
    written. *)
Theorem is_valid_total_and_kind_specific
    (ed25519_verify : Ed25519PublicKey -> bytes -> bytes -> result unit)
    (str_encode : string -> result bytes)
    (el : FetchResponseElement) :
  (exists b : bool,
      Responses.is_valid ed25519_verify str_encode el = Ok b /\
      (b = true <->
       exists data,
         Responses._get_data str_encode el = Ok data /\
         ed25519_verify (sender_key el) (signature el) data = Ok tt)) /\
  match el with
  | ExchangeKeyElement k =>
      Responses._get_data str_encode el = Ok (public_bytes_raw (exchange_key k)) /\
      Responses.is_valid ed25519_verify str_encode el =
        Ok (match ed25519_verify (ek_sender_key k) (ek_signature k)
                                 (public_bytes_raw (exchange_key k)) with
            | Ok _ => true
            | Raise _ => false
            end)
  | MessageElement m =>
      Responses._get_data str_encode el = str_encode (encrypted_text m) /\
      Responses.is_valid ed25519_verify str_encode el =
        Ok (match str_encode (encrypted_text m) with
            | Ok data =>
                match ed25519_verify (msg_sender_key m) (msg_signature m) data with
                | Ok _ => true
                | Raise _ => false
                end
            | Raise _ => false
            end)
  end.
Proof.
  split.
  - unfold Responses.is_valid, try_except, rbind.
    destruct (Responses._get_data str_encode el) as [data|e] eqn:Hd.
    + destruct (ed25519_verify (sender_key el) (signature el) data) as [[]|e] eqn:Hv.
      * exists true. split; [reflexivity|].
        split; [intros _; now exists data | reflexivity].
      * exists false. split; [reflexivity|].
        split; [discriminate|].
        intros (d & Hd' & Hv'). injection Hd' as <-.
        rewrite Hv in Hv'. discriminate.
    + exists false. split; [reflexivity|].
      split; [discriminate|]. intros (d & Hd' & _). discriminate.
  - destruct el as [k|m]; cbn; split; try reflexivity.
    + unfold Responses.is_valid, try_except, rbind; cbn.
      now destruct (ed25519_verify _ _ _).
    + unfold Responses.is_valid, try_except, rbind; cbn.
      destruct (str_encode (encrypted_text m)); [|reflexivity].
      now destruct (ed25519_verify _ _ _).
Qed.

(** ** Running the monad *)

Ltac run :=
  unfold sync_cycle, bind, ret, raise, try_catch, get_app, lift, emit, world,
    add_item, set_connected, set_message_entry_input, write_engine in *;
  cbn [fst snd connected engine output_log selected_contact
       message_entry_input events calls negb
       add_event count_call log_item with_connected with_input with_engine]
    in *.

Ltac fields :=
  cbn [connected engine output_log selected_contact
       message_entry_input events calls
       add_event count_call log_item with_connected with_input with_engine
       after_cycle_timeout after_cycle_failure] in *.

(** ** The fetch step *)

(** C10.  When the database yields no contact key, [_fetch_handler] returns
    at once: no request is sent and the application object is unchanged. *)
Theorem fetch_handler_without_contact_keys
    (Other : Type) (E : Env Other) (s : App Other) :
  get_contact_keys E (engine s) = Ok [] ->
  _fetch_handler E s = (Ok tt, s).
Proof.
  intros H. unfold _fetch_handler. run. now rewrite H.
Qed.

Lemma fetch_handler_without_contact_keys_witness :
  _fetch_handler Fixture.relay_up
    (Fixture.app true (Fixture.store [] [] []) None "")
  = (Ok tt, Fixture.app true (Fixture.store [] [] []) None "").
Proof.
  apply (@fetch_handler_without_contact_keys unit Fixture.relay_up).
  reflexivity.
Defined.

(** ** The disconnected branch of the loop *)

Lemma ping_server_run (Other : Type) (E : Env Other) (s : App Other) :
  _ping_server E s =
  match client_get_ping E (calls s) with
  | Ok _ =>
      (Ok true,
       log_item {| title := "Connection Established";
                   text := "Successfully connected to the server." |}
                (count_call (add_event EvPing s)))
  | Raise _ => (Ok false, count_call (add_event EvPing s))
  end.
Proof.
  unfold _ping_server. run.
  now destruct (client_get_ping E (calls s)).
Qed.

(** C4, as the code has it.  A pass of the loop that finds the engine
    disconnected sends exactly one probe and does not sleep.  When the probe
    fails the engine stays disconnected, nothing else changes, and the next
    pass sends the next probe right after the first: the poll interval is
    not waited for. *)
Theorem disconnected_pass_probes_without_sleeping
    (Other : Type) (E : Env Other) (s : App Other) :
  connected s = false ->
  exists s',
    _run_server_operations_iteration E s = (Ok tt, s') /\
    events s' = events s ++ [EvPing] /\
    (forall e, client_get_ping E (calls s) = Raise e ->
       connected s' = false /\
       engine s' = engine s /\
       output_log s' = output_log s /\
       exists s'',
         _run_server_operations_iteration E s' = (Ok tt, s'') /\
         events s'' = events s ++ [EvPing; EvPing]).
Proof.
  intros Hc.
  assert (Hstep : forall t : App Other, connected t = false ->
            _run_server_operations_iteration E t =
            (Ok tt,
             match client_get_ping E (calls t) with
             | Ok _ =>
                 with_connected true
                   (log_item {| title := "Connection Established";
                                text := "Successfully connected to the server." |}
                             (count_call (add_event EvPing t)))
             | Raise _ => with_connected false (count_call (add_event EvPing t))
             end)).
  { intros t Ht. unfold _run_server_operations_iteration.
    unfold bind at 1. unfold get_app at 1. rewrite Ht. cbn [negb].
    unfold bind. rewrite ping_server_run.
    now destruct (client_get_ping E (calls t)). }
  eexists. split; [apply (Hstep s Hc)|]. split.
  - now destruct (client_get_ping E (calls s)).
  - intros e He. rewrite He.
    split; [reflexivity|]. split; [reflexivity|]. split; [reflexivity|].
    eexists. split; [apply Hstep; reflexivity|].
    fields.
    destruct (client_get_ping E (S (calls s)));
      fields; now rewrite <- app_assoc.
Qed.

Lemma disconnected_pass_witness :
  exists s',
    _run_server_operations_iteration Fixture.relay_down
      (Fixture.app false (Fixture.store [] [] []) None "") = (Ok tt, s') /\
    events s' = [EvPing] /\
    (forall e,
       client_get_ping Fixture.relay_down 0 = Raise e ->
       connected s' = false /\
       engine s' = Fixture.store [] [] [] /\
       output_log s' = [] /\
       exists s'',
         _run_server_operations_iteration Fixture.relay_down s' = (Ok tt, s'') /\
         events s'' = [EvPing; EvPing]).
Proof.
  apply (@disconnected_pass_probes_without_sleeping unit Fixture.relay_down
           (Fixture.app false (Fixture.store [] [] []) None "")).
  reflexivity.
Defined.

(** C4, as the spec words it, fails: with the relay down, two passes of the
    loop send two probes and no sleep separates them. *)
Lemma probes_not_spaced_by_poll_interval :
  let s2 := snd (_run_server_operations Fixture.relay_down 2
                   (Fixture.app false (Fixture.store [] [] []) None "")) in
  events s2 = [EvPing; EvPing] /\
  probes_spaced_by_sleep (events s2) = false /\
  connected s2 = false.
Proof. cbv zeta. repeat split. Qed.

(** ** Responding to unmatched offers *)

Lemma for_each_app (Other A : Type) (body : A -> M Other unit)
    (xs ys : list A) (s s' : App Other) :
  for_each xs body s = (Ok tt, s') ->
  for_each (xs ++ ys) body s = for_each ys body s'.
Proof.
  revert s. induction xs as [|x xs IH]; intros s H.
  - cbn in H. unfold ret in H. now injection H as <-.
  - cbn [for_each app] in *. unfold bind in *.
    destruct (body x s) as [[[]|e] s1]; [|discriminate].
    now apply IH.
Qed.

Lemma key_response_body_run (Other : Type) (E : Env Other)
    (rk : ReceivedExchangeKey) (s : App Other) :
  _key_response_body E rk s =
  let private_key := x25519_generate E (calls s) in
  match x25519_exchange E private_key (public_key rk) with
  | Raise e => (Raise e, count_call s)
  | Ok shared_secret =>
      let s1 := response_posted E rk s in
      match post_exchange_key E (S (calls s))
              (verification_key (rek_contact rk))
              (x25519_public_key E private_key) (Some (public_key rk)) with
      | Raise (HTTPStatusError m) =>
          (Ok tt, log_item {| title := "Bad Response"; text := m |} s1)
      | Raise e => (Raise e, s1)
      | Ok response =>
          let fk := {| encoded_bytes := Base64.urlsafe_b64encode shared_secret;
                       fk_contact_id := contact_id (rek_contact rk);
                       fk_timestamp := pk_timestamp response |} in
          let s2 := add_event (EvCommitMatchedKey (rek_id rk) fk) s1 in
          match commit_matched_key (engine s) (rek_id rk) fk with
          | Ok st => (Ok tt, with_engine st s2)
          | Raise e => (Raise e, s2)
          end
      end
  end.
Proof.
  unfold _key_response_body, response_posted, response_event. run.
  cbv zeta.
  destruct (x25519_exchange E (x25519_generate E (calls s)) (public_key rk))
    as [secret|e]; [|reflexivity].
  destruct (post_exchange_key E (S (calls s)) _ _ _) as [response|[m|m|m]];
    reflexivity.
Qed.

Lemma key_response_handler_run (Other : Type) (E : Env Other)
    (keys : list ReceivedExchangeKey) (s : App Other) :
  get_unmatched_keys E (engine s) = Ok keys ->
  _key_response_handler E s = for_each keys (_key_response_body E) s.
Proof. intros H. unfold _key_response_handler. run. now rewrite H. Qed.

(** C6.  When the relay rejects the response posted for an unmatched record
    with an error status, the pass for that record ends normally: a
    "Bad Response" item carrying the error text is appended to the output
    log, the database is left as it was (no session key row, the record's
    flag unchanged), and the loop goes on with the records that follow. *)
Theorem rejected_response_is_reported_and_skipped
    (Other : Type) (E : Env Other)
    (done rest : list ReceivedExchangeKey) (rk : ReceivedExchangeKey)
    (s0 s : App Other) (secret : bytes) (m : string) :
  get_unmatched_keys E (engine s0) = Ok (done ++ rk :: rest) ->
  for_each done (_key_response_body E) s0 = (Ok tt, s) ->
  x25519_exchange E (x25519_generate E (calls s)) (public_key rk) = Ok secret ->
  post_exchange_key E (S (calls s)) (verification_key (rek_contact rk))
    (x25519_public_key E (x25519_generate E (calls s)))
    (Some (public_key rk)) = Raise (HTTPStatusError m) ->
  let s' := log_item {| title := "Bad Response"; text := m |}
                     (response_posted E rk s) in
  _key_response_body E rk s = (Ok tt, s') /\
  output_log s' = output_log s ++ [{| title := "Bad Response"; text := m |}] /\
  engine s' = engine s /\
  fernet_keys (engine s') = fernet_keys (engine s) /\
  received_exchange_keys (engine s') = received_exchange_keys (engine s) /\
  _key_response_handler E s0 = for_each rest (_key_response_body E) s'.
Proof.
  intros Hkeys Hdone Hx Hpost s'.
  assert (Hbody : _key_response_body E rk s = (Ok tt, s')).
  { rewrite key_response_body_run. cbv zeta. now rewrite Hx, Hpost. }
  repeat split; try assumption.
  rewrite (key_response_handler_run E s0 Hkeys).
  rewrite (for_each_app _ done (rk :: rest) s0 Hdone).
  cbn [for_each]. unfold bind. now rewrite Hbody.
Qed.

Lemma rejected_response_witness :
  _key_response_handler Fixture.relay_rejects_keys
    (Fixture.app true
       (Fixture.store [Fixture.alice; Fixture.bob]
          [Fixture.offer_from_alice; Fixture.offer_from_bob] [])
       None "")
  = for_each [Fixture.offer_from_bob]
      (_key_response_body Fixture.relay_rejects_keys)
      (log_item {| title := "Bad Response"; text := "403 Forbidden" |}
         (response_posted Fixture.relay_rejects_keys Fixture.offer_from_alice
            (Fixture.app true
               (Fixture.store [Fixture.alice; Fixture.bob]
                  [Fixture.offer_from_alice; Fixture.offer_from_bob] [])
               None ""))).
Proof.
  apply (@rejected_response_is_reported_and_skipped unit
           Fixture.relay_rejects_keys [] [Fixture.offer_from_bob]
           Fixture.offer_from_alice
           (Fixture.app true
              (Fixture.store [Fixture.alice; Fixture.bob]
                 [Fixture.offer_from_alice; Fixture.offer_from_bob] [])
              None "")
           _ [x00; x0a] "403 Forbidden"); reflexivity.
Defined.

Lemma commit_matched_key_Ok (Other : Type) (st st' : Store Other) (id : Z)
    (fk : FernetKey) :
  commit_matched_key st id fk = Ok st' ->
  contacts st' = contacts st /\
  fernet_keys st' = fernet_keys st ++ [fk] /\
  received_exchange_keys st' =
    map (fun r => if Z.eqb (rek_id r) id then set_matched r else r)
        (received_exchange_keys st) /\
  other_tables st' = other_tables st /\
  (forall r, In r (received_exchange_keys st') -> rek_id r = id ->
             matched r = true) /\
  (exists r, In r (received_exchange_keys st') /\ rek_id r = id).
Proof.
  unfold commit_matched_key.
  destruct (find _ (received_exchange_keys st)) as [row|] eqn:Hfind;
    [|discriminate].
  intros H; injection H as <-. cbn.
  repeat split.
  - intros r Hin Hid. apply in_map_iff in Hin as (r0 & Hr & _).
    destruct (Z.eqb (rek_id r0) id) eqn:Heq.
    + now subst r.
    + subst r. apply Z.eqb_neq in Heq. contradiction.
  - apply find_some in Hfind as [Hin Heq].
    exists (set_matched row). split.
    + apply in_map_iff. exists row. now rewrite Heq.
    + cbn. now apply Z.eqb_eq.
Qed.

(** C5.  When the relay accepts the response posted for an unmatched
    record, one database write adds a [FernetKey] row whose material is the
    url-safe base64 text of the bytes [private_key.exchange(key.public_key)]
    returned for the private key generated in this pass, nothing applied in
    between, and turns the record's [matched] flag on. *)
Theorem accepted_response_persists_raw_shared_secret
    (Other : Type) (E : Env Other) (rk row : ReceivedExchangeKey)
    (s : App Other) (secret : bytes) (response : PostKeyResponseSchema) :
  x25519_exchange E (x25519_generate E (calls s)) (public_key rk) = Ok secret ->
  post_exchange_key E (S (calls s)) (verification_key (rek_contact rk))
    (x25519_public_key E (x25519_generate E (calls s)))
    (Some (public_key rk)) = Ok response ->
  find (fun r => Z.eqb (rek_id r) (rek_id rk))
       (received_exchange_keys (engine s)) = Some row ->
  let fk := {| encoded_bytes := Base64.urlsafe_b64encode secret;
               fk_contact_id := contact_id (rek_contact rk);
               fk_timestamp := pk_timestamp response |} in
  exists s',
    _key_response_body E rk s = (Ok tt, s') /\
    fernet_keys (engine s') = fernet_keys (engine s) ++ [fk] /\
    received_exchange_keys (engine s') =
      map (fun r => if Z.eqb (rek_id r) (rek_id rk) then set_matched r else r)
          (received_exchange_keys (engine s)) /\
    (forall r, In r (received_exchange_keys (engine s')) ->
               rek_id r = rek_id rk -> matched r = true) /\
    (exists r, In r (received_exchange_keys (engine s')) /\
               rek_id r = rek_id rk) /\
    contacts (engine s') = contacts (engine s) /\
    events s' = events s ++
      [response_event E rk (x25519_generate E (calls s));
       EvCommitMatchedKey (rek_id rk) fk].
Proof.
  intros Hx Hpost Hfind fk.
  destruct (commit_matched_key (engine s) (rek_id rk) fk) as [st|e] eqn:Hc.
  - exists (with_engine st
              (add_event (EvCommitMatchedKey (rek_id rk) fk)
                         (response_posted E rk s))).
    pose proof (commit_matched_key_Ok _ _ _ Hc)
      as (Hcs & Hfk & Hrk & _ & Hm & Hex).
    split.
    { rewrite key_response_body_run. cbv zeta. rewrite Hx, Hpost.
      fold fk. now rewrite Hc. }
    unfold response_posted. fields.
    repeat split; try assumption.
    now rewrite <- app_assoc.
  - unfold commit_matched_key in Hc. now rewrite Hfind in Hc.
Qed.

Lemma accepted_response_witness :
  exists s',
    _key_response_body Fixture.relay_up Fixture.offer_from_alice
      (Fixture.app true
         (Fixture.store [Fixture.alice] [Fixture.offer_from_alice] [])
         None "") = (Ok tt, s') /\
    fernet_keys (engine s') =
      [{| encoded_bytes := Base64.urlsafe_b64encode [x00; x0a];
          fk_contact_id := 1%Z; fk_timestamp := 5%Z |}] /\
    received_exchange_keys (engine s') =
      [set_matched Fixture.offer_from_alice].
Proof.
  destruct (@accepted_response_persists_raw_shared_secret unit
              Fixture.relay_up Fixture.offer_from_alice
              Fixture.offer_from_alice
              (Fixture.app true
                 (Fixture.store [Fixture.alice] [Fixture.offer_from_alice] [])
                 None "")
              [x00; x0a] (Fixture.key_response 5%Z)
              eq_refl eq_refl eq_refl)
    as (s' & Hrun & Hfk & Hrk & _).
  exists s'. split; [exact Hrun|]. split; [exact Hfk | exact Hrk].
Defined.

(** ** Events and the [connected] flag, method by method *)

Section Confined.

Variable Other : Type.
Variable P : Event -> bool.

Lemma confined_silent (A : Type) (m : M Other A) :
  (forall s r s', m s = (r, s') ->
     connected s' = connected s /\ events s' = events s) ->
  confined P m.
Proof.
  intros H s r s' Hm. destruct (H s r s' Hm) as [Hc He].
  split; [assumption|]. exists []. now rewrite app_nil_r.
Qed.

Lemma confined_ret (A : Type) (a : A) : confined P (ret (Other := Other) a).
Proof. apply confined_silent. intros s r s' H. injection H as _ <-. now split. Qed.

Lemma confined_raise (A : Type) (e : exn) :
  confined P (raise (Other := Other) (A := A) e).
Proof. apply confined_silent. intros s r s' H. injection H as _ <-. now split. Qed.

Lemma confined_lift (A : Type) (r : result A) :
  confined P (lift (Other := Other) r).
Proof. apply confined_silent. intros s r' s' H. injection H as _ <-. now split. Qed.

Lemma confined_get_app : confined P (get_app (Other := Other)).
Proof. apply confined_silent. intros s r s' H. injection H as _ <-. now split. Qed.

Lemma confined_world (A : Type) (f : nat -> result A) :
  confined P (world (Other := Other) f).
Proof. apply confined_silent. intros s r s' H. injection H as _ <-. now split. Qed.

Lemma confined_add_item (ttl txt : string) :
  confined P (add_item (Other := Other) ttl txt).
Proof. apply confined_silent. intros s r s' H. injection H as _ <-. now split. Qed.

Lemma confined_write_engine (f : Store Other -> result (Store Other)) :
  confined P (write_engine f).
Proof.
  apply confined_silent. intros s r s' H. unfold write_engine in H.
  destruct (f (engine s)); injection H as _ <-; now split.
Qed.

Lemma confined_emit (ev : Event) :
  P ev = true -> confined P (emit (Other := Other) ev).
Proof.
  intros HP s r s' H. injection H as _ <-. split; [reflexivity|].
  exists [ev]. split; [reflexivity|]. cbn. now rewrite HP.
Qed.

Lemma confined_bind (A B : Type) (m : M Other A) (k : A -> M Other B) :
  confined P m -> (forall a, confined P (k a)) -> confined P (bind m k).
Proof.
  intros Hm Hk s r s' H. unfold bind in H.
  destruct (m s) as [[a|e] s1] eqn:Hms.
  - destruct (Hm _ _ _ Hms) as (Hc1 & t1 & Ht1 & HP1).
    destruct (Hk a _ _ _ H) as (Hc2 & t2 & Ht2 & HP2).
    split; [congruence|]. exists (t1 ++ t2). split.
    + now rewrite Ht2, Ht1, app_assoc.
    + rewrite forallb_app. now rewrite HP1, HP2.
  - injection H as <- <-. exact (Hm _ _ _ Hms).
Qed.

Lemma confined_try_catch (A : Type) (m : M Other A) (h : exn -> M Other A) :
  confined P m -> (forall e, confined P (h e)) -> confined P (try_catch m h).
Proof.
  intros Hm Hh s r s' H. unfold try_catch in H.
  destruct (m s) as [[a|e] s1] eqn:Hms.
  - injection H as <- <-. exact (Hm _ _ _ Hms).
  - destruct (Hm _ _ _ Hms) as (Hc1 & t1 & Ht1 & HP1).
    destruct (Hh e _ _ _ H) as (Hc2 & t2 & Ht2 & HP2).
    split; [congruence|]. exists (t1 ++ t2). split.
    + now rewrite Ht2, Ht1, app_assoc.
    + rewrite forallb_app. now rewrite HP1, HP2.
Qed.

Lemma confined_for_each (A : Type) (xs : list A) (body : A -> M Other unit) :
  (forall x, confined P (body x)) -> confined P (for_each xs body).
Proof.
  intros Hb. induction xs as [|x xs IH]; cbn [for_each].
  - apply confined_ret.
  - apply confined_bind; [apply Hb | intros _; exact IH].
Qed.

End Confined.

Ltac confine :=
  repeat first
    [ apply confined_ret | apply confined_raise | apply confined_lift
    | apply confined_get_app | apply confined_world | apply confined_add_item
    | apply confined_write_engine
    | apply confined_emit; reflexivity
    | apply confined_bind; [|intros ?]
    | apply confined_try_catch; [|intros ?]
    | apply confined_for_each; intros ?
    | match goal with
      | |- confined _ (match ?x with _ => _ end) => destruct x
      | |- confined _ (if ?x then _ else _) => destruct x
      end ].

Lemma fetch_handler_confined (Other : Type) (E : Env Other) :
  confined fetch_step_event (_fetch_handler E).
Proof. unfold _fetch_handler. confine. Qed.

Lemma key_response_body_confined (Other : Type) (E : Env Other)
    (rk : ReceivedExchangeKey) :
  confined respond_step_event (_key_response_body E rk).
Proof. unfold _key_response_body. confine. Qed.

Lemma key_response_handler_confined (Other : Type) (E : Env Other) :
  confined respond_step_event (_key_response_handler E).
Proof.
  unfold _key_response_handler. confine.
Qed.

Lemma post_exchange_key_confined (Other : Type) (E : Env Other)
    (contact : BaseContactOutputSchema) :
  confined auto_exchange_step_event (_post_exchange_key E contact).
Proof. unfold _post_exchange_key. confine. Qed.

Lemma new_contact_key_handler_confined (Other : Type) (E : Env Other) :
  confined auto_exchange_step_event (_new_contact_key_handler E).
Proof.
  unfold _new_contact_key_handler. confine.
Qed.

(** ** One connected pass of the loop *)

Lemma sync_cycle_run (Other : Type) (E : Env Other) (s : App Other) :
  sync_cycle E s =
  match _fetch_handler E s with
  | (Ok _, s1) =>
      match _key_response_handler E s1 with
      | (Ok _, s2) => _new_contact_key_handler E s2
      | (Raise e, s2) => (Raise e, s2)
      end
  | (Raise e, s1) => (Raise e, s1)
  end.
Proof.
  unfold sync_cycle, bind.
  destruct (_fetch_handler E s) as [[[]|e] s1]; [|reflexivity].
  now destruct (_key_response_handler E s1) as [[[]|e] s2].
Qed.

Lemma connected_pass_run (Other : Type) (E : Env Other) (s : App Other) :
  connected s = true ->
  _run_server_operations_iteration E s =
  (Ok tt,
   match sync_cycle E s with
   | (Ok _, s1) => add_event EvSleep s1
   | (Raise e, s1) =>
       if is_timeout e then after_cycle_timeout s1
       else after_cycle_failure e s1
   end).
Proof.
  intros Hc. unfold _run_server_operations_iteration.
  unfold bind at 1. unfold get_app at 1. rewrite Hc. cbn [negb].
  unfold bind, try_catch.
  destruct (sync_cycle E s) as [[[]|e] s1]; [reflexivity|].
  now destruct e.
Qed.

Lemma pass_events_after_cycle (Other : Type) (E : Env Other) (s : App Other) :
  connected s = true ->
  events (snd (_run_server_operations_iteration E s)) =
  events (snd (sync_cycle E s)) ++ [EvSleep].
Proof.
  intros Hc. rewrite (connected_pass_run E s Hc). cbn [snd].
  destruct (sync_cycle E s) as [[[]|e] s1]; [reflexivity|].
  now destruct e.
Qed.

(** C7.  The events of a connected pass are the fetch step's events, then
    the events of the step that answers unmatched offers, then those of the
    automatic exchange for new contacts, then the sleep: each block is
    everything its handler does from the state the handler before it
    returned, so no step starts before the one before it has returned. *)
Theorem cycle_steps_run_in_order
    (Other : Type) (E : Env Other) (s : App Other) :
  connected s = true ->
  exists t1 t2 t3,
    events (snd (_run_server_operations_iteration E s)) =
      events s ++ t1 ++ t2 ++ t3 ++ [EvSleep] /\
    forallb fetch_step_event t1 = true /\
    forallb respond_step_event t2 = true /\
    forallb auto_exchange_step_event t3 = true /\
    events (snd (_fetch_handler E s)) = events s ++ t1 /\
    (forall s1, _fetch_handler E s = (Ok tt, s1) ->
       events (snd (_key_response_handler E s1)) = events s1 ++ t2 /\
       (forall s2, _key_response_handler E s1 = (Ok tt, s2) ->
          events (snd (_new_contact_key_handler E s2)) = events s2 ++ t3)).
Proof.
  intros Hc. rewrite (pass_events_after_cycle E s Hc), sync_cycle_run.
  destruct (_fetch_handler E s) as [r1 s1] eqn:H1.
  destruct (@fetch_handler_confined _ E _ _ _ H1) as (_ & t1 & Ht1 & HP1).
  destruct r1 as [[]|e1].
  - destruct (_key_response_handler E s1) as [r2 s2] eqn:H2.
    destruct (@key_response_handler_confined _ E _ _ _ H2) as (_ & t2 & Ht2 & HP2).
    destruct r2 as [[]|e2].
    + destruct (_new_contact_key_handler E s2) as [r3 s3] eqn:H3.
      destruct (@new_contact_key_handler_confined _ E _ _ _ H3) as (_ & t3 & Ht3 & HP3).
      exists t1, t2, t3. cbn [snd].
      split; [rewrite Ht3, Ht2, Ht1; now rewrite <- !app_assoc|].
      do 4 (split; [assumption|]).
      intros s1' Hs1. injection Hs1 as <-.
      rewrite H2. cbn [snd]. split; [assumption|].
      intros s2' Hs2. injection Hs2 as <-. now rewrite H3.
    + exists t1, t2, []. cbn [snd].
      split; [rewrite Ht2, Ht1; now rewrite <- !app_assoc|].
      split; [assumption|]. split; [assumption|]. split; [reflexivity|].
      split; [assumption|].
      intros s1' Hs1. injection Hs1 as <-.
      rewrite H2. cbn [snd]. split; [assumption|].
      intros s2' Hs2. discriminate.
  - exists t1, [], []. cbn [snd].
    split; [rewrite Ht1; cbn [app]; now rewrite <- app_assoc|].
    split; [assumption|]. split; [reflexivity|]. split; [reflexivity|].
    split; [assumption|].
    intros s1' Hs1. discriminate.
Qed.

Lemma cycle_steps_witness :
  exists t1 t2 t3,
    events (snd (_run_server_operations_iteration Fixture.relay_up
                   (Fixture.app true
                      (Fixture.store [Fixture.alice; Fixture.bob]
                         [Fixture.offer_from_alice] [])
                      None ""))) =
      [] ++ t1 ++ t2 ++ t3 ++ [EvSleep] /\
    forallb fetch_step_event t1 = true /\
    forallb respond_step_event t2 = true /\
    forallb auto_exchange_step_event t3 = true.
Proof.
  destruct (@cycle_steps_run_in_order unit Fixture.relay_up
              (Fixture.app true
                 (Fixture.store [Fixture.alice; Fixture.bob]
                    [Fixture.offer_from_alice] [])
                 None "")
              eq_refl)
    as (t1 & t2 & t3 & H & H1 & H2 & H3 & _).
  exists t1, t2, t3. split; [exact H|]. split; [exact H1|].
  split; [exact H2 | exact H3].
Defined.

Example cycle_steps_trace :
  events (snd (_run_server_operations_iteration Fixture.relay_up
                 (Fixture.app true
                    (Fixture.store [Fixture.alice; Fixture.bob]
                       [Fixture.offer_from_alice] [])
                    None ""))) =
  [EvFetchData [verification_key Fixture.alice; verification_key Fixture.bob];
   EvStoreFetchedData; EvMessageLogUpdate;
   EvPostExchangeKey (verification_key Fixture.alice)
     {| public_bytes_raw := [x01] |}
     (Some (public_key Fixture.offer_from_alice));
   EvCommitMatchedKey 10
     {| encoded_bytes := "AQo="; fk_contact_id := 1%Z; fk_timestamp := 5%Z |};
   EvPostExchangeKey (verification_key Fixture.bob)
     {| public_bytes_raw := [x03] |} None;
   EvStorePostedExchangeKey 2; EvSleep].
Proof. reflexivity. Qed.

(** ** Failures inside a connected pass *)

Lemma sync_cycle_keeps_connected (Other : Type) (E : Env Other)
    (s s1 : App Other) (r : result unit) :
  sync_cycle E s = (r, s1) -> connected s1 = connected s.
Proof.
  assert (H : confined (fun _ => true) (sync_cycle E)).
  { unfold sync_cycle.
    apply confined_bind; [|intros _; apply confined_bind; [|intros _]].
    - unfold _fetch_handler. confine.
    - unfold _key_response_handler. confine.
    - unfold _new_contact_key_handler. confine. }
  intros Hs. exact (proj1 (H _ _ _ Hs)).
Qed.

Lemma fetch_handler_timeout (Other : Type) (E : Env Other) (s : App Other)
    (k : Ed25519PublicKey) (ks : list Ed25519PublicKey) (m : string) :
  get_contact_keys E (engine s) = Ok (k :: ks) ->
  fetch_data E (calls s) (k :: ks) = Raise (TimeoutException m) ->
  _fetch_handler E s =
  (Raise (TimeoutException m),
   count_call (add_event (EvFetchData (k :: ks)) s)).
Proof.
  intros Hk Hf. unfold _fetch_handler. run. rewrite Hk. now rewrite Hf.
Qed.

Lemma post_exchange_key_timeout (Other : Type) (E : Env Other)
    (contact : BaseContactOutputSchema) (t : App Other) (m : string) :
  connected t = true ->
  post_exchange_key E (S (calls t)) (verification_key contact)
    (x25519_public_key E (x25519_generate E (calls t))) None
  = Raise (TimeoutException m) ->
  _post_exchange_key E contact t =
  (Ok tt,
   log_item {| title := "Exchange Key Post Error";
               text := "Exchange key post request timed out." |}
            (offer_posted E contact t)).
Proof.
  intros Hc Hp. unfold _post_exchange_key, offer_posted, offer_event. run.
  rewrite Hc. cbn [negb]. now rewrite Hp.
Qed.

(** C3, as the code has it.  In a connected pass:
    - a timeout of the fetch request, or of the request that answers an
      unmatched offer, ends the pass at once: the engine is disconnected,
      "Server Connection Error" is logged, and nothing of the later records
      or steps is done before the sleep;
    - a timeout of the request that offers a key to a new contact is caught
      by [_post_exchange_key]: it is logged as "Exchange Key Post Error",
      the engine stays connected and the loop goes on with the next contact;
    - any exception that leaves the three steps and is not a timeout is
      logged as "Unhandled Server Error" and the engine stays connected. *)
Theorem cycle_failure_handling
    (Other : Type) (E : Env Other) (s : App Other) :
  connected s = true ->
  (forall k ks m,
      get_contact_keys E (engine s) = Ok (k :: ks) ->
      fetch_data E (calls s) (k :: ks) = Raise (TimeoutException m) ->
      _run_server_operations_iteration E s =
      (Ok tt,
       after_cycle_timeout (count_call (add_event (EvFetchData (k :: ks)) s)))) /\
  (forall s1 done rk rest s2 secret m,
      _fetch_handler E s = (Ok tt, s1) ->
      get_unmatched_keys E (engine s1) = Ok (done ++ rk :: rest) ->
      for_each done (_key_response_body E) s1 = (Ok tt, s2) ->
      x25519_exchange E (x25519_generate E (calls s2)) (public_key rk)
        = Ok secret ->
      post_exchange_key E (S (calls s2)) (verification_key (rek_contact rk))
        (x25519_public_key E (x25519_generate E (calls s2)))
        (Some (public_key rk)) = Raise (TimeoutException m) ->
      _run_server_operations_iteration E s =
      (Ok tt, after_cycle_timeout (response_posted E rk s2))) /\
  (forall contact rest t m,
      connected t = true ->
      post_exchange_key E (S (calls t)) (verification_key contact)
        (x25519_public_key E (x25519_generate E (calls t))) None
        = Raise (TimeoutException m) ->
      let t' := log_item {| title := "Exchange Key Post Error";
                            text := "Exchange key post request timed out." |}
                         (offer_posted E contact t) in
      _post_exchange_key E contact t = (Ok tt, t') /\
      connected t' = true /\
      for_each (contact :: rest) (_post_exchange_key E) t =
      for_each rest (_post_exchange_key E) t') /\
  (forall m s1,
      sync_cycle E s = (Raise (TimeoutException m), s1) ->
      _run_server_operations_iteration E s = (Ok tt, after_cycle_timeout s1) /\
      connected (after_cycle_timeout s1) = false /\
      events (after_cycle_timeout s1) = events s1 ++ [EvSleep]) /\
  (forall e s1,
      sync_cycle E s = (Raise e, s1) ->
      is_timeout e = false ->
      _run_server_operations_iteration E s = (Ok tt, after_cycle_failure e s1) /\
      connected (after_cycle_failure e s1) = true /\
      output_log (after_cycle_failure e s1) =
        output_log s1 ++
        [{| title := "Unhandled Server Error"; text := exn_str e |}]).
Proof.
  intros Hc.
  split; [|split; [|split; [|split]]].
  - intros k ks m Hk Hf.
    rewrite (connected_pass_run E s Hc), sync_cycle_run.
    now rewrite (fetch_handler_timeout E s Hk Hf).
  - intros s1 done rk rest s2 secret m Hfetch Hkeys Hdone Hx Hp.
    rewrite (connected_pass_run E s Hc), sync_cycle_run, Hfetch.
    rewrite (key_response_handler_run E s1 Hkeys).
    rewrite (for_each_app _ done (rk :: rest) s1 Hdone).
    cbn [for_each]. unfold bind at 1.
    rewrite key_response_body_run. cbv zeta. now rewrite Hx, Hp.
  - intros contact rest t m Ht Hp t'.
    assert (Hrun := post_exchange_key_timeout E contact t Ht Hp).
    fold t' in Hrun.
    split; [exact Hrun|]. split; [exact Ht|].
    cbn [for_each]. unfold bind. now rewrite Hrun.
  - intros m s1 Hs.
    rewrite (connected_pass_run E s Hc), Hs. now repeat split.
  - intros e s1 Hs He.
    rewrite (connected_pass_run E s Hc), Hs, He.
    split; [reflexivity|]. split; [|reflexivity].
    fields. rewrite (sync_cycle_keeps_connected E s Hs). exact Hc.
Qed.

Lemma cycle_failure_handling_witness :
  _run_server_operations_iteration Fixture.relay_down
    (Fixture.app true (Fixture.store [Fixture.alice] [] []) None "")
  = (Ok tt,
     after_cycle_timeout
       (count_call
          (add_event (EvFetchData [verification_key Fixture.alice])
             (Fixture.app true (Fixture.store [Fixture.alice] [] []) None "")))).
Proof.
  apply (proj1 (@cycle_failure_handling unit Fixture.relay_down
                  (Fixture.app true (Fixture.store [Fixture.alice] [] [])
                     None "")
                  eq_refl)
           (verification_key Fixture.alice) [] "ReadTimeout");
    reflexivity.
Defined.

(** C3, as the spec words it, fails for the third step: the relay times out
    on the key offered to the first new contact, yet the engine is still
    connected after the pass and the offer to the second contact was sent
    as well. *)
Lemma auto_exchange_timeout_keeps_engine_connected :
  let s := Fixture.app true
             (Fixture.store [Fixture.alice; Fixture.bob] [] []) None "" in
  let s' := snd (_run_server_operations_iteration Fixture.relay_slow_posts s) in
  post_exchange_key Fixture.relay_slow_posts 2
    (verification_key Fixture.alice)
    (x25519_public_key Fixture.relay_slow_posts
       (x25519_generate Fixture.relay_slow_posts 1)) None
    = Raise (TimeoutException "ReadTimeout") /\
  connected s' = true /\
  events s' =
    [EvFetchData [verification_key Fixture.alice; verification_key Fixture.bob];
     EvStoreFetchedData; EvMessageLogUpdate;
     EvPostExchangeKey (verification_key Fixture.alice)
       {| public_bytes_raw := [x01] |} None;
     EvPostExchangeKey (verification_key Fixture.bob)
       {| public_bytes_raw := [x03] |} None;
     EvSleep] /\
  output_log s' =
    [{| title := "Exchange Key Post Error";
        text := "Exchange key post request timed out." |};
     {| title := "Exchange Key Post Error";
        text := "Exchange key post request timed out." |}].
Proof. cbv zeta. repeat split. Qed.

(** ** Posting a message *)


Lemma input_not_empty (i : string) : i <> "" -> String.eqb i "" = false.
Proof. intros H. now apply String.eqb_neq. Qed.

(** C8.  A message typed for a contact that has no [FernetKey] row is not
    sent: no request is made, the database and the typed text are left as
    they were, and the only effect is one item appended to the output log,
    "Message Post Error - No Encryption Key" (or, when the engine is
    disconnected, "Message Post Error - No Connection", which is checked
    first). *)
Theorem post_message_without_session_key
    (Other : Type) (E : Env Other) (s : App Other) (sel obj : Contact) :
  selected_contact s = Some sel ->
  message_entry_input s <> "" ->
  session_get_contact (engine s) (contact_id sel) = Some obj ->
  contact_fernet_rows E (engine s) (contact_id obj) = [] ->
  exists item,
    _post_message E s = (Ok tt, log_item item s) /\
    title item =
      (if connected s then "Message Post Error - No Encryption Key"
       else "Message Post Error - No Connection") /\
    events (log_item item s) = events s /\
    calls (log_item item s) = calls s /\
    engine (log_item item s) = engine s /\
    message_entry_input (log_item item s) = message_entry_input s /\
    output_log (log_item item s) = output_log s ++ [item].
Proof.
  intros Hsel Hin Hget Hrows.
  unfold _post_message. run. rewrite Hsel, (input_not_empty Hin).
  destruct (connected s); cbn [negb].
  - rewrite Hget. unfold ContactOutputSchema_model_validate.
    rewrite Hrows. cbn [validate_fernet_keys rbind cos_fernet_keys cos_name].
    eexists. split; [reflexivity|]. now repeat split.
  - eexists. split; [reflexivity|]. now repeat split.
Qed.

Lemma post_message_without_session_key_witness :
  exists item,
    _post_message Fixture.relay_up
      (Fixture.app true
         (Fixture.store [Fixture.alice; Fixture.bob] [] [Fixture.key_for_bob])
         (Some Fixture.alice) "hello")
    = (Ok tt,
       log_item item
         (Fixture.app true
            (Fixture.store [Fixture.alice; Fixture.bob] [] [Fixture.key_for_bob])
            (Some Fixture.alice) "hello")) /\
    title item = "Message Post Error - No Encryption Key".
Proof.
  destruct (@post_message_without_session_key unit Fixture.relay_up
              (Fixture.app true
                 (Fixture.store [Fixture.alice; Fixture.bob] []
                    [Fixture.key_for_bob])
                 (Some Fixture.alice) "hello")
              Fixture.alice Fixture.alice
              eq_refl ltac:(discriminate) eq_refl eq_refl)
    as (item & Hrun & Htitle & _).
  exists item. split; [exact Hrun | exact Htitle].
Defined.








(** * Further properties of the handlers *)

(** ** The background loop *)

Lemma disconnected_pass_run (Other : Type) (E : Env Other) (s : App Other) :
  connected s = false ->
  _run_server_operations_iteration E s =
  (Ok tt,
   match client_get_ping E (calls s) with
   | Ok _ =>
       with_connected true
         (log_item {| title := "Connection Established";
                      text := "Successfully connected to the server." |}
                   (count_call (add_event EvPing s)))
   | Raise _ => with_connected false (count_call (add_event EvPing s))
   end).
Proof.
  intros Hc. unfold _run_server_operations_iteration.
  unfold bind at 1. unfold get_app at 1. rewrite Hc. cbn [negb].
  unfold bind. rewrite ping_server_run.
  now destruct (client_get_ping E (calls s)).
Qed.

Lemma pass_never_raises (Other : Type) (E : Env Other) (s : App Other) :
  exists s', _run_server_operations_iteration E s = (Ok tt, s').
Proof.
  destruct (connected s) eqn:Hc.
  - rewrite (connected_pass_run E s Hc). now eexists.
  - rewrite (disconnected_pass_run E s Hc). now eexists.
Qed.

(** X1.  Whatever the relay, the database functions and the key agreement
    do, no exception leaves the loop of [_run_server_operations]: every
    pass, connected or not, ends normally. *)
Theorem run_server_operations_never_raises
    (Other : Type) (E : Env Other) (n : nat) (s : App Other) :
  exists s', _run_server_operations E n s = (Ok tt, s').
Proof.
  revert s. induction n as [|n IH]; intros s.
  - now exists s.
  - cbn [_run_server_operations]. unfold bind.
    destruct (pass_never_raises E s) as [s1 ->]. apply IH.
Qed.

(** X2.  The [connected] flag after a pass: a disconnected engine becomes
    connected exactly when the probe gets an answer, and a connected engine
    becomes disconnected exactly when a timeout leaves the three steps. *)
Theorem pass_connected_flag
    (Other : Type) (E : Env Other) (s : App Other) :
  connected (snd (_run_server_operations_iteration E s)) =
  if connected s
  then negb (raises_timeout (fst (sync_cycle E s)))
  else is_ok (client_get_ping E (calls s)).
Proof.
  destruct (connected s) eqn:Hc.
  - rewrite (connected_pass_run E s Hc). cbn [snd].
    destruct (sync_cycle E s) as [[[]|e] s1] eqn:Hs; cbn [fst raises_timeout].
    + fields. rewrite (sync_cycle_keeps_connected E s Hs). exact Hc.
    + destruct (is_timeout e); [reflexivity|].
      fields. rewrite (sync_cycle_keeps_connected E s Hs). exact Hc.
  - rewrite (disconnected_pass_run E s Hc). cbn [snd].
    now destruct (client_get_ping E (calls s)).
Qed.

Lemma fetch_handler_noop (Other : Type) (E : Env Other) (s : App Other) :
  get_contact_keys E (engine s) = Ok [] -> _fetch_handler E s = (Ok tt, s).
Proof. intros H. unfold _fetch_handler. run. now rewrite H. Qed.

(** X3.  A connected pass with nothing to do (no contact key, no unmatched
    record, no contact without a session key) sends nothing and changes
    nothing: it only sleeps. *)
Theorem idle_pass_only_sleeps
    (Other : Type) (E : Env Other) (s : App Other) :
  connected s = true ->
  get_contact_keys E (engine s) = Ok [] ->
  get_unmatched_keys E (engine s) = Ok [] ->
  get_contacts_without_keys E (engine s) = Ok [] ->
  _run_server_operations_iteration E s = (Ok tt, add_event EvSleep s).
Proof.
  intros Hc Hk Hu Hn.
  rewrite (connected_pass_run E s Hc), sync_cycle_run.
  rewrite (fetch_handler_noop E s Hk).
  rewrite (key_response_handler_run E s Hu). cbn [for_each]. unfold ret.
  unfold _new_contact_key_handler. run. now rewrite Hn.
Qed.

Lemma idle_pass_only_sleeps_witness :
  _run_server_operations_iteration Fixture.relay_up
    (Fixture.app true (Fixture.store [] [] []) None "")
  = (Ok tt,
     add_event EvSleep (Fixture.app true (Fixture.store [] [] []) None "")).
Proof.
  apply (@idle_pass_only_sleeps unit Fixture.relay_up
           (Fixture.app true (Fixture.store [] [] []) None ""));
    reflexivity.
Defined.

(** ** The fetch step, when the relay answers *)

(** X4.  When the relay rejects the fetch with an error status,
    [_fetch_handler] logs "Bad Response" with the error text and returns
    normally; the database is not touched, the engine stays connected and
    the pass goes on with the two other steps. *)
Theorem fetch_rejected_is_reported_and_cycle_continues
    (Other : Type) (E : Env Other) (s : App Other)
    (k : Ed25519PublicKey) (ks : list Ed25519PublicKey) (m : string) :
  get_contact_keys E (engine s) = Ok (k :: ks) ->
  fetch_data E (calls s) (k :: ks) = Raise (HTTPStatusError m) ->
  let s1 := log_item {| title := "Bad Response"; text := m |}
                     (count_call (add_event (EvFetchData (k :: ks)) s)) in
  _fetch_handler E s = (Ok tt, s1) /\
  engine s1 = engine s /\
  connected s1 = connected s /\
  sync_cycle E s =
    (_key_response_handler E ;;; _new_contact_key_handler E) s1.
Proof.
  intros Hk Hf s1.
  assert (Hrun : _fetch_handler E s = (Ok tt, s1)).
  { unfold _fetch_handler. run. rewrite Hk. now rewrite Hf. }
  split; [exact Hrun|]. split; [reflexivity|]. split; [reflexivity|].
  unfold sync_cycle. unfold bind at 1. now rewrite Hrun.
Qed.

Lemma fetch_rejected_witness :
  _fetch_handler Fixture2.relay_rejects_fetch
    (Fixture.app true (Fixture.store [Fixture.alice] [] []) None "")
  = (Ok tt,
     log_item {| title := "Bad Response";
                 text := "500 Internal Server Error" |}
       (count_call
          (add_event (EvFetchData [verification_key Fixture.alice])
             (Fixture.app true (Fixture.store [Fixture.alice] [] [])
                None "")))).
Proof.
  apply (@fetch_rejected_is_reported_and_cycle_continues unit
           Fixture2.relay_rejects_fetch
           (Fixture.app true (Fixture.store [Fixture.alice] [] []) None "")
           (verification_key Fixture.alice) [] "500 Internal Server Error");
    reflexivity.
Defined.

(** X5.  [_fetch_handler] calls [store_fetched_data] only on the response
    the relay gave to this pass's fetch.  With no contact key, or when the
    fetch request raises, the write is not attempted and the database is
    what it was; when the fetch and the write both return, the handler
    returns normally, the database is the result of the write and the
    message log is refreshed. *)
Theorem fetch_handler_database_effect
    (Other : Type) (E : Env Other) (s : App Other) :
  (forall ks,
      get_contact_keys E (engine s) = Ok ks ->
      ks = [] \/ (exists e, fetch_data E (calls s) ks = Raise e) ->
      engine (snd (_fetch_handler E s)) = engine s /\
      exists t,
        events (snd (_fetch_handler E s)) = events s ++ t /\
        ~ In EvStoreFetchedData t) /\
  (forall ks response st,
      get_contact_keys E (engine s) = Ok ks ->
      ks <> [] ->
      fetch_data E (calls s) ks = Ok response ->
      store_fetched_data E (engine s) response = Ok st ->
      fst (_fetch_handler E s) = Ok tt /\
      engine (snd (_fetch_handler E s)) = st /\
      events (snd (_fetch_handler E s)) =
        events s ++ [EvFetchData ks; EvStoreFetchedData; EvMessageLogUpdate]).
Proof.
  split.
  - intros ks Hk Hcase. unfold _fetch_handler. run. rewrite Hk.
    destruct ks as [|k ks].
    + split; [reflexivity|]. exists []. rewrite app_nil_r.
      split; [reflexivity | intros []].
    + destruct Hcase as [Hnil|[e Hf]]; [discriminate|].
      rewrite Hf.
      destruct e as [m|m|m]; (split; [reflexivity|]);
        exists [EvFetchData (k :: ks)];
        (split; [reflexivity | intros [H|[]]; discriminate]).
  - intros ks response st Hk Hne Hf Hst. unfold _fetch_handler. run.
    rewrite Hk. destruct ks as [|k ks]; [contradiction|].
    rewrite Hf. cbv zeta. fields. rewrite Hst.
    repeat split. cbn [snd]. fields. now rewrite <- !app_assoc.
Qed.

(** ** Answering unmatched offers: failures before and after the request *)

(** X6.  The key agreement is computed before the [try]: when it raises
    for a record, no request is sent for that record, the records after it
    are not visited in this pass, and the exception leaves
    [_key_response_handler]. *)
Theorem exchange_failure_aborts_remaining_records
    (Other : Type) (E : Env Other)
    (done rest : list ReceivedExchangeKey) (rk : ReceivedExchangeKey)
    (s0 s : App Other) (e : exn) :
  get_unmatched_keys E (engine s0) = Ok (done ++ rk :: rest) ->
  for_each done (_key_response_body E) s0 = (Ok tt, s) ->
  x25519_exchange E (x25519_generate E (calls s)) (public_key rk) = Raise e ->
  _key_response_handler E s0 = (Raise e, count_call s) /\
  events (count_call s) = events s /\
  engine (count_call s) = engine s /\
  output_log (count_call s) = output_log s.
Proof.
  intros Hkeys Hdone Hx.
  split; [|now repeat split].
  rewrite (key_response_handler_run E s0 Hkeys).
  rewrite (for_each_app _ done (rk :: rest) s0 Hdone).
  cbn [for_each]. unfold bind.
  rewrite key_response_body_run. cbv zeta. now rewrite Hx.
Qed.

Lemma exchange_failure_witness :
  _key_response_handler Fixture2.relay_up_strict
    (Fixture.app true
       (Fixture.store [Fixture.alice; Fixture.bob]
          [Fixture2.zero_offer_from_bob; Fixture.offer_from_alice] [])
       None "")
  = (Raise (OtherException "ValueError"),
     count_call
       (Fixture.app true
          (Fixture.store [Fixture.alice; Fixture.bob]
             [Fixture2.zero_offer_from_bob; Fixture.offer_from_alice] [])
          None "")).
Proof.
  apply (@exchange_failure_aborts_remaining_records unit
           Fixture2.relay_up_strict [] [Fixture.offer_from_alice]
           Fixture2.zero_offer_from_bob
           (Fixture.app true
              (Fixture.store [Fixture.alice; Fixture.bob]
                 [Fixture2.zero_offer_from_bob; Fixture.offer_from_alice] [])
              None "")
           _ (OtherException "ValueError"));
    reflexivity.
Defined.

(** X7.  When the record has left the table by the time the relay has
    accepted the response, [get_one] raises, with the text "No row was
    found when one was required": the response has been sent, but no
    session key is stored, the database is unchanged and the exception
    leaves the loop body. *)
Theorem vanished_record_loses_session_key
    (Other : Type) (E : Env Other) (rk : ReceivedExchangeKey)
    (s : App Other) (secret : bytes) (response : PostKeyResponseSchema) :
  x25519_exchange E (x25519_generate E (calls s)) (public_key rk) = Ok secret ->
  post_exchange_key E (S (calls s)) (verification_key (rek_contact rk))
    (x25519_public_key E (x25519_generate E (calls s)))
    (Some (public_key rk)) = Ok response ->
  find (fun r => Z.eqb (rek_id r) (rek_id rk))
       (received_exchange_keys (engine s)) = None ->
  exists s',
    _key_response_body E rk s = (Raise (OtherException "No row was found when one was required"), s') /\
    engine s' = engine s /\
    In (response_event E rk (x25519_generate E (calls s))) (events s').
Proof.
  intros Hx Hp Hfind.
  eexists. split.
  - rewrite key_response_body_run. cbv zeta. rewrite Hx, Hp.
    unfold commit_matched_key. rewrite Hfind. reflexivity.
  - split; [reflexivity|].
    unfold response_posted. fields.
    apply in_or_app. left. apply in_or_app. right. now left.
Qed.

Lemma vanished_record_witness :
  exists s',
    _key_response_body Fixture.relay_up Fixture.offer_from_alice
      (Fixture.app true (Fixture.store [Fixture.alice] [] []) None "")
    = (Raise (OtherException "No row was found when one was required"), s') /\
    engine s' = Fixture.store [Fixture.alice] [] [].
Proof.
  destruct (@vanished_record_loses_session_key unit Fixture.relay_up
              Fixture.offer_from_alice
              (Fixture.app true (Fixture.store [Fixture.alice] [] []) None "")
              [x00; x0a] (Fixture.key_response 5%Z)
              eq_refl eq_refl eq_refl)
    as (s' & Hrun & Heng & _).
  exists s'. split; [exact Hrun | exact Heng].
Defined.

(** X8.  The database write of the response step touches one record only:
    the table keeps its length and its primary keys, public keys and
    contacts; a record with another primary key is left as it is; no flag
    that was on is turned off; the session keys already stored stay in
    place before the new one. *)
Theorem commit_matched_key_frame
    (Other : Type) (st st' : Store Other) (id : Z) (fk : FernetKey) :
  commit_matched_key st id fk = Ok st' ->
  List.length (received_exchange_keys st') =
    List.length (received_exchange_keys st) /\
  map rek_id (received_exchange_keys st') =
    map rek_id (received_exchange_keys st) /\
  map public_key (received_exchange_keys st') =
    map public_key (received_exchange_keys st) /\
  map rek_contact (received_exchange_keys st') =
    map rek_contact (received_exchange_keys st) /\
  Forall2 (fun r r' =>
             (rek_id r <> id -> r' = r) /\
             (matched r = true -> matched r' = true))
          (received_exchange_keys st) (received_exchange_keys st') /\
  firstn (List.length (fernet_keys st)) (fernet_keys st') = fernet_keys st.
Proof.
  intros H. apply commit_matched_key_Ok in H as (_ & Hfk & Hrk & _).
  rewrite Hrk, Hfk. clear Hrk Hfk.
  split; [apply length_map|].
  split; [|split; [|split; [|split]]].
  - rewrite map_map. apply map_ext. intros r.
    now destruct (Z.eqb (rek_id r) id).
  - rewrite map_map. apply map_ext. intros r.
    now destruct (Z.eqb (rek_id r) id).
  - rewrite map_map. apply map_ext. intros r.
    now destruct (Z.eqb (rek_id r) id).
  - induction (received_exchange_keys st) as [|r rows IH]; cbn [map].
    + constructor.
    + constructor; [|exact IH]. split.
      * intros Hne. apply Z.eqb_neq in Hne. now rewrite Hne.
      * intros Hm. now destruct (Z.eqb (rek_id r) id).
  - rewrite firstn_app, Nat.sub_diag, firstn_all. cbn. apply app_nil_r.
Qed.

Lemma commit_matched_key_frame_witness :
  List.length
    (received_exchange_keys
       (Fixture.store [Fixture.alice; Fixture.bob]
          [set_matched Fixture.offer_from_alice; Fixture.offer_from_bob]
          [Fixture.old_key_for_alice; Fixture.new_key_for_alice])) =
  List.length
    (received_exchange_keys
       (Fixture.store [Fixture.alice; Fixture.bob]
          [Fixture.offer_from_alice; Fixture.offer_from_bob]
          [Fixture.old_key_for_alice])).
Proof.
  refine (proj1 (@commit_matched_key_frame unit
                   (Fixture.store [Fixture.alice; Fixture.bob]
                      [Fixture.offer_from_alice; Fixture.offer_from_bob]
                      [Fixture.old_key_for_alice])
                   (Fixture.store [Fixture.alice; Fixture.bob]
                      [set_matched Fixture.offer_from_alice;
                       Fixture.offer_from_bob]
                      [Fixture.old_key_for_alice; Fixture.new_key_for_alice])
                   10%Z Fixture.new_key_for_alice eq_refl)).
Defined.

Lemma commit_matched_key_present (Other : Type) (st : Store Other) (id : Z)
    (fk : FernetKey) :
  present_in id st -> exists st', commit_matched_key st id fk = Ok st'.
Proof.
  intros (r & Hin & Hid). unfold commit_matched_key.
  destruct (find (fun r0 => Z.eqb (rek_id r0) id) (received_exchange_keys st))
    eqn:Hfind; [now eexists|].
  exfalso. apply (find_none _ _ Hfind) in Hin.
  apply Z.eqb_neq in Hin. contradiction.
Qed.

Lemma commit_matched_key_keeps (Other : Type) (st st' : Store Other)
    (id id' : Z) (fk : FernetKey) :
  commit_matched_key st id fk = Ok st' ->
  (matched_in id' st -> matched_in id' st') /\
  (present_in id' st -> present_in id' st').
Proof.
  intros H. apply commit_matched_key_Ok in H as (_ & _ & Hrk & _).
  split.
  - intros Hm r Hin Hid. rewrite Hrk in Hin.
    apply in_map_iff in Hin as (r0 & Hr & Hin0).
    destruct (Z.eqb (rek_id r0) id); subst r; [reflexivity|].
    now apply Hm.
  - intros (r & Hin & Hid). unfold present_in. rewrite Hrk.
    exists (if Z.eqb (rek_id r) id then set_matched r else r). split.
    + apply in_map_iff. now exists r.
    + now destruct (Z.eqb (rek_id r) id).
Qed.

Lemma all_accepted_loop (Other : Type) (E : Env Other) :
  (forall k p, exists b, x25519_exchange E k p = Ok b) ->
  (forall n vk pk ik, exists r, post_exchange_key E n vk pk ik = Ok r) ->
  forall (keys : list ReceivedExchangeKey) (s : App Other),
    (forall rk, In rk keys -> present_in (rek_id rk) (engine s)) ->
    exists s',
      for_each keys (_key_response_body E) s = (Ok tt, s') /\
      List.length (fernet_keys (engine s')) =
        (List.length (fernet_keys (engine s)) + List.length keys)%nat /\
      (forall rk, In rk keys -> matched_in (rek_id rk) (engine s')) /\
      (forall id, matched_in id (engine s) -> matched_in id (engine s')) /\
      (forall id, present_in id (engine s) -> present_in id (engine s')) /\
      contacts (engine s') = contacts (engine s) /\
      output_log s' = output_log s.
Proof.
  intros Hx Hp keys.
  induction keys as [|rk keys IH]; intros s Hpres.
  - exists s. cbn. repeat split; try tauto. lia.
  - destruct (Hx (x25519_generate E (calls s)) (public_key rk)) as [secret Hsec].
    destruct (Hp (S (calls s)) (verification_key (rek_contact rk))
                 (x25519_public_key E (x25519_generate E (calls s)))
                 (Some (public_key rk))) as [response Hresp].
    set (fk := {| encoded_bytes := Base64.urlsafe_b64encode secret;
                  fk_contact_id := contact_id (rek_contact rk);
                  fk_timestamp := pk_timestamp response |}).
    destruct (commit_matched_key_present fk (Hpres rk (or_introl eq_refl)))
      as [st Hst].
    set (s1 := with_engine st
                 (add_event (EvCommitMatchedKey (rek_id rk) fk)
                            (response_posted E rk s))).
    assert (Hbody : _key_response_body E rk s = (Ok tt, s1)).
    { rewrite key_response_body_run. cbv zeta. rewrite Hsec, Hresp.
      fold fk. now rewrite Hst. }
    pose proof (commit_matched_key_Ok _ _ _ Hst)
      as (Hcs & Hfk & _ & _ & Hset & _).
    assert (Hkeep : forall id,
               (matched_in id (engine s) -> matched_in id st) /\
               (present_in id (engine s) -> present_in id st)).
    { intros id. exact (@commit_matched_key_keeps _ _ _ _ id _ Hst). }
    destruct (IH s1) as (s' & Hrun & Hlen & Hall & Hmono & Hpr & Hcs' & Hlog).
    { intros rk' Hin. apply (proj2 (Hkeep (rek_id rk'))).
      apply Hpres. now right. }
    exists s'. cbn [for_each]. unfold bind. rewrite Hbody.
    split; [exact Hrun|]. split.
    { rewrite Hlen. subst s1. fields. rewrite Hfk, length_app.
      cbn [List.length]. lia. }
    split.
    { intros rk' [<-|Hin]; [|now apply Hall].
      apply Hmono. exact Hset. }
    split.
    { intros id Hm. apply Hmono. now apply (proj1 (Hkeep id)). }
    split.
    { intros id Hq. apply Hpr. now apply (proj2 (Hkeep id)). }
    split.
    { rewrite Hcs'. exact Hcs. }
    rewrite Hlog. reflexivity.
Qed.

(** X9.  When the key agreement and the relay accept every record,
    [_key_response_handler] answers all of the unmatched records it was
    given: it returns normally, every one of them has its flag on in the
    database, exactly one session key per record has been added, records
    that were matched before stay matched, and the contacts and the output
    log are unchanged. *)
Theorem all_offers_answered_when_relay_accepts
    (Other : Type) (E : Env Other) (s : App Other)
    (keys : list ReceivedExchangeKey) :
  (forall k p, exists b, x25519_exchange E k p = Ok b) ->
  (forall n vk pk ik, exists r, post_exchange_key E n vk pk ik = Ok r) ->
  get_unmatched_keys E (engine s) = Ok keys ->
  (forall rk, In rk keys -> present_in (rek_id rk) (engine s)) ->
  exists s',
    _key_response_handler E s = (Ok tt, s') /\
    List.length (fernet_keys (engine s')) =
      (List.length (fernet_keys (engine s)) + List.length keys)%nat /\
    (forall rk, In rk keys -> matched_in (rek_id rk) (engine s')) /\
    (forall id, matched_in id (engine s) -> matched_in id (engine s')) /\
    contacts (engine s') = contacts (engine s) /\
    output_log s' = output_log s.
Proof.
  intros Hx Hp Hkeys Hpres.
  destruct (@all_accepted_loop _ E Hx Hp keys s Hpres)
    as (s' & Hrun & Hlen & Hall & Hmono & _ & Hcs & Hlog).
  exists s'. rewrite (key_response_handler_run E s Hkeys).
  now repeat split.
Qed.

Lemma all_offers_answered_witness :
  exists s',
    _key_response_handler Fixture.relay_up
      (Fixture.app true
         (Fixture.store [Fixture.alice; Fixture.bob]
            [Fixture.offer_from_alice; Fixture.offer_from_bob] [])
         None "") = (Ok tt, s') /\
    List.length (fernet_keys (engine s')) = 2%nat.
Proof.
  destruct (@all_offers_answered_when_relay_accepts unit Fixture.relay_up
              (Fixture.app true
                 (Fixture.store [Fixture.alice; Fixture.bob]
                    [Fixture.offer_from_alice; Fixture.offer_from_bob] [])
                 None "")
              [Fixture.offer_from_alice; Fixture.offer_from_bob])
    as (s' & Hrun & Hlen & _).
  - intros k p. eexists. reflexivity.
  - intros n vk pk ik. eexists. reflexivity.
  - reflexivity.
  - intros rk [<-|[<-|[]]].
    + exists Fixture.offer_from_alice. split; [now left | reflexivity].
    + exists Fixture.offer_from_bob. split; [right; now left | reflexivity].
  - exists s'. split; [exact Hrun | exact Hlen].
Defined.

(** ** Offering a key to a contact *)

Lemma post_exchange_key_run (Other : Type) (E : Env Other)
    (contact : BaseContactOutputSchema) (s : App Other) :
  connected s = true ->
  _post_exchange_key E contact s =
  match post_exchange_key E (S (calls s)) (verification_key contact)
          (x25519_public_key E (x25519_generate E (calls s))) None with
  | Raise e =>
      (Ok tt, log_item (exchange_key_post_error e) (offer_posted E contact s))
  | Ok _ =>
      let s1 := add_event (EvStorePostedExchangeKey (contact_id contact))
                          (offer_posted E contact s) in
      match store_posted_exchange_key E (engine s) (contact_id contact)
              (x25519_generate E (calls s)) with
      | Ok st =>
          (Ok tt,
           log_item {| title := "Exchange Key Post Success";
                       text := "Posted exchange key to "
                               ++ contact_name contact ++ "." |}
                    (with_engine st s1))
      | Raise e => (Ok tt, log_item (exchange_key_post_error e) s1)
      end
  end.
Proof.
  intros Hc. unfold _post_exchange_key, offer_posted, offer_event. run.
  rewrite Hc. cbn [negb].
  destruct (post_exchange_key E (S (calls s)) _ _ None) as [r|[m|m|m]];
    try reflexivity.
  cbv zeta. fields.
  now destruct (store_posted_exchange_key E (engine s) _ _) as [st|[m|m|m]].
Qed.

Lemma post_exchange_key_disconnected_run (Other : Type) (E : Env Other)
    (contact : BaseContactOutputSchema) (s : App Other) :
  connected s = false ->
  _post_exchange_key E contact s =
  (Ok tt,
   log_item
     {| title := "Exchange Key Post Error - No Connection";
        text := "No exchange keys can be sent until a connection to the server is established." |}
     s).
Proof.
  intros Hc. unfold _post_exchange_key. run. now rewrite Hc.
Qed.

(** X10.  [_post_exchange_key] never raises and never assigns
    [connected], whatever the relay and the database do: every failure ends
    in the output log. *)
Theorem post_exchange_key_never_raises
    (Other : Type) (E : Env Other)
    (contact : BaseContactOutputSchema) (s : App Other) :
  exists s',
    _post_exchange_key E contact s = (Ok tt, s') /\
    connected s' = connected s /\
    List.length (output_log s') = S (List.length (output_log s)).
Proof.
  destruct (connected s) eqn:Hc.
  - rewrite (post_exchange_key_run E contact s Hc).
    destruct (post_exchange_key E (S (calls s)) _ _ None) as [r|e].
    + cbv zeta.
      destruct (store_posted_exchange_key E (engine s) _ _) as [st|e];
        eexists; (split; [reflexivity|]); fields;
        rewrite length_app, Nat.add_comm; now split.
    + eexists. split; [reflexivity|]. unfold offer_posted. fields.
      rewrite length_app, Nat.add_comm. now split.
  - rewrite (post_exchange_key_disconnected_run E contact s Hc).
    eexists. split; [reflexivity|]. fields.
    rewrite length_app, Nat.add_comm. now split.
Qed.

(** X11.  While the engine is disconnected, [_post_exchange_key] refuses:
    no key is generated, no request is sent, the database is not touched;
    the only effect is the "No Connection" item in the output log. *)
Theorem post_exchange_key_refused_when_disconnected
    (Other : Type) (E : Env Other)
    (contact : BaseContactOutputSchema) (s : App Other) :
  connected s = false ->
  exists item,
    _post_exchange_key E contact s = (Ok tt, log_item item s) /\
    title item = "Exchange Key Post Error - No Connection" /\
    events (log_item item s) = events s /\
    calls (log_item item s) = calls s /\
    engine (log_item item s) = engine s.
Proof.
  intros Hc. rewrite (post_exchange_key_disconnected_run E contact s Hc).
  eexists. split; [reflexivity|]. now repeat split.
Qed.

Lemma post_exchange_key_refused_witness :
  exists item,
    _post_exchange_key Fixture.relay_up Fixture.alice
      (Fixture.app false (Fixture.store [Fixture.alice] [] []) None "")
    = (Ok tt,
       log_item item
         (Fixture.app false (Fixture.store [Fixture.alice] [] []) None "")) /\
    title item = "Exchange Key Post Error - No Connection".
Proof.
  destruct (@post_exchange_key_refused_when_disconnected unit
              Fixture.relay_up Fixture.alice
              (Fixture.app false (Fixture.store [Fixture.alice] [] []) None "")
              eq_refl)
    as (item & Hrun & Htitle & _).
  exists item. split; [exact Hrun | exact Htitle].
Defined.

(** X12.  In a connected engine [_post_exchange_key] sends one offer, for
    the public half of the key it has just generated.  The database is
    written only after the relay has accepted that offer, and what is
    handed to [store_posted_exchange_key] is that same private key;
    otherwise the database is unchanged. *)
Theorem pending_key_is_the_offered_key
    (Other : Type) (E : Env Other)
    (contact : BaseContactOutputSchema) (s : App Other) :
  connected s = true ->
  exists s' tail,
    _post_exchange_key E contact s = (Ok tt, s') /\
    events s' =
      events s ++
      EvPostExchangeKey (verification_key contact)
        (x25519_public_key E (x25519_generate E (calls s))) None :: tail /\
    offer_recipients tail = [] /\
    (engine s' = engine s \/
     (exists r,
        post_exchange_key E (S (calls s)) (verification_key contact)
          (x25519_public_key E (x25519_generate E (calls s))) None = Ok r) /\
     store_posted_exchange_key E (engine s) (contact_id contact)
       (x25519_generate E (calls s)) = Ok (engine s')).
Proof.
  intros Hc. rewrite (post_exchange_key_run E contact s Hc).
  destruct (post_exchange_key E (S (calls s)) _ _ None) as [r|e] eqn:Hp.
  - cbv zeta.
    destruct (store_posted_exchange_key E (engine s) _ _) as [st|e] eqn:Hst.
    + eexists. exists [EvStorePostedExchangeKey (contact_id contact)].
      split; [reflexivity|]. unfold offer_posted, offer_event. fields.
      split; [now rewrite <- app_assoc|]. split; [reflexivity|].
      right. split; [now exists r | reflexivity].
    + eexists. exists [EvStorePostedExchangeKey (contact_id contact)].
      split; [reflexivity|]. unfold offer_posted, offer_event. fields.
      split; [now rewrite <- app_assoc|]. split; [reflexivity|].
      now left.
  - eexists. exists []. split; [reflexivity|].
    unfold offer_posted, offer_event. fields.
    split; [reflexivity|]. split; [reflexivity|]. now left.
Qed.

Lemma pending_key_witness :
  exists s' tail,
    _post_exchange_key Fixture.relay_up Fixture.bob
      (Fixture.app true (Fixture.store [Fixture.bob] [] []) None "")
    = (Ok tt, s') /\
    events s' =
      [] ++ EvPostExchangeKey (verification_key Fixture.bob)
              {| public_bytes_raw := [x00] |} None :: tail.
Proof.
  destruct (@pending_key_is_the_offered_key unit Fixture.relay_up
              Fixture.bob
              (Fixture.app true (Fixture.store [Fixture.bob] [] []) None "")
              eq_refl)
    as (s' & tail & Hrun & Hev & _).
  exists s', tail. split; [exact Hrun | exact Hev].
Defined.

Lemma offer_recipients_app (a b : list Event) :
  offer_recipients (a ++ b) = offer_recipients a ++ offer_recipients b.
Proof.
  induction a as [|ev a IH]; [reflexivity|].
  destruct ev; cbn [app offer_recipients]; try exact IH.
  destruct initial; [exact IH|]. cbn. now rewrite IH.
Qed.

Lemma post_exchange_key_connected_step (Other : Type) (E : Env Other)
    (contact : BaseContactOutputSchema) (s : App Other) :
  connected s = true ->
  exists s' tail,
    _post_exchange_key E contact s = (Ok tt, s') /\
    connected s' = true /\
    events s' =
      events s ++ offer_event E contact (x25519_generate E (calls s)) :: tail /\
    offer_recipients tail = [].
Proof.
  intros Hc. rewrite (post_exchange_key_run E contact s Hc).
  destruct (post_exchange_key E (S (calls s)) _ _ None) as [r|e].
  - cbv zeta.
    destruct (store_posted_exchange_key E (engine s) _ _) as [st|e];
      eexists; exists [EvStorePostedExchangeKey (contact_id contact)];
      (split; [reflexivity|]); unfold offer_posted; fields;
      (split; [exact Hc|]); (split; [now rewrite <- app_assoc | reflexivity]).
  - eexists. exists []. split; [reflexivity|].
    unfold offer_posted. fields. now repeat split.
Qed.

Lemma new_contact_loop_offers (Other : Type) (E : Env Other)
    (cs : list BaseContactOutputSchema) :
  forall s : App Other,
    connected s = true ->
    exists s' t,
      for_each cs (_post_exchange_key E) s = (Ok tt, s') /\
      connected s' = true /\
      events s' = events s ++ t /\
      offer_recipients t = map verification_key cs.
Proof.
  induction cs as [|c cs IH]; intros s Hc.
  - exists s, []. cbn. now rewrite app_nil_r.
  - destruct (post_exchange_key_connected_step E c s Hc)
      as (s1 & tail & Hrun & Hc1 & Hev & Htail).
    destruct (IH s1 Hc1) as (s' & t & Hloop & Hc' & Hev' & Ht).
    exists s'. eexists. cbn [for_each]. unfold bind. rewrite Hrun.
    split; [exact Hloop|]. split; [exact Hc'|].
    split.
    + rewrite Hev', Hev, <- app_assoc. reflexivity.
    + cbn [app offer_recipients map]. rewrite offer_recipients_app, Htail, Ht.
      reflexivity.
Qed.

(** X13.  In a connected engine [_new_contact_key_handler] sends exactly
    one key offer to each contact the database reports as having no session
    key, in the order reported, and returns normally with the engine still
    connected: a failed offer does not stop the offers to the contacts
    after it. *)
Theorem one_offer_per_new_contact
    (Other : Type) (E : Env Other) (s : App Other)
    (cs : list BaseContactOutputSchema) :
  connected s = true ->
  get_contacts_without_keys E (engine s) = Ok cs ->
  exists s' t,
    _new_contact_key_handler E s = (Ok tt, s') /\
    connected s' = true /\
    events s' = events s ++ t /\
    offer_recipients t = map verification_key cs.
Proof.
  intros Hc Hcs.
  destruct (new_contact_loop_offers E cs s Hc) as (s' & t & Hrun & H).
  exists s', t. split; [|exact H].
  unfold _new_contact_key_handler. run. now rewrite Hcs.
Qed.

Lemma one_offer_per_new_contact_witness :
  exists s' t,
    _new_contact_key_handler Fixture.relay_slow_posts
      (Fixture.app true (Fixture.store [Fixture.alice; Fixture.bob] [] [])
         None "") = (Ok tt, s') /\
    offer_recipients t =
      [verification_key Fixture.alice; verification_key Fixture.bob] /\
    events s' = [] ++ t.
Proof.
  destruct (@one_offer_per_new_contact unit Fixture.relay_slow_posts
              (Fixture.app true
                 (Fixture.store [Fixture.alice; Fixture.bob] [] []) None "")
              [Fixture.alice; Fixture.bob] eq_refl eq_refl)
    as (s' & t & Hrun & _ & Hev & Ht).
  exists s', t. split; [exact Hrun|]. split; [exact Ht | exact Hev].
Defined.

(** ** Posting a message: every way out *)

(** X14.  [_post_message] does nothing at all (no log item, no request,
    no change) when no contact is selected, when nothing is typed, or when
    the engine is connected and the selected contact is no longer in the
    database. *)
Theorem post_message_silent_returns
    (Other : Type) (E : Env Other) (s : App Other) :
  selected_contact s = None \/
  message_entry_input s = "" \/
  (connected s = true /\
   exists sel, selected_contact s = Some sel /\
               session_get_contact (engine s) (contact_id sel) = None) ->
  _post_message E s = (Ok tt, s).
Proof.
  intros [Hsel|[Hin|(Hc & sel & Hsel & Hget)]]; unfold _post_message; run.
  - now rewrite Hsel.
  - rewrite Hin. now destruct (selected_contact s).
  - rewrite Hsel, Hc, Hget. cbn [negb].
    now destruct (String.eqb (message_entry_input s) "").
Qed.

Lemma post_message_silent_witness :
  _post_message Fixture.relay_up
    (Fixture.app true (Fixture.store [Fixture.alice] [] [])
       (Some Fixture.alice) "")
  = (Ok tt,
     Fixture.app true (Fixture.store [Fixture.alice] [] [])
       (Some Fixture.alice) "").
Proof.
  apply (@post_message_silent_returns unit Fixture.relay_up).
  right. left. reflexivity.
Defined.

(** X15.  While the engine is disconnected, a typed message for a selected
    contact is refused before the database is read: the only effect is the
    "No Connection" item in the output log, and the typed text stays. *)
Theorem post_message_refused_when_disconnected
    (Other : Type) (E : Env Other) (s : App Other) (sel : Contact) :
  selected_contact s = Some sel ->
  message_entry_input s <> "" ->
  connected s = false ->
  _post_message E s =
  (Ok tt,
   log_item
     {| title := "Message Post Error - No Connection";
        text := "No messages can be sent until a connection to the server is established." |}
     s).
Proof.
  intros Hsel Hin Hc. unfold _post_message. run.
  now rewrite Hsel, (input_not_empty Hin), Hc.
Qed.

Lemma post_message_refused_witness :
  _post_message Fixture.relay_up
    (Fixture.app false
       (Fixture.store [Fixture.alice] [] [Fixture.new_key_for_alice])
       (Some Fixture.alice) "hi")
  = (Ok tt,
     log_item
       {| title := "Message Post Error - No Connection";
          text := "No messages can be sent until a connection to the server is established." |}
       (Fixture.app false
          (Fixture.store [Fixture.alice] [] [Fixture.new_key_for_alice])
          (Some Fixture.alice) "hi")).
Proof.
  apply (@post_message_refused_when_disconnected unit Fixture.relay_up
           (Fixture.app false
              (Fixture.store [Fixture.alice] [] [Fixture.new_key_for_alice])
              (Some Fixture.alice) "hi")
           Fixture.alice eq_refl); [discriminate | reflexivity].
Defined.

Lemma post_message_ready_run (Other : Type) (E : Env Other) (s : App Other)
    (sel obj : Contact) (selected : ContactOutputSchema)
    (first : FernetKeyOutput) (rest : list FernetKeyOutput)
    (data ct : bytes) :
  ready_to_post E s sel obj selected first rest data ct ->
  _post_message E s =
  let s1 := message_posted s selected first data ct in
  match post_message E (S (calls s)) (cos_verification_key selected) ct with
  | Raise e => (Ok tt, log_item (message_post_error e) s1)
  | Ok response =>
      let s2 := add_event (EvStorePostedMessage (cos_id selected)
                                                (message_entry_input s)) s1 in
      match store_posted_message E (engine s) (message_entry_input s)
              (cos_id selected) response with
      | Raise e => (Ok tt, log_item (message_post_error e) s2)
      | Ok st =>
          (Ok tt,
           add_event EvMessageLogUpdate
             (log_item {| title := "Message Post Success";
                          text := "Message sent to "
                                  ++ contact_name sel ++ "." |}
                (with_input "" (with_engine st s2))))
      end
  end.
Proof.
  intros (Hsel & Hin & Hc & Hget & Hval & Hkeys & Henc & Hct).
  unfold _post_message, message_posted. run.
  rewrite Hsel, (input_not_empty Hin), Hc. cbn [negb].
  rewrite Hget, Hval, Hkeys, Henc, Hct.
  destruct (post_message E (S (calls s)) (cos_verification_key selected) ct)
    as [response|[m|m|m]]; try reflexivity.
  cbv zeta. fields.
  now destruct (store_posted_message E (engine s) (message_entry_input s)
                  (cos_id selected) response) as [st|[m|m|m]].
Qed.

(** X16.  When the relay accepts the message and the local write works,
    [_post_message] stores the plaintext through [store_posted_message],
    empties the entry box, logs "Message Post Success" with the selected
    contact's name and refreshes the message log; the requests of the call
    are one encryption and one post, in that order. *)
Theorem post_message_success
    (Other : Type) (E : Env Other) (s : App Other)
    (sel obj : Contact) (selected : ContactOutputSchema)
    (first : FernetKeyOutput) (rest : list FernetKeyOutput)
    (data ct : bytes) (response : PostMessageResponseSchema)
    (st : Store Other) :
  ready_to_post E s sel obj selected first rest data ct ->
  post_message E (S (calls s)) (cos_verification_key selected) ct
    = Ok response ->
  store_posted_message E (engine s) (message_entry_input s)
    (cos_id selected) response = Ok st ->
  exists s',
    _post_message E s = (Ok tt, s') /\
    message_entry_input s' = "" /\
    engine s' = st /\
    output_log s' =
      output_log s ++
      [{| title := "Message Post Success";
          text := "Message sent to " ++ contact_name sel ++ "." |}] /\
    events s' =
      events s ++
      [EvFernetEncrypt (key first) data;
       EvPostMessage (cos_verification_key selected) ct;
       EvStorePostedMessage (cos_id selected) (message_entry_input s);
       EvMessageLogUpdate] /\
    connected s' = true.
Proof.
  intros Hready Hpost Hst.
  rewrite (post_message_ready_run Hready). cbv zeta. rewrite Hpost, Hst.
  eexists. split; [reflexivity|]. unfold message_posted. fields.
  destruct Hready as (_ & _ & Hc & _).
  repeat split; try assumption.
  now rewrite <- !app_assoc.
Qed.

Lemma fixture3_ready :
  ready_to_post Fixture.relay_up Fixture3.alice_ready
    Fixture.alice Fixture.alice Fixture3.alice_output
    Fixture3.newest_output Fixture3.older_outputs
    [x68; x69] [x62; x6d; x56; x33; x68; x69].
Proof.
  repeat split; discriminate.
Defined.

Lemma post_message_success_witness :
  exists s',
    _post_message Fixture.relay_up Fixture3.alice_ready = (Ok tt, s') /\
    message_entry_input s' = "".
Proof.
  destruct (@post_message_success unit Fixture.relay_up Fixture3.alice_ready
              Fixture.alice Fixture.alice Fixture3.alice_output
              Fixture3.newest_output Fixture3.older_outputs
              [x68; x69] [x62; x6d; x56; x33; x68; x69]
              Fixture.message_response (engine Fixture3.alice_ready)
              fixture3_ready eq_refl eq_refl)
    as (s' & Hrun & Hin & _).
  exists s'. split; [exact Hrun | exact Hin].
Defined.

(** X17.  When the relay does not accept the message, [_post_message]
    still returns normally: the typed text stays in the entry box, the
    local write is not attempted and the database is unchanged, and one
    item is added to the output log, titled after the class of the
    exception.  When the relay accepts the message and the local write then
    raises, the call returns normally as well, with the typed text kept and
    the same kind of log item, after the message has been sent. *)
Theorem post_message_failure_keeps_text
    (Other : Type) (E : Env Other) (s : App Other)
    (sel obj : Contact) (selected : ContactOutputSchema)
    (first : FernetKeyOutput) (rest : list FernetKeyOutput)
    (data ct : bytes) (e : exn) :
  ready_to_post E s sel obj selected first rest data ct ->
  (post_message E (S (calls s)) (cos_verification_key selected) ct = Raise e ->
   exists s',
     _post_message E s = (Ok tt, s') /\
     message_entry_input s' = message_entry_input s /\
     engine s' = engine s /\
     output_log s' = output_log s ++ [message_post_error e] /\
     events s' =
       events s ++
       [EvFernetEncrypt (key first) data;
        EvPostMessage (cos_verification_key selected) ct] /\
     connected s' = true) /\
  (forall response,
     post_message E (S (calls s)) (cos_verification_key selected) ct
       = Ok response ->
     store_posted_message E (engine s) (message_entry_input s)
       (cos_id selected) response = Raise e ->
     exists s',
       _post_message E s = (Ok tt, s') /\
       message_entry_input s' = message_entry_input s /\
       output_log s' = output_log s ++ [message_post_error e] /\
       events s' =
         events s ++
         [EvFernetEncrypt (key first) data;
          EvPostMessage (cos_verification_key selected) ct;
          EvStorePostedMessage (cos_id selected) (message_entry_input s)] /\
       connected s' = true).
Proof.
  intros Hready.
  rewrite (post_message_ready_run Hready). cbv zeta.
  destruct Hready as (_ & _ & Hc & _).
  split.
  - intros Hpost. rewrite Hpost. eexists. split; [reflexivity|].
    unfold message_posted. fields. repeat split; try assumption.
    now rewrite <- !app_assoc.
  - intros response Hpost Hst. rewrite Hpost, Hst.
    eexists. split; [reflexivity|].
    unfold message_posted. fields. repeat split; try assumption.
    now rewrite <- !app_assoc.
Qed.

Lemma fixture3_ready_rejecting :
  ready_to_post Fixture2.relay_rejects_messages Fixture3.alice_ready
    Fixture.alice Fixture.alice Fixture3.alice_output
    Fixture3.newest_output Fixture3.older_outputs
    [x68; x69] [x62; x6d; x56; x33; x68; x69].
Proof.
  repeat split; discriminate.
Defined.

Lemma post_message_failure_witness :
  exists s',
    _post_message Fixture2.relay_rejects_messages Fixture3.alice_ready
      = (Ok tt, s') /\
    message_entry_input s' = "hi".
Proof.
  destruct (@post_message_failure_keeps_text unit
              Fixture2.relay_rejects_messages Fixture3.alice_ready
              Fixture.alice Fixture.alice Fixture3.alice_output
              Fixture3.newest_output Fixture3.older_outputs
              [x68; x69] [x62; x6d; x56; x33; x68; x69]
              (HTTPStatusError "422 Unprocessable Entity")
              fixture3_ready_rejecting)
    as [Hrefused _].
  destruct (Hrefused eq_refl) as (s' & Hrun & Hin & _).
  exists s'. split; [exact Hrun | exact Hin].
Defined.

(** X18.  The validation of the stored key material happens outside the
    [try]: when a stored session key of the selected contact does not
    validate, the exception leaves [_post_message] with nothing logged and
    nothing changed. *)
Theorem post_message_invalid_stored_key_raises
    (Other : Type) (E : Env Other) (s : App Other) (sel obj : Contact)
    (e : exn) :
  selected_contact s = Some sel ->
  message_entry_input s <> "" ->
  connected s = true ->
  session_get_contact (engine s) (contact_id sel) = Some obj ->
  ContactOutputSchema_model_validate E (engine s) obj = Raise e ->
  _post_message E s = (Raise e, s).
Proof.
  intros Hsel Hin Hc Hget Hval. unfold _post_message. run.
  rewrite Hsel, (input_not_empty Hin), Hc. cbn [negb].
  now rewrite Hget, Hval.
Qed.

Lemma post_message_invalid_stored_key_witness :
  _post_message Fixture3.broken_keys Fixture3.alice_ready
  = (Raise (OtherException "ValidationError"), Fixture3.alice_ready).
Proof.
  apply (@post_message_invalid_stored_key_raises unit Fixture3.broken_keys
           Fixture3.alice_ready Fixture.alice Fixture.alice
           (OtherException "ValidationError") eq_refl);
    [discriminate | reflexivity | reflexivity | reflexivity].
Defined.

(** * The windows of the foreground loop *)

Local Open Scope Z_scope.

Lemma resolve_index_in_range (n : nat) (i : Z) :
  0 <= i < Z.of_nat n -> resolve_index n i = Some (Z.to_nat i).
Proof.
  intros H. unfold resolve_index.
  replace (0 <=? i) with true by (symmetry; apply Z.leb_le; lia).
  replace (i <? Z.of_nat n) with true by (symmetry; apply Z.ltb_lt; lia).
  reflexivity.
Qed.

Lemma py_index_in_range (A : Type) (l : list A) (i : Z) :
  0 <= i < Z.of_nat (List.length l) ->
  exists a, py_index l i = Ok a /\ nth_error l (Z.to_nat i) = Some a.
Proof.
  intros H. unfold py_index. rewrite (resolve_index_in_range _ H).
  destruct (nth_error l (Z.to_nat i)) as [a|] eqn:Hn.
  - now exists a.
  - apply nth_error_None in Hn. lia.
Qed.

Lemma require_draw_in_range (ws : list Window) (i : Z) :
  0 <= i < Z.of_nat (List.length ws) ->
  require_draw ws i = Ok (update_nth flag_draw ws (Z.to_nat i)).
Proof.
  intros H. unfold require_draw. now rewrite (resolve_index_in_range _ H).
Qed.

Lemma update_nth_length (A : Type) (f : A -> A) (l : list A) (k : nat) :
  List.length (update_nth f l k) = List.length l.
Proof.
  revert k. induction l as [|a l IH]; intros k; [reflexivity|].
  destruct k; cbn; [reflexivity | now rewrite IH].
Qed.

Lemma update_nth_nth_error (A : Type) (f : A -> A) (l : list A) (k j : nat) :
  nth_error (update_nth f l k) j =
  if Nat.eqb j k then option_map f (nth_error l j) else nth_error l j.
Proof.
  revert k j. induction l as [|a l IH]; intros k j.
  - cbn. destruct j; now destruct (Nat.eqb _ k).
  - destruct k, j; cbn; try reflexivity. apply IH.
Qed.

Lemma flag_draw_focusable (ws : list Window) (k : nat) :
  map focusable (update_nth flag_draw ws k) = map focusable ws.
Proof.
  revert k. induction ws as [|w ws IH]; intros k; [reflexivity|].
  destruct k; cbn; [reflexivity | now rewrite IH].
Qed.

Lemma focusable_at_flag_draw (ws : list Window) (k : nat) (p : Z) :
  focusable_at (update_nth flag_draw ws k) p = focusable_at ws p.
Proof.
  unfold focusable_at, py_index. rewrite update_nth_length.
  destruct (resolve_index (List.length ws) p) as [j|]; [|reflexivity].
  rewrite update_nth_nth_error.
  destruct (Nat.eqb j k); [|reflexivity].
  now destruct (nth_error ws j).
Qed.

Lemma step_forward_mod (n i : Z) :
  0 <= i < n ->
  (if n <=? i + 1 then 0 else i + 1) = (i + 1) mod n.
Proof.
  intros H. destruct (n <=? i + 1) eqn:Hle.
  - apply Z.leb_le in Hle. replace (i + 1) with n by lia.
    now rewrite Z.mod_same by lia.
  - apply Z.leb_gt in Hle. now rewrite Z.mod_small by lia.
Qed.

Lemma step_back_mod (n i : Z) :
  0 <= i < n ->
  (if i - 1 <? 0 then n - 1 else i - 1) = (i - 1) mod n.
Proof.
  intros H. destruct (i - 1 <? 0) eqn:Hlt.
  - apply Z.ltb_lt in Hlt. replace (i - 1) with (n - 1 + (-1) * n) by lia.
    rewrite Z.mod_add by lia. now rewrite Z.mod_small by lia.
  - apply Z.ltb_ge in Hlt. now rewrite Z.mod_small by lia.
Qed.

Lemma mod_in_range (n a : Z) : 0 < n -> 0 <= a mod n < n.
Proof. intros H. apply Z.mod_pos_bound. exact H. Qed.

(** What the forward loop returns, by the first window that can take the
    focus among the [passes] positions after the current one. *)
Lemma next_window_loop_spec (passes : nat) :
  forall (ws : list Window) (i : Z),
    let n := Z.of_nat (List.length ws) in
    0 <= i < n ->
    (exists k,
        1 <= k <= Z.of_nat passes /\
        focusable_at ws ((i + k) mod n) = true /\
        (forall j, 1 <= j < k -> focusable_at ws ((i + j) mod n) = false) /\
        next_window_loop passes ws i =
          Ok (update_nth flag_draw ws (Z.to_nat ((i + k) mod n)),
              (i + k) mod n)) \/
    ((forall j, 1 <= j <= Z.of_nat passes ->
                focusable_at ws ((i + j) mod n) = false) /\
     next_window_loop passes ws i = Ok (ws, (i + Z.of_nat passes) mod n)).
Proof.
  induction passes as [|passes IH]; intros ws i n Hi.
  - right. split; [intros j Hj; lia|].
    cbn [next_window_loop Z.of_nat]. rewrite Z.add_0_r.
    now rewrite Z.mod_small by lia.
  - cbn [next_window_loop]. fold n. rewrite (step_forward_mod Hi).
    assert (Hn : 0 < n) by lia.
    pose proof (mod_in_range (i + 1) Hn) as Hi2.
    destruct (py_index_in_range ws Hi2) as (w & Hw & _).
    rewrite Hw. cbn [rbind].
    assert (Hat : focusable_at ws ((i + 1) mod n) = focusable w).
    { unfold focusable_at. now rewrite Hw. }
    destruct (focusable w) eqn:Hf.
    + left. exists 1. split; [lia|]. split; [exact Hat|].
      split; [intros j Hj; lia|].
      now rewrite (require_draw_in_range ws Hi2).
    + destruct (IH ws ((i + 1) mod n) Hi2)
        as [(k & Hk & Hfk & Hbefore & Hrun)|(Hnone & Hrun)].
      * left. exists (k + 1).
        assert (Heq : forall j, ((i + 1) mod n + j) mod n = (i + (j + 1)) mod n).
        { intros j. rewrite Z.add_mod_idemp_l by lia. f_equal. lia. }
        rewrite Heq in Hfk, Hrun.
        split; [lia|]. split; [exact Hfk|]. split; [|exact Hrun].
        intros j Hj. destruct (Z.eq_dec j 1) as [->|Hne]; [exact Hat|].
        replace j with ((j - 1) + 1) by lia. rewrite <- Heq.
        apply Hbefore. lia.
      * right. split.
        -- intros j Hj. destruct (Z.eq_dec j 1) as [->|Hne]; [exact Hat|].
           replace (i + j) with (i + 1 + (j - 1)) by lia.
           rewrite <- Z.add_mod_idemp_l by lia. apply Hnone. lia.
        -- rewrite Hrun. f_equal. f_equal.
           rewrite Z.add_mod_idemp_l by lia. f_equal. lia.
Qed.

Lemma next_window_loop_spec_at (passes : nat) (ws : list Window) (i : Z) :
  0 <= i < Z.of_nat (List.length ws) ->
  (exists k,
      1 <= k <= Z.of_nat passes /\
      focusable_at ws ((i + k) mod Z.of_nat (List.length ws)) = true /\
      (forall j, 1 <= j < k ->
         focusable_at ws ((i + j) mod Z.of_nat (List.length ws)) = false) /\
      next_window_loop passes ws i =
        Ok (update_nth flag_draw ws
              (Z.to_nat ((i + k) mod Z.of_nat (List.length ws))),
            (i + k) mod Z.of_nat (List.length ws))) \/
  ((forall j, 1 <= j <= Z.of_nat passes ->
      focusable_at ws ((i + j) mod Z.of_nat (List.length ws)) = false) /\
   next_window_loop passes ws i =
     Ok (ws, (i + Z.of_nat passes) mod Z.of_nat (List.length ws))).
Proof. intros H. exact (next_window_loop_spec passes ws H). Qed.

(** The same for the backward loop. *)
Lemma prev_window_loop_spec_at (passes : nat) :
  forall (ws : list Window) (i : Z),
    0 <= i < Z.of_nat (List.length ws) ->
    (exists k,
        1 <= k <= Z.of_nat passes /\
        focusable_at ws ((i - k) mod Z.of_nat (List.length ws)) = true /\
        (forall j, 1 <= j < k ->
           focusable_at ws ((i - j) mod Z.of_nat (List.length ws)) = false) /\
        prev_window_loop passes ws i =
          Ok (update_nth flag_draw ws
                (Z.to_nat ((i - k) mod Z.of_nat (List.length ws))),
              (i - k) mod Z.of_nat (List.length ws))) \/
    ((forall j, 1 <= j <= Z.of_nat passes ->
        focusable_at ws ((i - j) mod Z.of_nat (List.length ws)) = false) /\
     prev_window_loop passes ws i =
       Ok (ws, (i - Z.of_nat passes) mod Z.of_nat (List.length ws))).
Proof.
  induction passes as [|passes IH]; intros ws i Hi.
  - right. split; [intros j Hj; lia|].
    cbn [prev_window_loop Z.of_nat]. rewrite Z.sub_0_r.
    now rewrite Z.mod_small by lia.
  - set (n := Z.of_nat (List.length ws)) in *.
    cbn [prev_window_loop]. fold n. rewrite (step_back_mod Hi).
    assert (Hn : 0 < n) by lia.
    pose proof (mod_in_range (i - 1) Hn) as Hi2.
    destruct (py_index_in_range ws Hi2) as (w & Hw & _).
    rewrite Hw. cbn [rbind].
    assert (Hat : focusable_at ws ((i - 1) mod n) = focusable w).
    { unfold focusable_at. now rewrite Hw. }
    assert (Heq : forall j, ((i - 1) mod n - j) mod n = (i - (j + 1)) mod n).
    { intros j. replace ((i - 1) mod n - j) with ((i - 1) mod n + (- j)) by lia.
      rewrite Z.add_mod_idemp_l by lia. f_equal. lia. }
    destruct (focusable w) eqn:Hf.
    + left. exists 1. split; [lia|]. split; [exact Hat|].
      split; [intros j Hj; lia|].
      now rewrite (require_draw_in_range ws Hi2).
    + destruct (IH ws ((i - 1) mod n) Hi2)
        as [(k & Hk & Hfk & Hbefore & Hrun)|(Hnone & Hrun)].
      * fold n in Hfk, Hbefore, Hrun. left. exists (k + 1).
        rewrite Heq in Hfk, Hrun.
        split; [lia|]. split; [exact Hfk|]. split; [|exact Hrun].
        intros j Hj. destruct (Z.eq_dec j 1) as [->|Hne]; [exact Hat|].
        replace j with ((j - 1) + 1) by lia. rewrite <- Heq.
        apply Hbefore. lia.
      * fold n in Hnone, Hrun. right. split.
        -- intros j Hj. destruct (Z.eq_dec j 1) as [->|Hne]; [exact Hat|].
           replace j with ((j - 1) + 1) by lia. rewrite <- Heq.
           apply Hnone. lia.
        -- rewrite Hrun. f_equal. f_equal. rewrite Heq. f_equal. lia.
Qed.

(** Every position is reached from any other within one round. *)
Lemma forward_reaches (n i p : Z) :
  0 <= i < n -> 0 <= p < n ->
  exists j, 1 <= j <= n /\ (i + j) mod n = p.
Proof.
  intros Hi Hp.
  destruct (Z.eq_dec p i) as [->|Hne].
  - exists n. split; [lia|].
    replace (i + n) with (i + 1 * n) by lia.
    rewrite Z.mod_add by lia. now rewrite Z.mod_small by lia.
  - exists ((p - i) mod n).
    assert (Hr : 0 <= (p - i) mod n < n) by (apply mod_in_range; lia).
    split.
    + assert ((p - i) mod n <> 0); [|lia].
      intros H0. apply Z.mod_divide in H0; [|lia].
      destruct H0 as [q Hq].
      assert (Hq3 : q = 0 \/ 1 <= q \/ q <= -1) by lia.
      destruct Hq3 as [->|[Hq1|Hq1]]; [lia | nia | nia].
    + rewrite Z.add_mod_idemp_r by lia.
      replace (i + (p - i)) with p by lia. now rewrite Z.mod_small by lia.
Qed.

Lemma backward_reaches (n i p : Z) :
  0 <= i < n -> 0 <= p < n ->
  exists j, 1 <= j <= n /\ (i - j) mod n = p.
Proof.
  intros Hi Hp.
  destruct (Z.eq_dec p i) as [->|Hne].
  - exists n. split; [lia|].
    replace (i - n) with (i + (-1) * n) by lia.
    rewrite Z.mod_add by lia. now rewrite Z.mod_small by lia.
  - exists ((i - p) mod n).
    assert (Hr : 0 <= (i - p) mod n < n) by (apply mod_in_range; lia).
    split.
    + assert ((i - p) mod n <> 0); [|lia].
      intros H0. apply Z.mod_divide in H0; [|lia].
      destruct H0 as [q Hq].
      assert (Hq3 : q = 0 \/ 1 <= q \/ q <= -1) by lia.
      destruct Hq3 as [->|[Hq1|Hq1]]; [lia | nia | nia].
    + pose proof (Z.div_mod (i - p) n ltac:(lia)) as Hdm.
      replace (i - (i - p) mod n) with (p + ((i - p) / n) * n) by lia.
      rewrite Z.mod_add by lia. now rewrite Z.mod_small by lia.
Qed.

Lemma next_window_spec (ws : list Window) (i : Z) :
  0 <= i < Z.of_nat (List.length ws) ->
  (exists k,
      1 <= k <= Z.of_nat (List.length ws) /\
      focusable_at ws ((i + k) mod Z.of_nat (List.length ws)) = true /\
      (forall j, 1 <= j < k ->
         focusable_at ws ((i + j) mod Z.of_nat (List.length ws)) = false) /\
      next_window ws i =
        Ok (update_nth flag_draw (update_nth flag_draw ws (Z.to_nat i))
              (Z.to_nat ((i + k) mod Z.of_nat (List.length ws))),
            (i + k) mod Z.of_nat (List.length ws))) \/
  ((forall p, 0 <= p < Z.of_nat (List.length ws) -> focusable_at ws p = false) /\
   next_window ws i = Ok (update_nth flag_draw ws (Z.to_nat i), i)).
Proof.
  intros Hi. unfold next_window.
  rewrite (require_draw_in_range ws Hi). cbn [rbind].
  set (ws1 := update_nth flag_draw ws (Z.to_nat i)).
  assert (Hlen : List.length ws1 = List.length ws) by apply update_nth_length.
  assert (Hi1 : 0 <= i < Z.of_nat (List.length ws1)) by (rewrite Hlen; exact Hi).
  assert (Hfoc : forall p, focusable_at ws1 p = focusable_at ws p)
    by (intros p; apply focusable_at_flag_draw).
  destruct (next_window_loop_spec_at (List.length ws1) ws1 Hi1)
    as [(k & Hk & Hfk & Hbefore & Hrun)|(Hnone & Hrun)];
    rewrite ?Hlen, ?Hfoc in *.
  - left. exists k. split; [exact Hk|]. split; [exact Hfk|].
    split; [|exact Hrun].
    intros j Hj. rewrite <- Hfoc. apply Hbefore. exact Hj.
  - right. split.
    + intros p Hp.
      destruct (forward_reaches Hi Hp) as (j & Hj & <-).
      rewrite <- Hfoc. apply Hnone. exact Hj.
    + rewrite Hrun. f_equal. f_equal.
      replace (i + Z.of_nat (List.length ws))
        with (i + 1 * Z.of_nat (List.length ws)) by lia.
      rewrite Z.mod_add by lia. now rewrite Z.mod_small by lia.
Qed.

Lemma prev_window_spec (ws : list Window) (i : Z) :
  0 <= i < Z.of_nat (List.length ws) ->
  (exists k,
      1 <= k <= Z.of_nat (List.length ws) /\
      focusable_at ws ((i - k) mod Z.of_nat (List.length ws)) = true /\
      (forall j, 1 <= j < k ->
         focusable_at ws ((i - j) mod Z.of_nat (List.length ws)) = false) /\
      prev_window ws i =
        Ok (update_nth flag_draw (update_nth flag_draw ws (Z.to_nat i))
              (Z.to_nat ((i - k) mod Z.of_nat (List.length ws))),
            (i - k) mod Z.of_nat (List.length ws))) \/
  ((forall p, 0 <= p < Z.of_nat (List.length ws) -> focusable_at ws p = false) /\
   prev_window ws i = Ok (update_nth flag_draw ws (Z.to_nat i), i)).
Proof.
  intros Hi. unfold prev_window.
  rewrite (require_draw_in_range ws Hi). cbn [rbind].
  set (ws1 := update_nth flag_draw ws (Z.to_nat i)).
  assert (Hlen : List.length ws1 = List.length ws) by apply update_nth_length.
  assert (Hi1 : 0 <= i < Z.of_nat (List.length ws1)) by (rewrite Hlen; exact Hi).
  assert (Hfoc : forall p, focusable_at ws1 p = focusable_at ws p)
    by (intros p; apply focusable_at_flag_draw).
  destruct (prev_window_loop_spec_at (List.length ws1) ws1 Hi1)
    as [(k & Hk & Hfk & Hbefore & Hrun)|(Hnone & Hrun)];
    rewrite ?Hlen, ?Hfoc in *.
  - left. exists k. split; [exact Hk|]. split; [exact Hfk|].
    split; [|exact Hrun].
    intros j Hj. rewrite <- Hfoc. apply Hbefore. exact Hj.
  - right. split.
    + intros p Hp.
      destruct (backward_reaches Hi Hp) as (j & Hj & <-).
      rewrite <- Hfoc. apply Hnone. exact Hj.
    + rewrite Hrun. f_equal. f_equal.
      replace (i - Z.of_nat (List.length ws))
        with (i + (-1) * Z.of_nat (List.length ws)) by lia.
      rewrite Z.mod_add by lia. now rewrite Z.mod_small by lia.
Qed.

(** X19.  Moving the focus keeps the index inside the list of windows and
    changes nothing of the windows but their [draw_required] flags, in both
    directions. *)
Theorem focus_move_stays_in_range (ws : list Window) (i : Z) :
  0 <= i < Z.of_nat (List.length ws) ->
  (exists ws' i',
      next_window ws i = Ok (ws', i') /\
      0 <= i' < Z.of_nat (List.length ws) /\
      List.length ws' = List.length ws /\
      map focusable ws' = map focusable ws) /\
  (exists ws' i',
      prev_window ws i = Ok (ws', i') /\
      0 <= i' < Z.of_nat (List.length ws) /\
      List.length ws' = List.length ws /\
      map focusable ws' = map focusable ws).
Proof.
  intros Hi.
  assert (Hn : 0 < Z.of_nat (List.length ws)) by lia.
  split.
  - destruct (next_window_spec ws Hi) as [(k & _ & _ & _ & Hrun)|(_ & Hrun)];
      rewrite Hrun; eexists; eexists; (split; [reflexivity|]).
    + split; [apply mod_in_range; exact Hn|].
      now rewrite !update_nth_length, !flag_draw_focusable.
    + split; [exact Hi|].
      now rewrite !update_nth_length, !flag_draw_focusable.
  - destruct (prev_window_spec ws Hi) as [(k & _ & _ & _ & Hrun)|(_ & Hrun)];
      rewrite Hrun; eexists; eexists; (split; [reflexivity|]).
    + split; [apply mod_in_range; exact Hn|].
      now rewrite !update_nth_length, !flag_draw_focusable.
    + split; [exact Hi|].
      now rewrite !update_nth_length, !flag_draw_focusable.
Qed.

Lemma focus_move_stays_in_range_witness :
  exists ws' i',
    next_window Screen.windows 3 = Ok (ws', i') /\
    0 <= i' < 6.
Proof.
  destruct (proj1 (@focus_move_stays_in_range Screen.windows 3
                     ltac:(cbn; lia)))
    as (ws' & i' & Hrun & Hrange & _).
  exists ws', i'. split; [exact Hrun | exact Hrange].
Defined.

(** X20.  When some window can take the focus, [NEXT_WINDOW] moves the
    focus to the nearest such window after the current one, wrapping at the
    end of the list; [PREV_WINDOW] moves it to the nearest one before,
    wrapping at the start.  The windows skipped over cannot take the
    focus. *)
Theorem focus_moves_to_nearest_focusable (ws : list Window) (i p : Z) :
  0 <= i < Z.of_nat (List.length ws) ->
  0 <= p < Z.of_nat (List.length ws) ->
  focusable_at ws p = true ->
  (exists ws' k,
      1 <= k <= Z.of_nat (List.length ws) /\
      next_window ws i = Ok (ws', (i + k) mod Z.of_nat (List.length ws)) /\
      focusable_at ws ((i + k) mod Z.of_nat (List.length ws)) = true /\
      (forall j, 1 <= j < k ->
         focusable_at ws ((i + j) mod Z.of_nat (List.length ws)) = false)) /\
  (exists ws' k,
      1 <= k <= Z.of_nat (List.length ws) /\
      prev_window ws i = Ok (ws', (i - k) mod Z.of_nat (List.length ws)) /\
      focusable_at ws ((i - k) mod Z.of_nat (List.length ws)) = true /\
      (forall j, 1 <= j < k ->
         focusable_at ws ((i - j) mod Z.of_nat (List.length ws)) = false)).
Proof.
  intros Hi Hp Hfp. split.
  - destruct (next_window_spec ws Hi)
      as [(k & Hk & Hfk & Hbefore & Hrun)|(Hnone & _)].
    + eexists. exists k. split; [exact Hk|]. split; [exact Hrun|].
      split; [exact Hfk | exact Hbefore].
    + rewrite (Hnone p Hp) in Hfp. discriminate.
  - destruct (prev_window_spec ws Hi)
      as [(k & Hk & Hfk & Hbefore & Hrun)|(Hnone & _)].
    + eexists. exists k. split; [exact Hk|]. split; [exact Hrun|].
      split; [exact Hfk | exact Hbefore].
    + rewrite (Hnone p Hp) in Hfp. discriminate.
Qed.

Lemma focus_moves_to_nearest_witness :
  exists ws' k,
    1 <= k <= 6 /\
    next_window Screen.windows 1 = Ok (ws', (1 + k) mod 6) /\
    focusable_at Screen.windows ((1 + k) mod 6) = true.
Proof.
  destruct (proj1 (@focus_moves_to_nearest_focusable Screen.windows 1 0
                     ltac:(cbn; lia) ltac:(cbn; lia) eq_refl))
    as (ws' & k & Hk & Hrun & Hf & _).
  exists ws', k. split; [exact Hk|]. split; [exact Hrun | exact Hf].
Defined.

Example next_window_skips_labels :
  next_window Screen.windows 1 =
  Ok ([Screen.panel; flag_draw Screen.panel; Screen.label;
       flag_draw Screen.panel; Screen.label; Screen.label], 3).
Proof. reflexivity. Qed.

Example next_window_wraps :
  next_window Screen.windows 3 =
  Ok ([flag_draw Screen.panel; Screen.panel; Screen.label;
       flag_draw Screen.panel; Screen.label; Screen.label], 0).
Proof. reflexivity. Qed.

(** X21.  When no window can take the focus, both moves leave the focus
    where it is; the current window is marked for drawing and nothing else
    changes. *)
Theorem focus_stays_when_nothing_is_focusable (ws : list Window) (i : Z) :
  0 <= i < Z.of_nat (List.length ws) ->
  (forall p, 0 <= p < Z.of_nat (List.length ws) -> focusable_at ws p = false) ->
  next_window ws i = Ok (update_nth flag_draw ws (Z.to_nat i), i) /\
  prev_window ws i = Ok (update_nth flag_draw ws (Z.to_nat i), i).
Proof.
  intros Hi Hnone.
  assert (Hn : 0 < Z.of_nat (List.length ws)) by lia.
  split.
  - destruct (next_window_spec ws Hi) as [(k & _ & Hfk & _)|(_ & Hrun)];
      [|exact Hrun].
    rewrite Hnone in Hfk by (apply mod_in_range; exact Hn). discriminate.
  - destruct (prev_window_spec ws Hi) as [(k & _ & Hfk & _)|(_ & Hrun)];
      [|exact Hrun].
    rewrite Hnone in Hfk by (apply mod_in_range; exact Hn). discriminate.
Qed.

Lemma focus_stays_witness :
  next_window [Screen.label; Screen.label] 1 =
  Ok ([Screen.label; flag_draw Screen.label], 1).
Proof.
  refine (proj1 (@focus_stays_when_nothing_is_focusable
                   [Screen.label; Screen.label] 1 ltac:(cbn; lia) _)).
  intros p Hp. cbn in Hp.
  assert (Hp2 : p = 0 \/ p = 1) by lia.
  destruct Hp2 as [->| ->]; reflexivity.
Defined.

Lemma shift_back (n i k j : Z) :
  0 < n -> ((i + k) mod n - j) mod n = (i + (k - j)) mod n.
Proof.
  intros Hn. replace ((i + k) mod n - j) with ((i + k) mod n + (- j)) by lia.
  rewrite Z.add_mod_idemp_l by lia. f_equal. lia.
Qed.

Lemma shift_forth (n i k j : Z) :
  0 < n -> ((i - k) mod n + j) mod n = (i - (k - j)) mod n.
Proof.
  intros Hn. rewrite Z.add_mod_idemp_l by lia. f_equal. lia.
Qed.

(** X22.  From a window that can take the focus, [PREV_WINDOW] after
    [NEXT_WINDOW] brings the focus back to it, and so does [NEXT_WINDOW]
    after [PREV_WINDOW]. *)
Theorem focus_moves_undo_each_other (ws : list Window) (i : Z) :
  0 <= i < Z.of_nat (List.length ws) ->
  focusable_at ws i = true ->
  (exists ws1 i1 ws2,
      next_window ws i = Ok (ws1, i1) /\ prev_window ws1 i1 = Ok (ws2, i)) /\
  (exists ws1 i1 ws2,
      prev_window ws i = Ok (ws1, i1) /\ next_window ws1 i1 = Ok (ws2, i)).
Proof.
  intros Hi Hfi.
  set (n := Z.of_nat (List.length ws)) in *.
  assert (Hn : 0 < n) by lia.
  split.
  - destruct (next_window_spec ws Hi)
      as [(k & Hk & Hfk & Hbefore & Hrun)|(Hnone & _)];
      [|rewrite (Hnone i Hi) in Hfi; discriminate].
    fold n in Hk, Hfk, Hbefore, Hrun.
    set (ws1 := update_nth flag_draw (update_nth flag_draw ws (Z.to_nat i))
                  (Z.to_nat ((i + k) mod n))) in *.
    assert (Hlen : List.length ws1 = List.length ws)
      by (unfold ws1; now rewrite !update_nth_length).
    assert (Hfoc : forall q, focusable_at ws1 q = focusable_at ws q)
      by (intros q; unfold ws1; now rewrite !focusable_at_flag_draw).
    assert (Hi1 : 0 <= (i + k) mod n < Z.of_nat (List.length ws1))
      by (rewrite Hlen; apply mod_in_range; exact Hn).
    destruct (prev_window_spec ws1 Hi1)
      as [(k2 & Hk2 & Hfk2 & Hbefore2 & Hrun2)|(Hnone & _)].
    + rewrite Hlen in Hk2, Hfk2, Hbefore2, Hrun2.
      fold n in Hk2, Hfk2, Hbefore2, Hrun2.
      rewrite Hfoc in Hfk2. rewrite (shift_back i k k2 Hn) in Hfk2, Hrun2.
      assert (Hkk : k2 = k).
      { destruct (Z.lt_trichotomy k2 k) as [Hlt|[Heq|Hgt]]; [|exact Heq|].
        - rewrite Hbefore in Hfk2 by lia. discriminate.
        - specialize (Hbefore2 k ltac:(lia)).
          rewrite Hfoc, (shift_back i k k Hn) in Hbefore2.
          replace (i + (k - k)) with i in Hbefore2 by lia.
          rewrite (Z.mod_small i n) in Hbefore2 by exact Hi.
          rewrite Hfi in Hbefore2. discriminate. }
      subst k2. replace (i + (k - k)) with i in Hrun2 by lia.
      rewrite (Z.mod_small i n) in Hrun2 by exact Hi.
      exists ws1, ((i + k) mod n). eexists. split; [exact Hrun | exact Hrun2].
    + rewrite Hlen in Hnone. rewrite <- Hfoc in Hfi.
      rewrite (Hnone i Hi) in Hfi. discriminate.
  - destruct (prev_window_spec ws Hi)
      as [(k & Hk & Hfk & Hbefore & Hrun)|(Hnone & _)];
      [|rewrite (Hnone i Hi) in Hfi; discriminate].
    fold n in Hk, Hfk, Hbefore, Hrun.
    set (ws1 := update_nth flag_draw (update_nth flag_draw ws (Z.to_nat i))
                  (Z.to_nat ((i - k) mod n))) in *.
    assert (Hlen : List.length ws1 = List.length ws)
      by (unfold ws1; now rewrite !update_nth_length).
    assert (Hfoc : forall q, focusable_at ws1 q = focusable_at ws q)
      by (intros q; unfold ws1; now rewrite !focusable_at_flag_draw).
    assert (Hi1 : 0 <= (i - k) mod n < Z.of_nat (List.length ws1))
      by (rewrite Hlen; apply mod_in_range; exact Hn).
    destruct (next_window_spec ws1 Hi1)
      as [(k2 & Hk2 & Hfk2 & Hbefore2 & Hrun2)|(Hnone & _)].
    + rewrite Hlen in Hk2, Hfk2, Hbefore2, Hrun2.
      fold n in Hk2, Hfk2, Hbefore2, Hrun2.
      rewrite Hfoc in Hfk2. rewrite (shift_forth i k k2 Hn) in Hfk2, Hrun2.
      assert (Hkk : k2 = k).
      { destruct (Z.lt_trichotomy k2 k) as [Hlt|[Heq|Hgt]]; [|exact Heq|].
        - rewrite Hbefore in Hfk2 by lia. discriminate.
        - specialize (Hbefore2 k ltac:(lia)).
          rewrite Hfoc, (shift_forth i k k Hn) in Hbefore2.
          replace (i - (k - k)) with i in Hbefore2 by lia.
          rewrite (Z.mod_small i n) in Hbefore2 by exact Hi.
          rewrite Hfi in Hbefore2. discriminate. }
      subst k2. replace (i - (k - k)) with i in Hrun2 by lia.
      rewrite (Z.mod_small i n) in Hrun2 by exact Hi.
      exists ws1, ((i - k) mod n). eexists. split; [exact Hrun | exact Hrun2].
    + rewrite Hlen in Hnone. rewrite <- Hfoc in Hfi.
      rewrite (Hnone i Hi) in Hfi. discriminate.
Qed.

Lemma focus_moves_undo_witness :
  exists ws1 i1 ws2,
    next_window Screen.windows 3 = Ok (ws1, i1) /\
    prev_window ws1 i1 = Ok (ws2, 3).
Proof.
  exact (proj1 (@focus_moves_undo_each_other Screen.windows 3
                  ltac:(cbn; lia) eq_refl)).
Defined.

(** ** The drawing loop *)

Lemma draw_windows_from_spec (ws : list Window) :
  forall (index f : Z),
    List.length (snd (draw_windows_from index ws f)) = List.length ws /\
    map focusable (snd (draw_windows_from index ws f)) = map focusable ws /\
    Forall (fun w => draw_required w = false)
           (snd (draw_windows_from index ws f)) /\
    (forall idx b,
        In (idx, b) (fst (draw_windows_from index ws f)) <->
        exists k w,
          idx = index + Z.of_nat k /\ nth_error ws k = Some w /\
          draw_required w = true /\ b = Z.eqb idx f) /\
    StronglySorted Z.lt (map fst (fst (draw_windows_from index ws f))).
Proof.
  induction ws as [|w ws IH]; intros index f.
  - cbn. repeat split; try constructor.
    + intros [].
    + intros (k & w & _ & Hn & _). destruct k; discriminate.
  - cbn [draw_windows_from].
    destruct (IH (index + 1) f) as (Hlen & Hfoc & Hall & Hin & Hsorted).
    destruct (draw_windows_from (index + 1) ws f) as [drawn rest'].
    cbn [fst snd] in *.
    assert (Hlow : forall idx b, In (idx, b) drawn -> index < idx).
    { intros idx b H. apply Hin in H as (k & _ & -> & _). lia. }
    destruct (draw_required w) eqn:Hw; cbn [fst snd List.length map].
    + split; [now rewrite Hlen|]. split; [now rewrite Hfoc|].
      split; [constructor; [reflexivity | exact Hall]|].
      split.
      * intros idx b. split.
        -- intros [Heq|H].
           ++ injection Heq as <- <-. exists 0%nat, w.
              cbn. repeat split; [lia | exact Hw].
           ++ apply Hin in H as (k & w' & -> & Hn & Hd & ->).
              exists (S k), w'. cbn. repeat split; try assumption; lia.
        -- intros (k & w' & -> & Hn & Hd & ->). destruct k as [|k].
           ++ left. f_equal; [cbn; lia | f_equal; cbn; lia].
           ++ right. apply Hin. exists k, w'.
              cbn in Hn. repeat split; try assumption; try lia;
                try (f_equal; lia).
      * constructor; [exact Hsorted|].
        apply Forall_forall. intros idx Hidx.
        apply in_map_iff in Hidx as ([idx' b] & <- & H). cbn.
        exact (Hlow idx' b H).
    + split; [now rewrite Hlen|]. split; [now rewrite Hfoc|].
      split; [constructor; [exact Hw | exact Hall]|].
      split; [|exact Hsorted].
      intros idx b. split.
      * intros H. apply Hin in H as (k & w' & -> & Hn & Hd & ->).
        exists (S k), w'. cbn. repeat split; try assumption; lia.
      * intros (k & w' & -> & Hn & Hd & ->). destruct k as [|k].
        -- cbn in Hn. injection Hn as <-. rewrite Hw in Hd. discriminate.
        -- apply Hin. exists k, w'.
           cbn in Hn. repeat split; try assumption; try lia;
             try (f_equal; lia).
Qed.

Lemma draw_required_at_nth (ws : list Window) (idx : Z) :
  draw_required_at ws idx = true /\ 0 <= idx < Z.of_nat (List.length ws) <->
  exists k w,
    idx = 0 + Z.of_nat k /\ nth_error ws k = Some w /\ draw_required w = true.
Proof.
  split.
  - intros [Hd Hidx]. unfold draw_required_at in Hd.
    destruct (py_index_in_range ws Hidx) as (w & Hw & Hn).
    rewrite Hw in Hd. exists (Z.to_nat idx), w.
    repeat split; try assumption. lia.
  - intros (k & w & -> & Hn & Hd).
    assert (Hk : (k < List.length ws)%nat)
      by (apply nth_error_Some; now rewrite Hn).
    assert (Hidx : 0 <= 0 + Z.of_nat k < Z.of_nat (List.length ws)) by lia.
    split; [|exact Hidx].
    unfold draw_required_at.
    destruct (py_index_in_range ws Hidx) as (w' & Hw' & Hn').
    rewrite Hw'. replace (Z.to_nat (0 + Z.of_nat k)) with k in Hn' by lia.
    rewrite Hn in Hn'. now injection Hn' as <-.
Qed.

Lemma draw_windows_in (ws : list Window) (f idx : Z) (b : bool) :
  In (idx, b) (fst (draw_windows ws f)) <->
  draw_required_at ws idx = true /\
  0 <= idx < Z.of_nat (List.length ws) /\
  b = Z.eqb idx f.
Proof.
  unfold draw_windows.
  destruct (draw_windows_from_spec ws 0 f) as (_ & _ & _ & Hin & _).
  rewrite Hin. split.
  - intros (k & w & Hidx & Hn & Hd & Hb).
    destruct (proj2 (draw_required_at_nth ws idx)) as [H1 H2].
    { now exists k, w. }
    now repeat split.
  - intros (Hd & Hidx & Hb).
    destruct (proj1 (draw_required_at_nth ws idx) (conj Hd Hidx))
      as (k & w & H1 & H2 & H3).
    now exists k, w.
Qed.

(** X23.  The drawing loop at the head of [_loop_iteration] draws each
    window that is marked, once and in list order, tells a window that it
    has the focus exactly when its index is [focus_index], and leaves no
    window marked; it changes nothing else. *)
Theorem draw_loop_draws_marked_windows_once (ws : list Window) (f : Z) :
  List.length (snd (draw_windows ws f)) = List.length ws /\
  map focusable (snd (draw_windows ws f)) = map focusable ws /\
  Forall (fun w => draw_required w = false) (snd (draw_windows ws f)) /\
  (forall idx b,
      In (idx, b) (fst (draw_windows ws f)) <->
      draw_required_at ws idx = true /\
      0 <= idx < Z.of_nat (List.length ws) /\
      b = Z.eqb idx f) /\
  StronglySorted Z.lt (map fst (fst (draw_windows ws f))).
Proof.
  split; [|split; [|split; [|split]]].
  - unfold draw_windows.
    exact (proj1 (draw_windows_from_spec ws 0 f)).
  - unfold draw_windows.
    exact (proj1 (proj2 (draw_windows_from_spec ws 0 f))).
  - unfold draw_windows.
    exact (proj1 (proj2 (proj2 (draw_windows_from_spec ws 0 f)))).
  - intros idx b. apply draw_windows_in.
  - unfold draw_windows.
    exact (proj2 (proj2 (proj2 (proj2 (draw_windows_from_spec ws 0 f))))).
Qed.

Lemma draw_required_at_flag_draw (ws : list Window) (k : Z) (idx : Z) :
  0 <= idx < Z.of_nat (List.length ws) ->
  0 <= k < Z.of_nat (List.length ws) ->
  draw_required_at (update_nth flag_draw ws (Z.to_nat k)) idx =
  Z.eqb idx k || draw_required_at ws idx.
Proof.
  intros Hidx Hk. unfold draw_required_at, py_index.
  rewrite update_nth_length, (resolve_index_in_range _ Hidx).
  rewrite update_nth_nth_error.
  destruct (nth_error ws (Z.to_nat idx)) as [w|] eqn:Hn.
  - destruct (Z.eqb idx k) eqn:Heq.
    + apply Z.eqb_eq in Heq. subst k. now rewrite Nat.eqb_refl.
    + apply Z.eqb_neq in Heq.
      replace (Nat.eqb (Z.to_nat idx) (Z.to_nat k)) with false; [reflexivity|].
      symmetry. apply Nat.eqb_neq. lia.
  - apply nth_error_None in Hn. lia.
Qed.

Lemma draw_required_at_clear (ws : list Window) (idx : Z) :
  Forall (fun w => draw_required w = false) ws ->
  draw_required_at ws idx = false.
Proof.
  intros Hall. unfold draw_required_at, py_index.
  destruct (resolve_index (List.length ws) idx) as [k|]; [|reflexivity].
  destruct (nth_error ws k) as [w|] eqn:Hn; [|reflexivity].
  rewrite Forall_forall in Hall. apply Hall. eapply nth_error_In. exact Hn.
Qed.

(** X24.  After a focus move on a row of windows that were all drawn, the
    next drawing loop draws exactly the window that had the focus and the
    window that has it now, and only the latter as focused. *)
Theorem focus_move_redraws_old_and_new (ws ws' : list Window) (i i' : Z) :
  Forall (fun w => draw_required w = false) ws ->
  0 <= i < Z.of_nat (List.length ws) ->
  next_window ws i = Ok (ws', i') \/ prev_window ws i = Ok (ws', i') ->
  forall idx b,
    In (idx, b) (fst (draw_windows ws' i')) <->
    (idx = i \/ idx = i') /\ b = Z.eqb idx i'.
Proof.
  intros Hclear Hi Hmove idx b.
  assert (Hn : 0 < Z.of_nat (List.length ws)) by lia.
  assert (Hshape :
            0 <= i' < Z.of_nat (List.length ws) /\
            (ws' = update_nth flag_draw (update_nth flag_draw ws (Z.to_nat i))
                     (Z.to_nat i') \/
             (ws' = update_nth flag_draw ws (Z.to_nat i) /\ i' = i))).
  { destruct Hmove as [Hrun|Hrun].
    - destruct (next_window_spec ws Hi) as [(k & _ & _ & _ & Hr)|(_ & Hr)];
        rewrite Hr in Hrun; injection Hrun as <- <-.
      + split; [apply mod_in_range; exact Hn | now left].
      + split; [exact Hi | now right].
    - destruct (prev_window_spec ws Hi) as [(k & _ & _ & _ & Hr)|(_ & Hr)];
        rewrite Hr in Hrun; injection Hrun as <- <-.
      + split; [apply mod_in_range; exact Hn | now left].
      + split; [exact Hi | now right]. }
  destruct Hshape as [Hi' Hws'].
  rewrite draw_windows_in.
  assert (Hlen : List.length ws' = List.length ws).
  { destruct Hws' as [->|[-> _]]; now rewrite ?update_nth_length. }
  rewrite Hlen.
  assert (Hflag : 0 <= idx < Z.of_nat (List.length ws) ->
                  draw_required_at ws' idx = Z.eqb idx i' || Z.eqb idx i).
  { intros Hidx. destruct Hws' as [->|[-> ->]].
    - rewrite draw_required_at_flag_draw
        by (rewrite ?update_nth_length; assumption).
      rewrite draw_required_at_flag_draw by assumption.
      rewrite (draw_required_at_clear idx Hclear). now rewrite orb_false_r.
    - rewrite draw_required_at_flag_draw by assumption.
      rewrite (draw_required_at_clear idx Hclear).
      now destruct (Z.eqb idx i). }
  split.
  - intros (Hd & Hidx & Hb). split; [|exact Hb].
    rewrite (Hflag Hidx) in Hd. apply orb_true_iff in Hd.
    destruct Hd as [Hd|Hd]; apply Z.eqb_eq in Hd; [now right | now left].
  - intros (Hor & Hb).
    assert (Hidx : 0 <= idx < Z.of_nat (List.length ws))
      by (destruct Hor as [->| ->]; assumption).
    split; [|split; [exact Hidx | exact Hb]].
    rewrite (Hflag Hidx). apply orb_true_iff.
    destruct Hor as [->| ->]; [right | left]; apply Z.eqb_refl.
Qed.

Lemma focus_move_redraws_witness :
  In (1, false)
     (fst (draw_windows
             [Screen.panel; flag_draw Screen.panel; Screen.label;
              flag_draw Screen.panel; Screen.label; Screen.label] 3)) <->
  (1 = 1 \/ 1 = 3) /\ false = Z.eqb 1 3.
Proof.
  refine (@focus_move_redraws_old_and_new Screen.windows _ 1 3 _ _ _ 1 false).
  - repeat constructor.
  - cbn. lia.
  - left. reflexivity.
Defined.

Local Close Scope Z_scope.

(** * Text forms of keys *)

Local Open Scope N_scope.

Lemma digit_injective (v v' : N) :
  v < 64 -> v' < 64 -> Base64.digit v = Base64.digit v' -> v = v'.
Proof.
  intros Hv Hv' Heq.
  assert (Hall :
            forallb (fun x =>
              forallb (fun y =>
                implb (Ascii.eqb (Base64.digit x) (Base64.digit y))
                      (N.eqb x y))
                sextet_values)
              sextet_values = true) by (vm_compute; reflexivity).
  rewrite forallb_forall in Hall.
  specialize (Hall v (sextet_values_complete Hv)).
  rewrite forallb_forall in Hall.
  specialize (Hall v' (sextet_values_complete Hv')).
  rewrite Heq, Ascii.eqb_refl in Hall. cbn in Hall.
  now apply N.eqb_eq.
Qed.

Lemma digit_not_pad (v : N) : v < 64 -> Base64.digit v <> Base64.pad.
Proof.
  intros Hv Heq.
  assert (Hall :
            forallb (fun x => negb (Ascii.eqb (Base64.digit x) Base64.pad))
                    sextet_values = true) by (vm_compute; reflexivity).
  rewrite forallb_forall in Hall.
  specialize (Hall v (sextet_values_complete Hv)).
  rewrite Heq, Ascii.eqb_refl in Hall. discriminate.
Qed.

Lemma sextet_injective (g g' i : N) :
  Base64.sextet g i = Base64.sextet g' i ->
  sextet_value g i = sextet_value g' i.
Proof.
  rewrite !sextet_is_digit. apply digit_injective; apply sextet_value_bound.
Qed.

Lemma sextet_not_pad (g i : N) : Base64.sextet g i <> Base64.pad.
Proof. rewrite sextet_is_digit. apply digit_not_pad, sextet_value_bound. Qed.

Lemma byte_to_N_injective (a b : byte) : Byte.to_N a = Byte.to_N b -> a = b.
Proof.
  intros H. pose proof (Byte.of_to_N a) as Ha. rewrite H in Ha.
  rewrite Byte.of_to_N in Ha. now injection Ha.
Qed.

Lemma testbit_sextet_value (g i m : N) :
  m < 6 ->
  N.testbit (sextet_value g i) m = N.testbit g (m + (18 - 6 * i)).
Proof.
  intros Hm. unfold sextet_value.
  rewrite N.land_spec, N.shiftr_spec by apply N.le_0_l.
  change 63 with (N.ones 6). rewrite N.ones_spec_low by exact Hm.
  apply andb_true_r.
Qed.

(** Equal sextets give equal bits in the six positions they cover. *)
Lemma sextet_bits (g g' i n : N) :
  sextet_value g i = sextet_value g' i ->
  18 - 6 * i <= n -> n < 18 - 6 * i + 6 ->
  N.testbit g n = N.testbit g' n.
Proof.
  intros Heq Hlo Hhi.
  replace n with ((n - (18 - 6 * i)) + (18 - 6 * i)) by lia.
  rewrite <- !testbit_sextet_value by lia. now rewrite Heq.
Qed.

Lemma byte_high_bits (a : byte) (n : N) :
  8 <= n -> N.testbit (Byte.to_N a) n = false.
Proof.
  intros Hn. pose proof (Byte.to_N_bounded a) as Ha.
  rewrite <- (N.mod_small (Byte.to_N a) (2 ^ 8))
    by (change (2 ^ 8) with 256; lia).
  now apply N.mod_pow2_bits_high.
Qed.

Lemma group_testbit (a b c : byte) (n : N) :
  N.testbit (Base64.group a b c) n =
  if n <? 8 then N.testbit (Byte.to_N c) n
  else if n <? 16 then N.testbit (Byte.to_N b) (n - 8)
       else N.testbit (Byte.to_N a) (n - 16).
Proof.
  unfold Base64.group. rewrite !N.lor_spec.
  destruct (n <? 8) eqn:H8; [apply N.ltb_lt in H8 | apply N.ltb_ge in H8].
  - rewrite !N.shiftl_spec_low by lia. reflexivity.
  - rewrite (byte_high_bits c) by exact H8. rewrite orb_false_r.
    destruct (n <? 16) eqn:H16;
      [apply N.ltb_lt in H16 | apply N.ltb_ge in H16].
    + rewrite N.shiftl_spec_low by lia.
      rewrite N.shiftl_spec_high' by lia. reflexivity.
    + rewrite (N.shiftl_spec_high' (Byte.to_N b)) by lia.
      rewrite (byte_high_bits b) by lia. rewrite orb_false_r.
      rewrite N.shiftl_spec_high' by lia. reflexivity.
Qed.

(** A byte is read off the bits of its group. *)
Lemma byte_of_group_bits (x x' : byte) (g g' shift : N) :
  (forall n, n < 8 -> N.testbit (Byte.to_N x) n = N.testbit g (n + shift)) ->
  (forall n, n < 8 -> N.testbit (Byte.to_N x') n = N.testbit g' (n + shift)) ->
  (forall n, shift <= n -> n < shift + 8 -> N.testbit g n = N.testbit g' n) ->
  x = x'.
Proof.
  intros Hx Hx' Hbits. apply byte_to_N_injective. apply N.bits_inj. intros n.
  destruct (N.lt_ge_cases n 8) as [Hlt|Hge].
  - rewrite (Hx n Hlt), (Hx' n Hlt). apply Hbits; lia.
  - now rewrite !byte_high_bits.
Qed.

Lemma group_high_byte (a b c : byte) (n : N) :
  n < 8 ->
  N.testbit (Byte.to_N a) n = N.testbit (Base64.group a b c) (n + 16).
Proof.
  intros Hn. rewrite group_testbit.
  replace (n + 16 <? 8) with false by (symmetry; apply N.ltb_ge; lia).
  replace (n + 16 <? 16) with false by (symmetry; apply N.ltb_ge; lia).
  f_equal. lia.
Qed.

Lemma group_middle_byte (a b c : byte) (n : N) :
  n < 8 ->
  N.testbit (Byte.to_N b) n = N.testbit (Base64.group a b c) (n + 8).
Proof.
  intros Hn. rewrite group_testbit.
  replace (n + 8 <? 8) with false by (symmetry; apply N.ltb_ge; lia).
  replace (n + 8 <? 16) with true by (symmetry; apply N.ltb_lt; lia).
  f_equal. lia.
Qed.

Lemma group_low_byte (a b c : byte) (n : N) :
  n < 8 ->
  N.testbit (Byte.to_N c) n = N.testbit (Base64.group a b c) (n + 0).
Proof.
  intros Hn. rewrite group_testbit, N.add_0_r.
  now replace (n <? 8) with true by (symmetry; apply N.ltb_lt; lia).
Qed.

(** The bits two groups share when their first sextets agree. *)
Lemma groups_agree_from (g g' lo : N) :
  (lo < 24 -> sextet_value g 0 = sextet_value g' 0) ->
  (lo < 18 -> sextet_value g 1 = sextet_value g' 1) ->
  (lo < 12 -> sextet_value g 2 = sextet_value g' 2) ->
  (lo < 6 -> sextet_value g 3 = sextet_value g' 3) ->
  forall n, lo <= n -> n < 24 -> N.testbit g n = N.testbit g' n.
Proof.
  intros H0 H1 H2 H3 n Hlo Hhi.
  destruct (N.lt_ge_cases n 6) as [L6|G6].
  - apply (@sextet_bits g g' 3 n); [apply H3; lia | cbn; lia | cbn; lia].
  - destruct (N.lt_ge_cases n 12) as [L12|G12].
    + apply (@sextet_bits g g' 2 n); [apply H2; lia | cbn; lia | cbn; lia].
    + destruct (N.lt_ge_cases n 18) as [L18|G18].
      * apply (@sextet_bits g g' 1 n); [apply H1; lia | cbn; lia | cbn; lia].
      * apply (@sextet_bits g g' 0 n); [apply H0; lia | cbn; lia | cbn; lia].
Qed.

Lemma group_injective (a b c a' b' c' : byte) :
  Base64.sextet (Base64.group a b c) 0 = Base64.sextet (Base64.group a' b' c') 0 ->
  Base64.sextet (Base64.group a b c) 1 = Base64.sextet (Base64.group a' b' c') 1 ->
  Base64.sextet (Base64.group a b c) 2 = Base64.sextet (Base64.group a' b' c') 2 ->
  Base64.sextet (Base64.group a b c) 3 = Base64.sextet (Base64.group a' b' c') 3 ->
  a = a' /\ b = b' /\ c = c'.
Proof.
  intros H0 H1 H2 H3.
  apply sextet_injective in H0, H1, H2, H3.
  pose proof (@groups_agree_from _ _ 0 (fun _ => H0) (fun _ => H1)
                (fun _ => H2) (fun _ => H3)) as Hbits.
  split; [|split].
  - eapply byte_of_group_bits;
      [exact (@group_high_byte a b c) | exact (@group_high_byte a' b' c') |].
    intros n Hlo Hhi. apply Hbits; lia.
  - eapply byte_of_group_bits;
      [exact (@group_middle_byte a b c) | exact (@group_middle_byte a' b' c') |].
    intros n Hlo Hhi. apply Hbits; lia.
  - eapply byte_of_group_bits;
      [exact (@group_low_byte a b c) | exact (@group_low_byte a' b' c') |].
    intros n Hlo Hhi. apply Hbits; lia.
Qed.

Lemma group_injective_2 (a b a' b' : byte) :
  Base64.sextet (Base64.group a b x00) 0 = Base64.sextet (Base64.group a' b' x00) 0 ->
  Base64.sextet (Base64.group a b x00) 1 = Base64.sextet (Base64.group a' b' x00) 1 ->
  Base64.sextet (Base64.group a b x00) 2 = Base64.sextet (Base64.group a' b' x00) 2 ->
  a = a' /\ b = b'.
Proof.
  intros H0 H1 H2.
  apply sextet_injective in H0, H1, H2.
  assert (Hbits : forall n, 6 <= n -> n < 24 ->
                    N.testbit (Base64.group a b x00) n =
                    N.testbit (Base64.group a' b' x00) n).
  { apply groups_agree_from; intros Hle; try assumption; lia. }
  split.
  - eapply byte_of_group_bits;
      [exact (@group_high_byte a b x00) | exact (@group_high_byte a' b' x00) |].
    intros n Hlo Hhi. apply Hbits; lia.
  - eapply byte_of_group_bits;
      [exact (@group_middle_byte a b x00) | exact (@group_middle_byte a' b' x00) |].
    intros n Hlo Hhi. apply Hbits; lia.
Qed.

Lemma group_injective_1 (a a' : byte) :
  Base64.sextet (Base64.group a x00 x00) 0 =
    Base64.sextet (Base64.group a' x00 x00) 0 ->
  Base64.sextet (Base64.group a x00 x00) 1 =
    Base64.sextet (Base64.group a' x00 x00) 1 ->
  a = a'.
Proof.
  intros H0 H1.
  apply sextet_injective in H0, H1.
  assert (Hbits : forall n, 12 <= n -> n < 24 ->
                    N.testbit (Base64.group a x00 x00) n =
                    N.testbit (Base64.group a' x00 x00) n).
  { apply groups_agree_from; intros Hle; try assumption; lia. }
  eapply byte_of_group_bits;
      [exact (@group_high_byte a x00 x00) | exact (@group_high_byte a' x00 x00) |].
  intros n Hlo Hhi. apply Hbits; lia.
Qed.

Lemma string4_inj (c0 c1 c2 c3 d0 d1 d2 d3 : ascii) (s t : string) :
  String c0 (String c1 (String c2 (String c3 s))) =
  String d0 (String d1 (String d2 (String d3 t))) ->
  c0 = d0 /\ c1 = d1 /\ c2 = d2 /\ c3 = d3 /\ s = t.
Proof. intros H. injection H as -> -> -> -> ->. now repeat split. Qed.

Lemma urlsafe_b64encode_injective_aux (n : nat) :
  forall bs bs' : bytes,
    (List.length bs <= n)%nat ->
    Base64.urlsafe_b64encode bs = Base64.urlsafe_b64encode bs' ->
    bs = bs'.
Proof.
  induction n as [|n IH]; intros bs bs' Hlen Heq.
  - destruct bs; [|cbn in Hlen; lia].
    destruct bs' as [|a' [|b' [|c' r']]]; [reflexivity | | |];
      cbn [Base64.urlsafe_b64encode] in Heq; discriminate Heq.
  - destruct bs as [|a [|b [|c r]]]; destruct bs' as [|a' [|b' [|c' r']]];
      cbn [Base64.urlsafe_b64encode] in Heq; cbv zeta in Heq;
      try reflexivity; try (discriminate Heq);
      apply string4_inj in Heq as (H0 & H1 & H2 & H3 & Hrest).
    + now rewrite (group_injective_1 _ _ H0 H1).
    + exfalso. symmetry in H2. exact (sextet_not_pad _ _ H2).
    + exfalso. symmetry in H2. exact (sextet_not_pad _ _ H2).
    + exfalso. exact (sextet_not_pad _ _ H2).
    + destruct (group_injective_2 _ _ _ _ H0 H1 H2) as [-> ->]. reflexivity.
    + exfalso. symmetry in H3. exact (sextet_not_pad _ _ H3).
    + exfalso. exact (sextet_not_pad _ _ H2).
    + exfalso. exact (sextet_not_pad _ _ H3).
    + destruct (group_injective _ _ _ _ _ _ H0 H1 H2 H3) as (-> & -> & ->).
      f_equal. f_equal. f_equal.
      apply IH; [cbn in Hlen; lia | exact Hrest].
Qed.

(** X25.  The text form of a key determines the key: two byte strings
    with the same url-safe base64 text are equal, so two fetched elements
    have the same [sender_key_b64] exactly when they have the same sender
    key, and likewise for [exchange_key_b64] and [initial_key_b64]. *)
Theorem key_text_determines_key :
  (forall bs bs' : bytes,
      Base64.urlsafe_b64encode bs = Base64.urlsafe_b64encode bs' <->
      bs = bs') /\
  (forall el el' : FetchResponseElement,
      sender_key_b64 el = sender_key_b64 el' <->
      sender_key el = sender_key el') /\
  (forall k k' : FetchResponseExchangeKey,
      exchange_key_b64 k = exchange_key_b64 k' <->
      exchange_key k = exchange_key k') /\
  (forall k k' : FetchResponseExchangeKey,
      initial_key_b64 k = initial_key_b64 k' <->
      initial_key k = initial_key k').
Proof.
  assert (Hinj : forall bs bs' : bytes,
             Base64.urlsafe_b64encode bs = Base64.urlsafe_b64encode bs' ->
             bs = bs').
  { intros bs bs'.
    apply (urlsafe_b64encode_injective_aux (n := List.length bs)). lia. }
  split; [|split; [|split]].
  - intros bs bs'. split; [apply Hinj | now intros ->].
  - intros el el'. unfold sender_key_b64. split; [|now intros ->].
    intros H. apply Hinj in H.
    destruct (sender_key el), (sender_key el'). cbn in H. now subst.
  - intros k k'. unfold exchange_key_b64. split; [|now intros ->].
    intros H. apply Hinj in H.
    destruct (exchange_key k), (exchange_key k'). cbn in H. now subst.
  - intros k k'. unfold initial_key_b64. split; [|now intros ->].
    destruct (initial_key k) as [[b]|], (initial_key k') as [[b']|].
    + intros H. injection H as H. apply Hinj in H. cbn in H. now subst.
    + discriminate.
    + discriminate.
    + reflexivity.
Qed.

Local Close Scope N_scope.

(** * The pattern of a nonce *)

Example nonce_ok : nonce_accepted "00ff3A" = true.
Proof. reflexivity. Qed.

Example nonce_odd : nonce_accepted "00f" = false.
Proof. reflexivity. Qed.

Example nonce_empty : nonce_accepted "" = false.
Proof. reflexivity. Qed.

Example nonce_not_hex : nonce_accepted "0g" = false.
Proof. reflexivity. Qed.

Lemma append_empty (s1 s2 : string) :
  (s1 ++ s2)%string = EmptyString -> s1 = EmptyString /\ s2 = EmptyString.
Proof. destruct s1; cbn; [intros ->; now split | discriminate]. Qed.

Lemma nullable_lang (r : regex) : nullable r = true <-> lang r EmptyString.
Proof.
  split.
  - induction r; cbn; intros H; try discriminate.
    + constructor.
    + apply andb_true_iff in H as [H1 H2].
      change EmptyString with (EmptyString ++ EmptyString)%string.
      constructor; auto.
    + apply orb_true_iff in H as [H|H];
        [apply lang_alt_l | apply lang_alt_r]; auto.
    + constructor.
  - intros H. remember EmptyString as s eqn:Hs.
    induction H; cbn; try reflexivity; try discriminate.
    + apply append_empty in Hs as [-> ->].
      now rewrite IHlang1, IHlang2.
    + now rewrite IHlang.
    + rewrite IHlang by assumption. apply orb_true_r.
Qed.

Lemma derive_sound (c : ascii) (r : regex) :
  forall s, lang (derive c r) s -> lang r (String c s).
Proof.
  induction r; cbn [derive]; intros s H.
  - inversion H.
  - inversion H.
  - destruct (in_ranges ranges c) eqn:Hc; inversion H; subst.
    now constructor.
  - destruct (nullable r1) eqn:Hn.
    + inversion H as [| | | ? ? ? Hl | ? ? ? Hr | |]; subst.
      * inversion Hl as [| |? ? s1 s2 H1 H2| | | |]; subst.
        change (String c (s1 ++ s2)) with ((String c s1) ++ s2)%string.
        constructor; auto.
      * change (String c s) with (EmptyString ++ String c s)%string.
        constructor; [now apply nullable_lang | auto].
    + inversion H as [| |? ? s1 s2 H1 H2| | | |]; subst.
      change (String c (s1 ++ s2)) with ((String c s1) ++ s2)%string.
      constructor; auto.
  - inversion H; subst; [apply lang_alt_l | apply lang_alt_r]; auto.
  - inversion H as [| |? ? s1 s2 H1 H2| | | |]; subst.
    change (String c (s1 ++ s2)) with ((String c s1) ++ s2)%string.
    constructor; auto.
Qed.

Lemma derive_complete (r : regex) (s0 : string) :
  lang r s0 -> forall c s, s0 = String c s -> lang (derive c r) s.
Proof.
  induction 1 as [|ranges c0 Hc|r1 r2 s1 s2 H1 IH1 H2 IH2|r1 r2 s0 H IH
                  |r1 r2 s0 H IH| |r s1 s2 H1 IH1 H2 IH2];
    intros c s Hs; cbn [derive].
  - discriminate.
  - injection Hs as -> <-. rewrite Hc. constructor.
  - destruct s1 as [|c1 s1'].
    + cbn in Hs. subst s2.
      replace (nullable r1) with true
        by (symmetry; now apply nullable_lang).
      apply lang_alt_r. now apply IH2.
    + cbn in Hs. injection Hs as -> <-.
      destruct (nullable r1).
      * apply lang_alt_l. constructor; [now apply IH1 | assumption].
      * constructor; [now apply IH1 | assumption].
  - apply lang_alt_l. now apply IH.
  - apply lang_alt_r. now apply IH.
  - discriminate.
  - destruct s1 as [|c1 s1'].
    + cbn in Hs. now apply IH2.
    + cbn in Hs. injection Hs as -> <-.
      constructor; [now apply IH1 | assumption].
Qed.

Lemma fullmatch_lang (s : string) :
  forall r, fullmatch r s = true <-> lang r s.
Proof.
  induction s as [|c s IH]; intros r; cbn [fullmatch].
  - apply nullable_lang.
  - rewrite IH. split.
    + apply derive_sound.
    + intros H. now apply (derive_complete H).
Qed.

Lemma hex_digit_ranges (c : ascii) :
  in_ranges [("0", "9"); ("a", "f"); ("A", "F")]%char c = hex_char c.
Proof.
  destruct c as [[] [] [] [] [] [] [] []]; reflexivity.
Qed.

Lemma lang_hex_digit (s : string) :
  lang hex_digit s <->
  exists c, s = String c EmptyString /\ hex_char c = true.
Proof.
  split.
  - intros H. inversion H as [|ranges c Hc| | | | |]; subst.
    exists c. split; [reflexivity|]. now rewrite <- hex_digit_ranges.
  - intros (c & -> & Hc). constructor. now rewrite hex_digit_ranges.
Qed.

Lemma lang_hex_pair (s : string) :
  lang (times 2 hex_digit) s <->
  exists c1 c2,
    s = String c1 (String c2 EmptyString) /\
    hex_char c1 = true /\ hex_char c2 = true.
Proof.
  cbn [times]. split.
  - intros H. inversion H as [| |? ? s1 s2 H1 H2| | | |]; subst.
    inversion H2 as [| |? ? s3 s4 H3 H4| | | |]; subst.
    inversion H4; subst.
    apply lang_hex_digit in H1 as (c1 & -> & Hc1).
    apply lang_hex_digit in H3 as (c2 & -> & Hc2).
    now exists c1, c2.
  - intros (c1 & c2 & -> & Hc1 & Hc2).
    change (String c1 (String c2 EmptyString))
      with ((String c1 EmptyString)
              ++ ((String c2 EmptyString) ++ EmptyString))%string.
    constructor; [apply lang_hex_digit; now exists c1|].
    constructor; [apply lang_hex_digit; now exists c2 | constructor].
Qed.

Lemma hex_pairs_lang_aux (s : string) :
  (hex_pairs s = true -> lang (Star (times 2 hex_digit)) s) /\
  (forall c, hex_pairs (String c s) = true ->
             lang (Star (times 2 hex_digit)) (String c s)).
Proof.
  induction s as [|c0 s [IH1 IH2]].
  - split; [intros _; constructor | intros c H; discriminate].
  - split; [apply IH2|].
    intros c H. cbn [hex_pairs] in H.
    apply andb_true_iff in H as [H Hrest].
    apply andb_true_iff in H as [Hc Hc0].
    change (String c (String c0 s))
      with ((String c (String c0 EmptyString)) ++ s)%string.
    constructor; [|now apply IH1].
    apply lang_hex_pair. now exists c, c0.
Qed.

Lemma lang_star_hex_pairs (s : string) :
  lang (Star (times 2 hex_digit)) s <-> hex_pairs s = true.
Proof.
  split; [|apply hex_pairs_lang_aux].
  intros H. remember (Star (times 2 hex_digit)) as r eqn:Hr.
  induction H as [| | | | | |r0 s1 s2 H1 _ H2 IH2]; try discriminate.
  - reflexivity.
  - injection Hr as ->.
    apply lang_hex_pair in H1 as (c1 & c2 & -> & Hc1 & Hc2).
    cbn [append hex_pairs]. rewrite Hc1, Hc2. now apply IH2.
Qed.

Lemma hex_pairs_spec_aux (s : string) :
  (hex_pairs s = true <->
   Nat.even (String.length s) = true /\
   forallb hex_char (list_ascii_of_string s) = true) /\
  (forall c,
      hex_pairs (String c s) = true <->
      Nat.even (S (String.length s)) = true /\
      forallb hex_char (list_ascii_of_string (String c s)) = true).
Proof.
  induction s as [|c0 s [IH1 IH2]].
  - split; [now split|].
    intros c. split; [discriminate | intros [H _]; discriminate].
  - split; [apply IH2|].
    intros c. cbn [hex_pairs String.length list_ascii_of_string forallb].
    change (Nat.even (S (S (String.length s))))
      with (Nat.even (String.length s)).
    rewrite ?andb_true_iff, IH1. tauto.
Qed.

(** X26.  A nonce is accepted by the pattern exactly when it is not
    empty, has an even number of characters and consists of the digits
    [0-9], [a-f] and [A-F] only. *)
Theorem nonce_pattern_accepts_even_hex (s : string) :
  nonce_accepted s = true <->
  s <> EmptyString /\
  Nat.even (String.length s) = true /\
  forallb hex_char (list_ascii_of_string s) = true.
Proof.
  unfold nonce_accepted, nonce_pattern, plus.
  rewrite fullmatch_lang.
  rewrite <- (proj1 (hex_pairs_spec_aux s)).
  split.
  - intros H. inversion H as [| |? ? s1 s2 H1 H2| | | |]; subst.
    apply lang_hex_pair in H1 as (c1 & c2 & -> & Hc1 & Hc2).
    apply lang_star_hex_pairs in H2.
    split; [discriminate|].
    cbn [append hex_pairs]. now rewrite Hc1, Hc2.
  - intros [Hne H].
    destruct s as [|c1 [|c2 rest]]; [contradiction | discriminate |].
    cbn [hex_pairs] in H.
    apply andb_true_iff in H as [H Hrest].
    apply andb_true_iff in H as [Hc1 Hc2].
    change (String c1 (String c2 rest))
      with ((String c1 (String c2 EmptyString)) ++ rest)%string.
    constructor; [apply lang_hex_pair; now exists c1, c2|].
    now apply lang_star_hex_pairs.
Qed.
